(** * Union-find engine and depth-first labeler of
      OpenPNM/Utilities/__graphTheoAlgs__.py

    A shallow embedding of the two classes [quick_union_algs] and
    [depth_first_search_alg], and the properties of their operations.

    Vertex ids and array entries are Python/numpy integers, modelled as [Z].
    The numpy array [self.id_updated] is a [list Z]; indexing follows numpy:
    an index [i] with [-N <= i < 0] denotes position [i + N], and an index
    outside [-N, N) raises IndexError.  A batch of ids is a numpy int array,
    modelled as a [list Z] (a Python list of ints behaves alike wherever the
    batches of a call have the same length); a scalar id behaves as a batch
    of one.  The [while] loops of the source are run with a fuel bound:
    [OutOfFuel] stands for a loop that has not finished within the bound.
    Likewise the recursion of the labeler is run with a bound on the number
    of nested calls, as the interpreter's recursion limit does. *)

From Stdlib Require Import ZArith Lia Bool.
From stdpp Require Import base list strings relations.

Local Open Scope Z_scope.

(** ** numpy indexing *)

Module Numpy.

(** Position denoted by index [i] in an array of length [n]. *)
Definition np_index (n : nat) (i : Z) : option nat :=
  if (0 <=? i) && (i <? Z.of_nat n) then Some (Z.to_nat i)
  else if (- Z.of_nat n <=? i) && (i <? 0) then Some (Z.to_nat (i + Z.of_nat n))
  else None.

(** [a[i]] for one integer index. *)
Definition np_get (a : list Z) (i : Z) : option Z :=
  match np_index (length a) i with
  | Some k => a !! k
  | None => None
  end.

(** [a[idx]] for an index batch: a fresh array, [None] on IndexError. *)
Fixpoint np_take (a : list Z) (idx : list Z) : option (list Z) :=
  match idx with
  | [] => Some []
  | i :: idx' =>
      match np_get a i, np_take a idx' with
      | Some x, Some xs => Some (x :: xs)
      | _, _ => None
      end
  end.

(** [a[idx] = vals] for an index batch and a value batch of the same shape:
    positions are written from left to right, so the last value wins where an
    index is repeated; [None] (and no write at all) on IndexError. *)
Fixpoint np_put (a : list Z) (idx vals : list Z) : option (list Z) :=
  match idx, vals with
  | [], [] => Some a
  | i :: idx', x :: vals' =>
      match np_index (length a) i with
      | Some k => np_put (<[k:=x]> a) idx' vals'
      | None => None
      end
  | _, _ => None
  end.

(** [sp.any(v != w)] on two batches of the same shape. *)
Fixpoint np_any_ne (v w : list Z) : bool :=
  match v, w with
  | x :: v', y :: w' => negb (x =? y) || np_any_ne v' w'
  | _, _ => false
  end.

(** Shapes that numpy broadcasts against each other (one dimension). *)
Definition np_broadcastable (n m : nat) : bool :=
  Nat.eqb n m || Nat.eqb n 1 || Nat.eqb m 1.

(** [v] stretched to length [n] when it has one element. *)
Definition np_stretch (n : nat) (v : list Z) : list Z :=
  match v with
  | [x] => replicate n x
  | _ => v
  end.

(** [sp.all(i == j)]: elementwise with broadcasting; shapes that do not
    broadcast compare unequal as a whole. *)
Definition np_all_eq (i j : list Z) : bool :=
  if np_broadcastable (length i) (length j) then
    let n := Nat.max (length i) (length j) in
    negb (np_any_ne (np_stretch n i) (np_stretch n j))
  else false.

(** [sp.unique(r, return_counts=True)]: the sorted distinct values with the
    number of occurrences of each, as a list of columns. *)
Fixpoint count_insert (x : Z) (t : list (Z * Z)) : list (Z * Z) :=
  match t with
  | [] => [(x, 1)]
  | (y, c) :: t' =>
      if x <? y then (x, 1) :: t
      else if x =? y then (y, c + 1) :: t'
      else (y, c) :: count_insert x t'
  end.

Definition np_unique_counts (r : list Z) : list (Z * Z) :=
  foldr count_insert [] r.

(** [sp.where(row == x)[0]]: the positions of [x] in a row. *)
Fixpoint np_where_eq (row : list Z) (x : Z) (k : nat) : list nat :=
  match row with
  | [] => []
  | y :: row' => if y =? x then k :: np_where_eq row' x (S k) else np_where_eq row' x (S k)
  end.

End Numpy.
Import Numpy.

(** ** The engine: class [quick_union_algs] *)

Module quick_union_algs.

(** Exceptions the operations can raise. *)
Inductive exn : Type :=
  | IndexError
  | ValueError
  | AttributeError
  | TypeError (msg : string)
  | PyException (msg : string).

(** The attribute [self.roots], when it exists, is either the very array
    object bound to [self.id_updated] (after [self.roots=self.id_updated])
    or an array of its own. *)
Inductive roots_attr : Type :=
  | RootsAlias
  | RootsOwn (r : list Z).

(** Instance attributes: [id_updated] always exists; [roots] and [size] exist
    only once assigned.  [size] is the 2 x R array, kept as its R columns
    (root, count). *)
Record state : Type := mkState {
  id_updated : list Z;
  roots : option roots_attr;
  size : option (list (Z * Z))
}.

Definition set_id_updated (s : state) (a : list Z) : state :=
  mkState a (roots s) (size s).

(** [__init__]. *)
Definition init (parents_array : list Z) : state :=
  mkState parents_array None None.

(** Result of running a method: a value and the state it leaves, an exception
    and the state at the time it is raised, or a loop cut by the fuel bound. *)
Inductive outcome (A : Type) : Type :=
  | Ret (a : A) (s : state)
  | Raise (e : exn) (s : state)
  | OutOfFuel.
Arguments Ret {A} a s.
Arguments Raise {A} e s.
Arguments OutOfFuel {A}.

Definition bind {A B} (m : outcome A) (k : A -> state -> outcome B) : outcome B :=
  match m with
  | Ret a s => k a s
  | Raise e s => Raise e s
  | OutOfFuel => OutOfFuel
  end.

(** [self.id_updated[idx]] and [self.id_updated[idx] = vals]. *)
Definition getitem (s : state) (idx : list Z) : outcome (list Z) :=
  match np_take (id_updated s) idx with
  | Some p => Ret p s
  | None => Raise IndexError s
  end.

Definition setitem (s : state) (idx vals : list Z) : outcome unit :=
  if Nat.eqb (length vals) (length idx) || Nat.eqb (length vals) 1 then
    match np_put (id_updated s) idx (np_stretch (length idx) vals) with
    | Some a => Ret tt (set_id_updated s a)
    | None => Raise IndexError s
    end
  else Raise ValueError s.

(** [_root]. *)
Fixpoint _root (fuel : nat) (s : state) (v_i : list Z) : outcome (list Z) :=
  bind (getitem s v_i) (fun p s =>
  if np_any_ne v_i p then
    match fuel with
    | O => OutOfFuel
    | S fuel' => _root fuel' s p
    end
  else Ret v_i s).

(** The [path_halving] loop of [_root_path_compression]. *)
Fixpoint halving_loop (fuel : nat) (s : state) (v_j : list Z) : outcome (list Z) :=
  bind (getitem s v_j) (fun p s =>
  if np_any_ne v_j p then
    match fuel with
    | O => OutOfFuel
    | S fuel' =>
        bind (getitem s p) (fun g s =>
        bind (setitem s v_j g) (fun _ s =>
        bind (getitem s v_j) (fun v_j' s =>
        halving_loop fuel' s v_j')))
    end
  else Ret v_j s).

(** The second loop of the [full_pc] branch. *)
Fixpoint full_pc_loop (fuel : nat) (s : state) (v_i v_j : list Z) : outcome unit :=
  if np_any_ne v_i v_j then
    match fuel with
    | O => OutOfFuel
    | S fuel' =>
        bind (getitem s v_i) (fun v_j_new s =>
        bind (setitem s v_i v_j) (fun _ s =>
        full_pc_loop fuel' s v_j_new v_j))
    end
  else Ret tt s.

(** [_root_path_compression]; the first loop of the [full_pc] branch is the
    loop of [_root]. *)
Definition _root_path_compression (fuel : nat) (s : state) (v_i : list Z)
    (pc_type : string) : outcome (list Z) :=
  if String.eqb pc_type "path_halving" then halving_loop fuel s v_i
  else if String.eqb pc_type "full_pc" then
    bind (_root fuel s v_i) (fun v_j s =>
    bind (full_pc_loop fuel s v_i v_j) (fun _ s => Ret v_j s))
  else Ret v_i s.

(** [find_root]: it returns nothing and stores the roots found in the entries
    of the tested ids. *)
Definition find_root (fuel : nat) (s : state) (elements_to_test : list Z)
    (path_compression : bool) (path_compression_type : string) : outcome unit :=
  if path_compression then
    bind (_root_path_compression fuel s elements_to_test path_compression_type)
      (fun r s => setitem s elements_to_test r)
  else
    bind (_root fuel s elements_to_test) (fun r s => setitem s elements_to_test r).

(** The root lookup that opens both union methods:
    [if (path_compression): i = ...; j = ... else: i = ...; j = ...]. *)
Definition both_roots (fuel : nat) (s : state) (minor main : list Z)
    (path_compression : bool) (path_compression_type : string)
    : outcome (list Z * list Z) :=
  if path_compression
  then bind (_root_path_compression fuel s minor path_compression_type) (fun i s =>
       bind (_root_path_compression fuel s main path_compression_type) (fun j s =>
       Ret (i, j) s))
  else bind (_root fuel s minor) (fun i s =>
       bind (_root fuel s main) (fun j s => Ret (i, j) s)).

(** [build_quick_union]. *)
Definition build_quick_union (fuel : nat) (s : state) (minor main : list Z)
    (path_compression : bool) (path_compression_type : string) : outcome unit :=
  bind (both_roots fuel s minor main path_compression path_compression_type)
    (fun ij s =>
     if np_all_eq (fst ij) (snd ij) then Ret tt s
     else setitem s (fst ij) (snd ij)).

(** Python values a caller can pass where a vertex id is expected. *)
Inductive pyval : Type :=
  | PyInt (z : Z)                  (* built-in int *)
  | PyBool (b : bool)              (* built-in bool *)
  | PyFloat (mantissa exponent : Z) (* built-in float *)
  | NpInt (z : Z)                  (* numpy integer scalar, as returned by indexing an int array *)
  | PyList (l : list Z)            (* list of ints *)
  | NdArray (l : list Z).          (* numpy int array *)

Inductive pytype : Type :=
  | t_int | t_bool | t_float | t_numpy_int | t_list | t_ndarray.

(** [type(x)]. *)
Definition py_type (x : pyval) : pytype :=
  match x with
  | PyInt _ => t_int
  | PyBool _ => t_bool
  | PyFloat _ _ => t_float
  | NpInt _ => t_numpy_int
  | PyList _ => t_list
  | NdArray _ => t_ndarray
  end.

Definition pytype_eqb (t u : pytype) : bool :=
  match t, u with
  | t_int, t_int | t_bool, t_bool | t_float, t_float
  | t_numpy_int, t_numpy_int | t_list, t_list | t_ndarray, t_ndarray => true
  | _, _ => false
  end.

(** Keyword arguments of a call, and the call of [find_root] by keywords:
    a keyword that is not a parameter of [find_root] raises TypeError. *)
Inductive kwval : Type :=
  | KwIds (l : list Z)
  | KwBool (b : bool)
  | KwStr (s : string).

Definition find_root_params : list string :=
  ["elements_to_test"; "path_compression"; "path_compression_type"]%string.

Fixpoint kw_lookup (name : string) (kwargs : list (string * kwval)) : option kwval :=
  match kwargs with
  | [] => None
  | (n, v) :: rest => if String.eqb n name then Some v else kw_lookup name rest
  end.

Definition call_find_root (fuel : nat) (s : state) (kwargs : list (string * kwval))
    : outcome unit :=
  if forallb (fun kv => existsb (String.eqb (fst kv)) find_root_params) kwargs then
    find_root fuel s
      (match kw_lookup "elements_to_test" kwargs with Some (KwIds l) => l | _ => [] end)
      (match kw_lookup "path_compression" kwargs with Some (KwBool b) => b | _ => true end)
      (match kw_lookup "path_compression_type" kwargs with
       | Some (KwStr m) => m | _ => "path_halving"%string end)
  else Raise (TypeError "find_root() got an unexpected keyword argument") s.

(** [sp.arange(n, dtype=int)]. *)
Definition arange (n : nat) : list Z := map Z.of_nat (seq 0 n).

(** The value of a batch of one. *)
Definition item (r : list Z) : Z := hd 0 r.

(** [int(sp.where(self.size[0]==r)[0])]: the column of root [r] in the size
    table; the conversion to int fails unless exactly one column matches. *)
Definition size_index (s : state) (tbl : list (Z * Z)) (r : Z) : outcome nat :=
  match np_where_eq (map fst tbl) r 0 with
  | [k] => Ret k s
  | _ => Raise (TypeError "only size-1 arrays can be converted to Python scalars") s
  end.

(** [self.roots[ self.roots == old ] = new]. *)
Definition relabel (old new : Z) (r : list Z) : list Z :=
  map (fun x => if x =? old then new else x) r.

Definition roots_relabel (s : state) (old new : Z) : outcome unit :=
  match roots s with
  | None => Raise AttributeError s
  | Some RootsAlias => Ret tt (set_id_updated s (relabel old new (id_updated s)))
  | Some (RootsOwn r) =>
      Ret tt (mkState (id_updated s) (Some (RootsOwn (relabel old new r))) (size s))
  end.

(** The value of [self.roots] when the attribute exists. *)
Definition roots_value (s : state) : list Z :=
  match roots s with
  | Some (RootsOwn r) => r
  | _ => id_updated s
  end.

(** The inner [try] of the table construction succeeds when [self.roots]
    exists and has the length of [self.id_updated]. *)
Definition roots_usable (s : state) : bool :=
  match roots s with
  | None => false
  | Some RootsAlias => true
  | Some (RootsOwn r) => Nat.eqb (length r) (length (id_updated s))
  end.

(** The [try: self.size / except: ...] block: leaves a state in which
    [self.size] exists and returns it.  [kw] is the keyword under which the
    compression type is passed to [find_root]. *)
Definition ensure_size (kw : string) (fuel : nat) (s : state)
    (path_compression : bool) (path_compression_type : string)
    : outcome (list (Z * Z)) :=
  match size s with
  | Some tbl => Ret tbl s
  | None =>
      bind (if roots_usable s then Ret tt s
            else
              bind (call_find_root fuel s
                      [("elements_to_test"%string, KwIds (arange (length (id_updated s))));
                       ("path_compression"%string, KwBool path_compression);
                       (kw, KwStr path_compression_type)])
                (fun _ s => Ret tt (mkState (id_updated s) (Some RootsAlias) (size s))))
        (fun _ s =>
           let tbl := np_unique_counts (roots_value s) in
           Ret tbl (mkState (id_updated s) (roots s) (Some tbl)))
  end.

(** One branch of the final [if]: root [lo] is attached under root [hi]. *)
Definition attach (s : state) (tbl : list (Z * Z)) (lo hi : Z) (lo_index hi_index : nat)
    : outcome unit :=
  bind (setitem s [lo] [hi]) (fun _ s =>
  bind (roots_relabel s lo hi) (fun _ s =>
  let lo_size := snd (tbl !!! lo_index) in
  let tbl1 := alter (fun c => (fst c, snd c + lo_size)) hi_index tbl in
  Ret tt (mkState (id_updated s) (roots s) (Some (delete lo_index tbl1))))).

(** [build_weighted_quick_union], with the keyword of its [find_root] call as
    a parameter. *)
Definition weighted_union_with_keyword (kw : string) (fuel : nat) (s : state)
    (minor main : pyval) (path_compression : bool) (path_compression_type : string)
    : outcome unit :=
  match minor, main with
  | PyInt minor, PyInt main =>
      bind (both_roots fuel s [minor] [main] path_compression path_compression_type)
        (fun ij s =>
         let i := item (fst ij) in
         let j := item (snd ij) in
         if i =? j then Ret tt s
         else
           bind (ensure_size kw fuel s path_compression path_compression_type) (fun tbl s =>
           bind (size_index s tbl i) (fun i_index s =>
           let i_size := snd (tbl !!! i_index) in
           bind (size_index s tbl j) (fun j_index s =>
           let j_size := snd (tbl !!! j_index) in
           if i_size <=? j_size
           then attach s tbl i j i_index j_index
           else attach s tbl j i j_index i_index))))
  | _, _ => Raise (PyException "Received ids must be of type int") s
  end.

(** [build_weighted_quick_union]: the source passes the compression type to
    [find_root] under the keyword [pc_type]. *)
Definition build_weighted_quick_union :=
  weighted_union_with_keyword "pc_type".

End quick_union_algs.
Import quick_union_algs.

(** ** The labeler: class [depth_first_search_alg] *)

Module depth_first_search_alg.

(** Result of a labeling run: the label array, an exception, or a recursion
    deeper than the bound [depth] on nested calls. *)
Inductive result : Type :=
  | Labels (roots : list Z)
  | Error (e : exn)
  | TooDeep.

(** [self.adj_list[k]]. *)
Definition adj_get (adj_list : list (list Z)) (k : Z) : option (list Z) :=
  match np_index (length adj_list) k with
  | Some p => adj_list !! p
  | None => None
  end.

(** The loop [for x in (self.adj_list[k]): if (val[x]==-1): <recursive call>]
    of [_visit_for_depth_first_search]; [visit roots x] is the recursive call.
    [val] is the array [self.roots] itself, so the test reads the labels
    written so far. *)
Fixpoint for_x (visit : list Z -> Z -> result) (xs : list Z) (roots : list Z) : result :=
  match xs with
  | [] => Labels roots
  | x :: xs' =>
      match np_get roots x with
      | None => Error IndexError
      | Some l =>
          if l =? -1 then
            match visit roots x with
            | Labels roots' => for_x visit xs' roots'
            | r => r
            end
          else for_x visit xs' roots
      end
  end.

(** [_visit_for_depth_first_search], with at most [depth] nested calls. *)
Fixpoint _visit_for_depth_first_search (depth : nat) (adj_list : list (list Z))
    (roots : list Z) (now k : Z) : result :=
  match depth with
  | O => TooDeep
  | S depth' =>
      match np_put roots [k] [now] with
      | None => Error IndexError
      | Some roots1 =>
          match adj_get adj_list k with
          | None => Error IndexError
          | Some nbrs =>
              for_x (fun roots x => _visit_for_depth_first_search depth' adj_list roots now x)
                nbrs roots1
          end
      end
  end.

(** The [for i in range(len(self.adj_list))] loop of [depth_first_search]. *)
Fixpoint for_i (depth : nat) (adj_list : list (list Z)) (ids : list Z)
    (now : Z) (roots : list Z) : result :=
  match ids with
  | [] => Labels roots
  | i :: ids' =>
      match np_get roots i with
      | None => Error IndexError
      | Some l =>
          if l =? -1 then
            match _visit_for_depth_first_search depth adj_list roots (now + 1) i with
            | Labels roots' => for_i depth adj_list ids' (now + 1) roots'
            | r => r
            end
          else for_i depth adj_list ids' now roots
      end
  end.

(** [depth_first_search]. *)
Definition depth_first_search (depth : nat) (adj_list : list (list Z)) : result :=
  for_i depth adj_list (arange (length adj_list)) (-1)
    (replicate (length adj_list) (-1)).

End depth_first_search_alg.
Import depth_first_search_alg.

(** * Specification vocabulary *)

Definition in_range (a : list Z) (v : Z) : Prop := 0 <= v < Z.of_nat (length a).

(** The parent link of [v]; a vertex that indexes nothing stays put. *)
Definition parent (a : list Z) (v : Z) : Z := default v (np_get a v).

Definition wf_parents (a : list Z) : Prop := Forall (in_range a) a.

Definition is_root (a : list Z) (r : Z) : Prop := parent a r = r.

(** [v] is at a root after [k] parent links. *)
Definition reach (a : list Z) (v : Z) (k : nat) : Prop :=
  is_root a (Nat.iter k (parent a) v).

Definition is_root_of (a : list Z) (v r : Z) : Prop :=
  exists k, Nat.iter k (parent a) v = r /\ is_root a r.

(** A valid forest: every entry is a vertex, and following parent links from
    any vertex arrives at a self-parented vertex. *)
Definition valid_forest (a : list Z) : Prop :=
  wf_parents a /\ forall v, in_range a v -> exists k, reach a v k.

(** An executable check: entries in range, and [length a] links from any
    vertex end on a root. *)
Definition valid_forestb (a : list Z) : bool :=
  forallb (fun p => (0 <=? p) && (p <? Z.of_nat (length a))) a
  && forallb (fun v => parent a (Nat.iter (length a) (parent a) v)
                       =? Nat.iter (length a) (parent a) v)
       (arange (length a)).

(** [a'] is obtained from [a] by replacing parents by proper ancestors. *)
Definition compresses (a a' : list Z) : Prop :=
  length a' = length a /\
  forall v, in_range a v ->
    exists m, (1 <= m)%nat /\ parent a' v = Nat.iter m (parent a) v.

(** The two compression modes of the engine. *)
Definition compression_mode (pc_type : string) : Prop :=
  pc_type = "path_halving"%string \/ pc_type = "full_pc"%string.

(** [a'] is [a] with each vertex listed in [is_], a root, re-parented to a
    root that is not listed. *)
Definition links (a a' : list Z) (is_ : list Z) : Prop :=
  length a' = length a /\
  (forall v, in_range a v -> v ∉ is_ -> parent a' v = parent a v) /\
  (forall v, in_range a v -> v ∈ is_ ->
     is_root a v /\ in_range a (parent a' v) /\ is_root a (parent a' v)
     /\ parent a' v ∉ is_).

(** Two vertices of the same tree. *)
Definition same_tree (a : list Z) (x y : Z) : Prop :=
  exists r, is_root_of a x r /\ is_root_of a y r.

(** Batches for [build_quick_union]: every pair already in one tree; no
    minor vertex in the tree of a main vertex; minor vertices of one tree
    paired with main vertices of one tree. *)
Definition batch_connected (a : list Z) (minor main : list Z) : Prop :=
  Forall2 (same_tree a) minor main.

Definition batch_separate (a : list Z) (minor main : list Z) : Prop :=
  forall x y, x ∈ minor -> y ∈ main -> ~ same_tree a x y.

Definition batch_functional (a : list Z) (minor main : list Z) : Prop :=
  forall k l x x' y y',
    minor !! k = Some x -> minor !! l = Some x' ->
    main !! k = Some y -> main !! l = Some y' ->
    same_tree a x x' -> same_tree a y y'.

(** The state an outcome leaves, returned or raised. *)
Definition final_state {A : Type} (o : outcome A) : option state :=
  match o with
  | Ret _ s => Some s
  | Raise _ s => Some s
  | OutOfFuel => None
  end.

(** The parent array of the docstrings: 11 vertices, 3 trees. *)
Definition scenario : list Z := [0; 0; 0; 3; 3; 3; 9; 7; 9; 4; 8].

(** The root of [v] as [length a] parent links compute it. *)
Definition root_fn (a : list Z) (v : Z) : Z := Nat.iter (length a) (parent a) v.

(** No exception of the generic class comes out of a computation. *)
Definition no_pyexception {A : Type} (o : outcome A) : Prop :=
  forall msg s, o <> Raise (PyException msg) s.

(** A scalar integral id value, whatever its representation. *)
Definition scalar_integral (x : pyval) : bool :=
  match x with
  | PyInt _ | NpInt _ => true
  | _ => false
  end.

(** An id that numpy cannot index in [a]. *)
Definition out_of_bounds (a : list Z) (v : Z) : Prop :=
  v < - Z.of_nat (length a) \/ Z.of_nat (length a) <= v.

(** The vertex an index denotes. *)
Definition norm (n : nat) (v : Z) : Z :=
  match np_index n v with
  | Some k => Z.of_nat k
  | None => v
  end.

(** [v] is a vertex of a graph of [n] vertices. *)
Definition vertex (n : nat) (v : Z) : Prop := 0 <= v < Z.of_nat n.

(** [v] is listed among the neighbours of vertex [u]. *)
Definition edge (adj_list : list (list Z)) (u v : Z) : Prop :=
  vertex (length adj_list) u /\
  exists nbrs, adj_list !! Z.to_nat u = Some nbrs /\ v ∈ nbrs.

(** Reachability along listed edges. *)
Definition reachable (adj_list : list (list Z)) : Z -> Z -> Prop :=
  rtc (edge adj_list).

(** Every listed neighbour is a vertex. *)
Definition adj_in_range (adj_list : list (list Z)) : Prop :=
  forall u v, edge adj_list u v -> vertex (length adj_list) v.

(** Every edge is listed in both directions. *)
Definition adj_symmetric (adj_list : list (list Z)) : Prop :=
  forall u v, edge adj_list u v -> edge adj_list v u.

(** Executable checks of the two conditions. *)
Definition adj_in_rangeb (adj_list : list (list Z)) : bool :=
  forallb (forallb (fun v => (0 <=? v) && (v <? Z.of_nat (length adj_list)))) adj_list.

Definition adj_symmetricb (adj_list : list (list Z)) : bool :=
  forallb (fun u =>
    forallb (fun v =>
      existsb (Z.eqb u) (default [] (adj_list !! Z.to_nat v)))
      (default [] (adj_list !! Z.to_nat u)))
    (arange (length adj_list)).

(** The label of vertex [v] in a label array. *)
Definition label (roots : list Z) (v : Z) : Z := default (-1) (np_get roots v).

(** Number of unvisited entries of a label array. *)
Fixpoint unvisited (roots : list Z) : nat :=
  match roots with
  | [] => O
  | l :: roots' => if l =? -1 then S (unvisited roots') else unvisited roots'
  end.

(** What a visit of [k] with label [now] does to the label array. *)
Definition visit_post (adj_list : list (list Z)) (roots roots' : list Z) (now k : Z) : Prop :=
  length roots' = length roots /\
  (forall v, vertex (length adj_list) v -> label roots v <> -1 -> label roots' v = label roots v) /\
  (forall v, vertex (length adj_list) v -> label roots v = -1 -> label roots' v = -1 \/ label roots' v = now) /\
  label roots' k = now /\
  (forall v, vertex (length adj_list) v -> label roots v = -1 -> label roots' v = now ->
     reachable adj_list k v) /\
  (forall v w, vertex (length adj_list) v -> label roots v = -1 -> label roots' v = now ->
     edge adj_list v w -> label roots' w <> -1).

(** What the loop over the neighbours [xs] does to the label array. *)
Definition loop_post (adj_list : list (list Z)) (roots roots' : list Z) (now : Z)
    (xs : list Z) : Prop :=
  length roots' = length roots /\
  (forall v, vertex (length adj_list) v -> label roots v <> -1 -> label roots' v = label roots v) /\
  (forall v, vertex (length adj_list) v -> label roots v = -1 -> label roots' v = -1 \/ label roots' v = now) /\
  (forall x, x ∈ xs -> label roots' x <> -1) /\
  (forall v, vertex (length adj_list) v -> label roots v = -1 -> label roots' v = now ->
     exists x, x ∈ xs /\ reachable adj_list x v) /\
  (forall v w, vertex (length adj_list) v -> label roots v = -1 -> label roots' v = now ->
     edge adj_list v w -> label roots' w <> -1).

(** The state of the scan of [depth_first_search]: labels used so far are
    0..now; a labelled vertex has all its neighbours labelled like itself;
    vertices with the same label are connected. *)
Definition scan_inv (adj_list : list (list Z)) (roots : list Z) (now : Z) : Prop :=
  length roots = length adj_list /\ -1 <= now /\
  (forall v, vertex (length adj_list) v ->
     label roots v = -1 \/ 0 <= label roots v <= now) /\
  (forall c, 0 <= c <= now -> exists v, vertex (length adj_list) v /\ label roots v = c) /\
  (forall v w, vertex (length adj_list) v -> label roots v <> -1 ->
     edge adj_list v w -> label roots w = label roots v) /\
  (forall u v, vertex (length adj_list) u -> vertex (length adj_list) v ->
     label roots u <> -1 -> label roots u = label roots v -> reachable adj_list u v).

(** The sum of the counts of a size table. *)
Definition table_total (tbl : list (Z * Z)) : Z :=
  foldr (fun c acc => snd c + acc) 0 tbl.

(** Two states with parent arrays of the same length and the same [roots]
    and [size] attributes. *)
Definition same_frame (s s' : state) : Prop :=
  length (id_updated s') = length (id_updated s) /\ roots s' = roots s /\ size s' = size s.

(** Every state an outcome can leave is in the frame of [s]. *)
Definition keeps_frame {A : Type} (s : state) (o : outcome A) : Prop :=
  forall s', final_state o = Some s' -> same_frame s s'.

(** [s] is the vertex at which label [c] was started: it carries [c], every
    vertex that carries [c] is reachable from it, and all vertices before it
    carry smaller labels. *)
Definition first_of_label (adj_list : list (list Z)) (roots : list Z) (c s : Z) : Prop :=
  vertex (length adj_list) s /\ label roots s = c /\
  (forall v, vertex (length adj_list) v -> label roots v = c -> reachable adj_list s v) /\
  (forall u, 0 <= u < s -> label roots u <> -1 /\ label roots u < c).

(** The state of the scan at position [i], for adjacency lists that need not
    list an edge in both directions. *)
Definition directed_scan_inv (adj_list : list (list Z)) (roots : list Z) (now i : Z) : Prop :=
  length roots = length adj_list /\ -1 <= now /\
  (forall v, vertex (length adj_list) v ->
     label roots v = -1 \/ 0 <= label roots v <= now) /\
  (forall c, 0 <= c <= now -> exists s, first_of_label adj_list roots c s) /\
  (forall v w, vertex (length adj_list) v -> label roots v <> -1 ->
     edge adj_list v w -> label roots w <> -1 /\ label roots w <= label roots v) /\
  (forall u, 0 <= u < i -> label roots u <> -1).

(** An id that numpy cannot index in an array of [n] entries. *)
Definition outside (n : nat) (v : Z) : Prop :=
  v < - Z.of_nat n \/ Z.of_nat n <= v.

(** Every listed neighbour is a vertex or cannot be indexed at all. *)
Definition adj_no_negative (adj_list : list (list Z)) : Prop :=
  forall u v, edge adj_list u v -> vertex (length adj_list) v \/ outside (length adj_list) v.

(** Labels written by a visit that came back: the labelled vertices keep
    their labels, and each newly labelled vertex has vertices for
    neighbours. *)
Definition scanned_post (adj_list : list (list Z)) (roots roots' : list Z) : Prop :=
  length roots' = length roots /\
  (forall v, vertex (length adj_list) v -> label roots v <> -1 -> label roots' v = label roots v) /\
  (forall v w, vertex (length adj_list) v -> label roots v = -1 -> label roots' v <> -1 ->
     edge adj_list v w -> vertex (length adj_list) w).

(** The adjacency list with every neighbour id that can be indexed replaced
    by the vertex it is read as. *)
Definition normalised (adj_list : list (list Z)) : list (list Z) :=
  map (map (norm (length adj_list))) adj_list.

(** The number of occurrences of [x] in [l]. *)
Fixpoint occurrences (x : Z) (l : list Z) : Z :=
  match l with
  | [] => 0
  | y :: l' => (if y =? x then 1 else 0) + occurrences x l'
  end.

(** [tbl] is the table of the values of [r]: one column for each value that
    occurs in [r], with the number of its occurrences. *)
Definition table_of (r : list Z) (tbl : list (Z * Z)) : Prop :=
  NoDup (map fst tbl) /\
  forall x c, (x, c) ∈ tbl <-> c = occurrences x r /\ 0 < c.

(** Strictly increasing keys, as [sp.unique] returns them. *)
Fixpoint increasing (l : list Z) : Prop :=
  match l with
  | [] => True
  | x :: l' => Forall (Z.lt x) l' /\ increasing l'
  end.

(** The engine's bookkeeping is exact: the parent array is a valid forest,
    [self.roots] is an array of its own that holds the root of every vertex,
    and [self.size], once it exists, is the table of that array. *)
Definition bookkeeping_exact (s : state) : Prop :=
  valid_forest (id_updated s) /\
  exists r, roots s = Some (RootsOwn r) /\
    Forall2 (is_root_of (id_updated s)) (arange (length (id_updated s))) r /\
    forall tbl, size s = Some tbl -> table_of r tbl.

(** * The docstring examples *)

Example root_doc : _root 20 (init scenario) [2; 10; 7] = Ret [0; 3; 7] (init scenario).
Proof. vm_compute. reflexivity. Qed.

Example halving_doc :
  _root_path_compression 20 (init scenario) [2; 10; 7] "path_halving"
  = Ret [0; 3; 7] (init [0; 0; 0; 3; 3; 3; 9; 7; 9; 3; 9]).
Proof. vm_compute. reflexivity. Qed.

Example full_doc :
  _root_path_compression 20 (init scenario) [2; 10; 7] "full_pc"
  = Ret [0; 3; 7] (init [0; 0; 0; 3; 3; 3; 9; 7; 3; 3; 3]).
Proof. vm_compute. reflexivity. Qed.

Example find_root_doc :
  find_root 20 (init scenario) [2; 10; 7] true "path_halving"
  = Ret tt (init [0; 0; 0; 3; 3; 3; 9; 7; 9; 3; 3]).
Proof. vm_compute. reflexivity. Qed.

Example union_doc :
  build_quick_union 20 (init scenario) [2; 0] [7; 6] true "path_halving"
  = Ret tt (init [3; 0; 0; 3; 3; 3; 4; 7; 9; 4; 8]).
Proof. vm_compute. reflexivity. Qed.

Example dfs_doc :
  depth_first_search 20
    [[1; 2]; [0]; [0]; [4; 5]; [3; 9]; [3]; [9]; []; [9; 10]; [4; 6; 8]; [8]]
  = Labels [0; 0; 0; 1; 1; 1; 1; 2; 1; 1; 1].
Proof. vm_compute. reflexivity. Qed.

(** * Properties *)

(** ** Forests encoded by parent arrays *)

(** *** Indexing lemmas *)

Lemma np_index_in_range (n : nat) (v : Z) :
  0 <= v < Z.of_nat n -> np_index n v = Some (Z.to_nat v).
Proof.
  intros H. unfold np_index.
  destruct (0 <=? v) eqn:E1; [|lia]. destruct (v <? Z.of_nat n) eqn:E2; [|lia]. reflexivity.
Qed.

Lemma np_index_lt (n : nat) (v : Z) (k : nat) :
  np_index n v = Some k -> (k < n)%nat.
Proof.
  unfold np_index.
  destruct ((0 <=? v) && (v <? Z.of_nat n)) eqn:E1.
  - intros [= <-]. apply andb_true_iff in E1. lia.
  - destruct ((- Z.of_nat n <=? v) && (v <? 0)) eqn:E2; [|discriminate].
    intros [= <-]. apply andb_true_iff in E2. lia.
Qed.

Lemma np_get_in_range (a : list Z) (v : Z) :
  in_range a v -> np_get a v = a !! Z.to_nat v.
Proof. intros H. unfold np_get. by rewrite np_index_in_range. Qed.

Lemma np_get_parent (a : list Z) (v : Z) :
  in_range a v -> np_get a v = Some (parent a v).
Proof.
  intros H. unfold parent. rewrite np_get_in_range by done.
  destruct (a !! Z.to_nat v) eqn:E; [done|].
  apply lookup_ge_None in E. unfold in_range in H. lia.
Qed.

Lemma parent_lookup (a : list Z) (v : Z) :
  in_range a v -> a !! Z.to_nat v = Some (parent a v).
Proof. intros H. rewrite <- np_get_in_range by done. by apply np_get_parent. Qed.

Lemma parent_in_range (a : list Z) (v : Z) :
  wf_parents a -> in_range a v -> in_range a (parent a v).
Proof.
  intros Hwf H. pose proof (parent_lookup a v H) as E.
  unfold wf_parents in Hwf. rewrite Forall_forall in Hwf.
  apply Hwf. apply list_elem_of_lookup. eauto.
Qed.

Lemma iter_in_range (a : list Z) (v : Z) (k : nat) :
  wf_parents a -> in_range a v -> in_range a (Nat.iter k (parent a) v).
Proof.
  intros Hwf H. induction k; simpl; [done|]. by apply parent_in_range.
Qed.

Lemma np_take_parents (a : list Z) (vs : list Z) :
  Forall (in_range a) vs -> np_take a vs = Some (map (parent a) vs).
Proof.
  induction 1 as [|v vs Hv _ IH]; simpl; [done|].
  by rewrite np_get_parent, IH.
Qed.

Lemma np_take_None (a : list Z) (vs : list Z) (v : Z) :
  v ∈ vs -> np_index (length a) v = None -> np_take a vs = None.
Proof.
  induction vs as [|x vs IH]; intros Hin Hv; [by apply elem_of_nil in Hin|].
  apply elem_of_cons in Hin as [->|Hin]; simpl.
  - unfold np_get. by rewrite Hv.
  - rewrite (IH Hin Hv). by destruct (np_get a x).
Qed.

Lemma np_any_ne_refl (v : list Z) : np_any_ne v v = false.
Proof. induction v as [|x v IH]; simpl; [done|]. by rewrite Z.eqb_refl, IH. Qed.

Lemma np_any_ne_false (v w : list Z) :
  length v = length w -> np_any_ne v w = false -> v = w.
Proof.
  revert w. induction v as [|x v IH]; intros [|y w] Hl H; simpl in *; try done.
  apply orb_false_iff in H as [H1 H2]. apply negb_false_iff, Z.eqb_eq in H1.
  f_equal; [done|]. apply IH; [lia|done].
Qed.

Lemma map_parent_fixed (a : list Z) (vs : list Z) :
  map (parent a) vs = vs <-> Forall (is_root a) vs.
Proof.
  induction vs as [|v vs IH]; simpl; [by split|].
  split.
  - intros [= H1 H2]. constructor; [done|]. by apply IH.
  - intros H. apply Forall_cons in H as [H1 H2]. f_equal; [done|]. by apply IH.
Qed.

(** *** Iterating parent links *)

Lemma iter_root (a : list Z) (r : Z) (k : nat) :
  is_root a r -> Nat.iter k (parent a) r = r.
Proof. intros H. induction k; simpl; [done|]. by rewrite IHk. Qed.

Lemma iter_add (a : list Z) (v : Z) (j k : nat) :
  Nat.iter (j + k) (parent a) v = Nat.iter j (parent a) (Nat.iter k (parent a) v).
Proof. induction j; simpl; [done|]. by rewrite IHj. Qed.

Lemma iter_succ_r (a : list Z) (v : Z) (k : nat) :
  Nat.iter (S k) (parent a) v = Nat.iter k (parent a) (parent a v).
Proof. replace (S k) with (k + 1)%nat by lia. by rewrite iter_add. Qed.

Lemma reach_iter_ge (a : list Z) (v : Z) (k m : nat) :
  reach a v k -> (k <= m)%nat -> Nat.iter m (parent a) v = Nat.iter k (parent a) v.
Proof.
  intros H Hle. replace m with ((m - k) + k)%nat by lia.
  rewrite iter_add. by apply iter_root.
Qed.

Lemma reach_mono (a : list Z) (v : Z) (k m : nat) :
  reach a v k -> (k <= m)%nat -> reach a v m.
Proof. intros H Hle. unfold reach. by rewrite (reach_iter_ge a v k m). Qed.

Lemma reach_parent (a : list Z) (v : Z) (k : nat) :
  reach a v (S k) -> reach a (parent a v) k.
Proof. unfold reach. by rewrite iter_succ_r. Qed.

Lemma reach_root_of (a : list Z) (v : Z) (k : nat) :
  reach a v k -> is_root_of a v (Nat.iter k (parent a) v).
Proof. intros H. by exists k. Qed.

Lemma is_root_of_unique (a : list Z) (v r r' : Z) :
  is_root_of a v r -> is_root_of a v r' -> r = r'.
Proof.
  intros (k & <- & Hk) (k' & <- & Hk').
  destruct (Nat.le_gt_cases k k').
  - symmetry. by apply reach_iter_ge.
  - apply reach_iter_ge; [done|lia].
Qed.

Lemma is_root_of_iter (a : list Z) (v r : Z) (k : nat) :
  is_root_of a v r -> is_root_of a (Nat.iter k (parent a) v) r.
Proof.
  intros (m & <- & Hm). exists m. split; [|done].
  rewrite <- iter_add. replace (m + k)%nat with (k + m)%nat by lia.
  rewrite iter_add. by apply iter_root.
Qed.

Lemma is_root_of_parent (a : list Z) (v r : Z) :
  is_root_of a v r -> is_root_of a (parent a v) r.
Proof. apply (is_root_of_iter a v r 1). Qed.

Lemma is_root_of_self (a : list Z) (r r' : Z) :
  is_root a r -> is_root_of a r r' -> r' = r.
Proof. intros H (k & <- & _). by apply iter_root. Qed.

Lemma is_root_of_in_range (a : list Z) (v r : Z) :
  wf_parents a -> in_range a v -> is_root_of a v r -> in_range a r.
Proof. intros Hwf Hv (k & <- & _). by apply iter_in_range. Qed.

Lemma forest_root_of (a : list Z) (v : Z) :
  valid_forest a -> in_range a v -> exists r, is_root_of a v r.
Proof. intros [_ H] Hv. destruct (H v Hv) as [k Hk]. eexists. by apply reach_root_of. Qed.

(** A valid forest has no cycle but the self-loops of its roots. *)
Lemma forest_no_cycle (a : list Z) (v : Z) (k : nat) :
  valid_forest a -> in_range a v -> (1 <= k)%nat ->
  Nat.iter k (parent a) v = v -> is_root a v.
Proof.
  intros [_ H] Hv Hk Hcyc. destruct (H v Hv) as [d Hd].
  assert (Hrep : forall j, Nat.iter (j * k) (parent a) v = v).
  { induction j as [|j IH]; simpl; [done|]. by rewrite iter_add, IH. }
  unfold reach in Hd. rewrite <- (reach_iter_ge a v d (d * k)) in Hd; [|done|nia].
  by rewrite Hrep in Hd.
Qed.

(** A common bound on the depth of the vertices of a batch. *)
Lemma forest_depth_bound (a : list Z) (vs : list Z) :
  valid_forest a -> Forall (in_range a) vs ->
  exists d, Forall (fun v => reach a v d) vs.
Proof.
  intros [_ H]. induction 1 as [|v vs Hv _ [d IH]].
  - exists O. constructor.
  - destruct (H v Hv) as [k Hk]. exists (k `max` d)%nat. constructor.
    + apply (reach_mono a v k); [done|lia].
    + eapply Forall_impl; [exact IH|]. intros x Hx. apply (reach_mono a x d); [done|lia].
Qed.

Lemma arange_elem (n : nat) (v : Z) : 0 <= v < Z.of_nat n -> v ∈ arange n.
Proof.
  intros H. unfold arange. apply list_elem_of_In, in_map_iff.
  exists (Z.to_nat v). split; [lia|]. apply in_seq. lia.
Qed.

Lemma valid_forestb_sound (a : list Z) : valid_forestb a = true -> valid_forest a.
Proof.
  unfold valid_forestb. intros H. apply andb_true_iff in H as [H1 H2].
  rewrite forallb_forall in H1, H2. split.
  - apply Forall_forall. intros p Hp. apply list_elem_of_In, H1 in Hp.
    apply andb_true_iff in Hp. unfold in_range. lia.
  - intros v Hv. exists (length a). unfold reach, is_root.
    apply Z.eqb_eq, H2, list_elem_of_In, arange_elem. exact Hv.
Qed.

(** *** Writing entries *)

Lemma in_range_length (a a' : list Z) (v : Z) :
  length a' = length a -> in_range a v -> in_range a' v.
Proof. unfold in_range. by intros ->. Qed.

Lemma parent_insert (a : list Z) (i x y : Z) :
  in_range a i -> in_range a y ->
  parent (<[Z.to_nat i := x]> a) y = if decide (y = i) then x else parent a y.
Proof.
  intros Hi Hy.
  assert (Hy' : in_range (<[Z.to_nat i := x]> a) y)
    by (apply (in_range_length a); [apply length_insert|done]).
  pose proof (parent_lookup _ _ Hy') as E.
  destruct (decide (y = i)) as [->|Hne].
  - rewrite list_lookup_insert_eq in E by (unfold in_range in Hi; lia). congruence.
  - rewrite list_lookup_insert_ne in E by (unfold in_range in Hi, Hy; lia).
    rewrite parent_lookup in E by done. congruence.
Qed.

(** The array after [a[idx] = vals]: an entry is either untouched, or holds
    a value written to it. *)
Lemma np_put_spec (a : list Z) (idx vals : list Z) :
  Forall (in_range a) idx -> length vals = length idx ->
  exists a', np_put a idx vals = Some a' /\ length a' = length a /\
    forall x, in_range a x ->
      ((x ∉ idx) /\ parent a' x = parent a x)
      \/ (exists k, idx !! k = Some x /\ vals !! k = Some (parent a' x)).
Proof.
  revert a vals. induction idx as [|i idx IH]; intros a [|w vals] Hidx Hlen; try done.
  - exists a. repeat split; [done..|]. intros x _. left. split; [apply not_elem_of_nil|done].
  - apply Forall_cons in Hidx as [Hi Hidx]. simpl in Hlen.
    simpl. rewrite np_index_in_range by exact Hi.
    set (a1 := <[Z.to_nat i := w]> a).
    assert (Hl1 : length a1 = length a) by apply length_insert.
    destruct (IH a1 vals) as (a' & Hput & Hl & Hx).
    { eapply Forall_impl; [exact Hidx|]. intros y Hy. by apply (in_range_length a). }
    { lia. }
    exists a'. split; [done|]. split; [congruence|].
    intros x Hxr. destruct (Hx x) as [[Hni Hp]|(k & Hk1 & Hk2)].
    { by apply (in_range_length a). }
    + unfold a1 in Hp. rewrite parent_insert in Hp by done.
      destruct (decide (x = i)) as [->|Hne].
      * right. exists O. simpl. by rewrite Hp.
      * left. split; [|done]. rewrite elem_of_cons. tauto.
    + right. by exists (S k).
Qed.

(** Writing back what is already there changes nothing. *)
Lemma np_put_same (a : list Z) (idx : list Z) :
  Forall (in_range a) idx -> np_put a idx (map (parent a) idx) = Some a.
Proof.
  induction 1 as [|i idx Hi _ IH]; simpl; [done|].
  rewrite np_index_in_range by exact Hi.
  rewrite list_insert_id; [done|]. by apply parent_lookup.
Qed.

(** *** Replacing parents by ancestors *)

Lemma compresses_refl (a : list Z) : compresses a a.
Proof. split; [done|]. intros v _. by exists 1%nat. Qed.

Lemma compresses_iter (a a' : list Z) (v : Z) (k : nat) :
  wf_parents a -> compresses a a' -> in_range a v ->
  exists m, (k <= m)%nat /\ Nat.iter k (parent a') v = Nat.iter m (parent a) v.
Proof.
  intros Hwf [_ Hc] Hv. induction k as [|k (m & Hm & IH)]; simpl.
  - by exists O.
  - rewrite IH. destruct (Hc (Nat.iter m (parent a) v)) as (j & Hj & E).
    { by apply iter_in_range. }
    exists (j + m)%nat. split; [lia|]. by rewrite E, iter_add.
Qed.

Lemma compresses_wf (a a' : list Z) :
  wf_parents a -> compresses a a' -> wf_parents a'.
Proof.
  intros Hwf Hc. pose proof Hc as [Hl Hc']. apply Forall_forall. intros p Hp.
  apply list_elem_of_lookup in Hp as [i Hi].
  pose proof (lookup_lt_Some _ _ _ Hi) as Hlt.
  assert (Hr : in_range a (Z.of_nat i)) by (unfold in_range; lia).
  assert (Hr' : in_range a' (Z.of_nat i)) by (by apply (in_range_length a)).
  pose proof (parent_lookup a' _ Hr') as E. rewrite Nat2Z.id in E.
  assert (p = parent a' (Z.of_nat i)) as -> by congruence.
  destruct (Hc' _ Hr) as (m & _ & ->).
  apply (in_range_length a); [done|]. by apply iter_in_range.
Qed.

Lemma compresses_root (a a' : list Z) (r : Z) :
  compresses a a' -> in_range a r -> is_root a r -> is_root a' r.
Proof.
  intros [_ Hc] Hr H. destruct (Hc r Hr) as (m & _ & E).
  unfold is_root. rewrite E. by apply iter_root.
Qed.

Lemma compresses_reach (a a' : list Z) (v : Z) (k : nat) :
  wf_parents a -> compresses a a' -> in_range a v -> reach a v k -> reach a' v k.
Proof.
  intros Hwf Hc Hv H.
  destruct (compresses_iter a a' v k Hwf Hc Hv) as (m & Hm & E).
  unfold reach. rewrite E, (reach_iter_ge a v k m) by done.
  apply (compresses_root a); [done| by apply iter_in_range |done].
Qed.

Lemma compresses_root_of (a a' : list Z) (v r : Z) :
  wf_parents a -> compresses a a' -> in_range a v ->
  is_root_of a v r -> is_root_of a' v r.
Proof.
  intros Hwf Hc Hv (k & <- & Hk).
  destruct (compresses_iter a a' v k Hwf Hc Hv) as (m & Hm & E).
  exists k. rewrite E, (reach_iter_ge a v k m) by done. split; [done|].
  apply (compresses_root a); [done| by apply iter_in_range |done].
Qed.

Lemma compresses_forest (a a' : list Z) :
  valid_forest a -> compresses a a' -> valid_forest a'.
Proof.
  intros [Hwf Hf] Hc. split; [by apply (compresses_wf a)|].
  intros v Hv. apply (in_range_length a' a) in Hv; [|symmetry; apply Hc].
  destruct (Hf v Hv) as [k Hk]. exists k. by apply (compresses_reach a).
Qed.

Lemma compresses_root_of_inv (a a' : list Z) (v r : Z) :
  valid_forest a -> compresses a a' -> in_range a v ->
  is_root_of a' v r -> is_root_of a v r.
Proof.
  intros Hf Hc Hv H.
  destruct (forest_root_of a v Hf Hv) as [r0 H0].
  pose proof (compresses_root_of a a' v r0 (proj1 Hf) Hc Hv H0) as H1.
  by rewrite (is_root_of_unique a' v r r0 H H1).
Qed.

Lemma compresses_trans (a a' a'' : list Z) :
  wf_parents a -> compresses a a' -> compresses a' a'' -> compresses a a''.
Proof.
  intros Hwf Hc [Hl2 Hc2]. pose proof Hc as [Hl1 _]. split; [congruence|].
  intros v Hv. destruct (Hc2 v) as (m2 & Hm2 & E2); [by apply (in_range_length a)|].
  destruct (compresses_iter a a' v m2 Hwf Hc Hv) as (m & Hm & E).
  exists m. split; [lia|]. by rewrite E2.
Qed.

(** Writing, in the entry of each listed vertex, a proper ancestor of it. *)
Lemma np_put_compresses (a : list Z) (idx vals : list Z) :
  Forall (in_range a) idx ->
  Forall2 (fun x y => exists m, (1 <= m)%nat /\ y = Nat.iter m (parent a) x) idx vals ->
  exists a', np_put a idx vals = Some a' /\ compresses a a' /\
    forall k x, idx !! k = Some x -> exists j, idx !! j = Some x /\ vals !! j = Some (parent a' x).
Proof.
  intros Hidx H2.
  destruct (np_put_spec a idx vals Hidx) as (a' & Hput & Hl & Hx).
  { symmetry. by eapply Forall2_length. }
  exists a'. split; [done|]. split; [split; [done|]|].
  - intros v Hv. destruct (Hx v Hv) as [[_ ->]|(k & Hk1 & Hk2)]; [by exists 1%nat|].
    destruct (Forall2_lookup_lr _ _ _ _ _ _ H2 Hk1 Hk2) as (m & Hm & E). by exists m.
  - intros k x Hk.
    assert (Hxr : in_range a x).
    { rewrite Forall_forall in Hidx. apply Hidx, list_elem_of_lookup. eauto. }
    destruct (Hx x Hxr) as [[Hni _]|(j & Hj1 & Hj2)]; [|by exists j].
    exfalso. apply Hni, list_elem_of_lookup. eauto.
Qed.

(** The root of a vertex is a proper ancestor of it. *)
Lemma root_of_ancestor (a : list Z) (v r : Z) :
  is_root_of a v r -> exists m, (1 <= m)%nat /\ r = Nat.iter m (parent a) v.
Proof.
  intros (k & <- & Hk). exists (S k). split; [lia|]. simpl. by rewrite Hk.
Qed.

(** ** The root finders *)

Lemma root_unfold (fuel : nat) (s : state) (v_i : list Z) :
  _root fuel s v_i =
  bind (getitem s v_i) (fun p s =>
    if np_any_ne v_i p then
      match fuel with O => OutOfFuel | S fuel' => _root fuel' s p end
    else Ret v_i s).
Proof. by destruct fuel. Qed.

Lemma halving_unfold (fuel : nat) (s : state) (v_j : list Z) :
  halving_loop fuel s v_j =
  bind (getitem s v_j) (fun p s =>
    if np_any_ne v_j p then
      match fuel with
      | O => OutOfFuel
      | S fuel' =>
          bind (getitem s p) (fun g s =>
          bind (setitem s v_j g) (fun _ s =>
          bind (getitem s v_j) (fun v_j' s => halving_loop fuel' s v_j')))
      end
    else Ret v_j s).
Proof. by destruct fuel. Qed.

Lemma full_pc_unfold (fuel : nat) (s : state) (v_i v_j : list Z) :
  full_pc_loop fuel s v_i v_j =
  if np_any_ne v_i v_j then
    match fuel with
    | O => OutOfFuel
    | S fuel' =>
        bind (getitem s v_i) (fun v_j_new s =>
        bind (setitem s v_i v_j) (fun _ s => full_pc_loop fuel' s v_j_new v_j))
    end
  else Ret tt s.
Proof. by destruct fuel. Qed.

Lemma getitem_in_range (s : state) (vs : list Z) :
  Forall (in_range (id_updated s)) vs ->
  getitem s vs = Ret (map (parent (id_updated s)) vs) s.
Proof. intros H. unfold getitem. by rewrite np_take_parents. Qed.

Lemma np_stretch_id (n : nat) (v : list Z) : length v = n -> np_stretch n v = v.
Proof. destruct v as [|x [|y v]]; simpl; try done. by intros <-. Qed.

Lemma setitem_same_shape (s : state) (idx vals : list Z) :
  length vals = length idx ->
  setitem s idx vals =
  match np_put (id_updated s) idx vals with
  | Some a => Ret tt (set_id_updated s a)
  | None => Raise IndexError s
  end.
Proof.
  intros H. unfold setitem. rewrite H, Nat.eqb_refl. simpl.
  by rewrite np_stretch_id.
Qed.

Lemma getitem_set (s : state) (a : list Z) (vs : list Z) :
  Forall (in_range a) vs ->
  getitem (set_id_updated s a) vs = Ret (map (parent a) vs) (set_id_updated s a).
Proof. intros H. by rewrite getitem_in_range. Qed.

Lemma setitem_set (s : state) (a : list Z) (idx vals : list Z) :
  length vals = length idx ->
  setitem (set_id_updated s a) idx vals =
  match np_put a idx vals with
  | Some a' => Ret tt (set_id_updated s a')
  | None => Raise IndexError (set_id_updated s a)
  end.
Proof. intros H. by rewrite setitem_same_shape. Qed.

Lemma set_id_updated_twice (s : state) (a a' : list Z) :
  set_id_updated (set_id_updated s a) a' = set_id_updated s a'.
Proof. done. Qed.

Lemma set_id_updated_same (s : state) : set_id_updated s (id_updated s) = s.
Proof. by destruct s. Qed.

Lemma Forall_map_in_range (a : list Z) (vs : list Z) :
  wf_parents a -> Forall (in_range a) vs -> Forall (in_range a) (map (parent a) vs).
Proof.
  intros Hwf H. apply Forall_map. eapply Forall_impl; [exact H|].
  intros v Hv. by apply parent_in_range.
Qed.

Lemma Forall_reach_parent (a : list Z) (vs : list Z) (d : nat) :
  Forall (fun v => reach a v (S d)) vs -> Forall (fun v => reach a v d) (map (parent a) vs).
Proof.
  intros H. apply Forall_map. eapply Forall_impl; [exact H|].
  intros v Hv. by apply reach_parent.
Qed.

Lemma Forall_reach_roots (a : list Z) (vs : list Z) (d : nat) :
  Forall (is_root a) vs -> map (Nat.iter d (parent a)) vs = vs.
Proof.
  induction 1 as [|v vs Hv _ IH]; simpl; [done|]. by rewrite iter_root, IH.
Qed.

(** The plain lookup returns, for a batch whose vertices are within [d]
    links of their roots, the vertices [d] links up, and keeps the state. *)
Lemma root_spec (s : state) (d : nat) :
  forall (vs : list Z) (fuel : nat),
  wf_parents (id_updated s) ->
  Forall (in_range (id_updated s)) vs ->
  Forall (fun v => reach (id_updated s) v d) vs ->
  (d <= fuel)%nat ->
  _root fuel s vs = Ret (map (Nat.iter d (parent (id_updated s))) vs) s.
Proof.
  set (a := id_updated s).
  induction d as [|d IH]; intros vs fuel Hwf Hr Hd Hf; rewrite root_unfold.
  - rewrite getitem_in_range by done. simpl.
    assert (E : map (parent a) vs = vs) by (by apply map_parent_fixed).
    fold a. rewrite E, np_any_ne_refl. by rewrite map_id.
  - rewrite getitem_in_range by done. simpl. fold a.
    destruct (np_any_ne vs (map (parent a) vs)) eqn:Ene.
    + destruct fuel as [|fuel]; [lia|].
      rewrite IH; [|done|by apply Forall_map_in_range|by apply Forall_reach_parent|lia].
      f_equal. rewrite map_map. apply map_ext. intros v. by rewrite iter_succ_r.
    + apply np_any_ne_false in Ene; [|by rewrite length_map].
      symmetry in Ene. apply map_parent_fixed in Ene.
      by rewrite Forall_reach_roots.
Qed.

Lemma Forall2_root_of_iter (a : list Z) (vs : list Z) (d : nat) :
  Forall (fun v => reach a v d) vs ->
  Forall2 (is_root_of a) vs (map (Nat.iter d (parent a)) vs).
Proof.
  induction 1 as [|v vs Hv _ IH]; simpl; constructor; [|done]. by apply reach_root_of.
Qed.

Lemma Forall2_root_of_unique (a : list Z) (vs rs rs' : list Z) :
  Forall2 (is_root_of a) vs rs -> Forall2 (is_root_of a) vs rs' -> rs = rs'.
Proof.
  intros H. revert rs'. induction H as [|v r vs rs Hr _ IH]; intros rs' H'.
  - by apply Forall2_nil_inv_l in H'.
  - apply Forall2_cons_inv_l in H' as (r' & rs'' & Hr' & H'' & ->).
    f_equal; [by apply (is_root_of_unique a v)|by apply IH].
Qed.

(** Path halving returns the same roots and leaves a compressed array. *)
Lemma halving_spec (s : state) (d : nat) :
  forall (a : list Z) (vs : list Z),
  valid_forest a ->
  Forall (in_range a) vs ->
  Forall (fun v => reach a v d) vs ->
  exists a', compresses a a' /\
    forall fuel, (d <= fuel)%nat ->
      halving_loop fuel (set_id_updated s a) vs
      = Ret (map (Nat.iter d (parent a)) vs) (set_id_updated s a').
Proof.
  induction d as [|d IH]; intros a vs Hf Hr Hd; pose proof Hf as [Hwf _].
  - exists a. split; [apply compresses_refl|]. intros fuel _.
    rewrite halving_unfold, getitem_set by done. simpl.
    assert (E : map (parent a) vs = vs) by (by apply map_parent_fixed).
    by rewrite E, np_any_ne_refl, map_id.
  - destruct (np_any_ne vs (map (parent a) vs)) eqn:Ene.
    + destruct (np_put_compresses a vs (map (parent a) (map (parent a) vs)))
        as (a1 & Hput & Hc & Hw); [done| |].
      { rewrite map_map. apply Forall2_fmap_r, Forall_Forall2_diag.
        apply Forall_forall. intros x _. exists 2%nat. split; [lia|done]. }
      pose proof (compresses_forest a a1 Hf Hc) as Hf1.
      assert (Hr1 : Forall (in_range a1) vs).
      { eapply Forall_impl; [exact Hr|]. intros x Hx.
        apply (in_range_length a); [apply Hc|done]. }
      assert (Ev : map (parent a1) vs = map (parent a) (map (parent a) vs)).
      { rewrite map_map. apply map_ext_in. intros x Hx. apply list_elem_of_In in Hx.
        apply list_elem_of_lookup in Hx as [k Hk].
        destruct (Hw k x Hk) as (j & Hj1 & Hj2).
        rewrite map_map in Hj2. change (map ?f vs) with (f <$> vs) in Hj2.
        rewrite list_lookup_fmap, Hj1 in Hj2. simpl in Hj2. congruence. }
      assert (Hr2 : Forall (in_range a) (map (parent a) (map (parent a) vs)))
        by (apply Forall_map_in_range; [done|]; by apply Forall_map_in_range).
      destruct (IH a1 (map (parent a) (map (parent a) vs))) as (a' & Hc' & Hrun);
        [done| | |].
      { eapply Forall_impl; [exact Hr2|]. intros x Hx.
        apply (in_range_length a); [apply Hc|done]. }
      { rewrite Forall_forall in Hr2. apply Forall_forall. intros x Hx.
        apply (compresses_reach a); [done|done|by apply Hr2|].
        apply list_elem_of_In in Hx. rewrite map_map in Hx. apply in_map_iff in Hx as (y & <- & Hy).
        apply list_elem_of_In in Hy. rewrite Forall_forall in Hd. specialize (Hd y Hy).
        apply reach_parent in Hd. apply (reach_mono a _ d (S d)) in Hd; [|lia].
        by apply reach_parent. }
      exists a'. split; [by apply (compresses_trans a a1)|].
      intros fuel Hfuel. destruct fuel as [|fuel]; [lia|].
      rewrite halving_unfold, getitem_set by done. simpl. rewrite Ene.
      rewrite getitem_set by (by apply Forall_map_in_range). simpl.
      rewrite setitem_set by (by rewrite !length_map).
      rewrite Hput. simpl.
      rewrite getitem_set by done. simpl. rewrite Ev, Hrun by lia.
      f_equal. rewrite !map_map. apply map_ext_in. intros x Hx. apply list_elem_of_In in Hx.
      rewrite Forall_forall in Hd, Hr. pose proof (Hd x Hx) as Hdx. pose proof (Hr x Hx) as Hrx.
      assert (Hpp : in_range a (parent a (parent a x)))
        by (apply parent_in_range; [done|]; by apply parent_in_range).
      apply (is_root_of_unique a (parent a (parent a x))).
      * apply (compresses_root_of_inv a a1); [done..|].
        apply reach_root_of. apply (compresses_reach a); [done..|].
        apply reach_parent in Hdx. apply (reach_mono a _ d (S d)) in Hdx; [|lia].
        by apply reach_parent.
      * apply (is_root_of_iter a x _ 2). by apply reach_root_of.
    + exists a. split; [apply compresses_refl|]. intros fuel _.
      rewrite halving_unfold, getitem_set by done. simpl. rewrite Ene.
      apply np_any_ne_false in Ene; [|by rewrite length_map].
      symmetry in Ene. apply map_parent_fixed in Ene.
      by rewrite (Forall_reach_roots a vs (S d)).
Qed.

(** The second loop of full compression: every vertex of the batch ends up
    pointing at its root, and the array is a compressed one. *)
Lemma full_pc_spec (s : state) (d : nat) :
  forall (a : list Z) (vs rs : list Z),
  valid_forest a ->
  Forall (in_range a) vs ->
  Forall (fun v => reach a v d) vs ->
  Forall2 (is_root_of a) vs rs ->
  exists a', compresses a a' /\
    (forall x r, x ∈ vs -> is_root_of a x r -> parent a' x = r) /\
    forall fuel, (d <= fuel)%nat ->
      full_pc_loop fuel (set_id_updated s a) vs rs = Ret tt (set_id_updated s a').
Proof.
  induction d as [|d IH]; intros a vs rs Hf Hr Hd H2; pose proof Hf as [Hwf _].
  - assert (rs = vs) as ->.
    { apply (Forall2_root_of_unique a vs); [done|].
      apply Forall_Forall2_diag. eapply Forall_impl; [exact Hd|].
      intros x Hx. by exists O. }
    exists a. split; [apply compresses_refl|]. split.
    + intros x r Hx Hxr. rewrite Forall_forall in Hd. specialize (Hd x Hx).
      rewrite (is_root_of_self a x r); done.
    + intros fuel _. by rewrite full_pc_unfold, np_any_ne_refl.
  - destruct (np_any_ne vs rs) eqn:Ene.
    + destruct (np_put_compresses a vs rs) as (a1 & Hput & Hc & Hw); [done| |].
      { eapply Forall2_impl; [exact H2|]. intros x r Hxr. by apply root_of_ancestor. }
      pose proof (compresses_forest a a1 Hf Hc) as Hf1.
      destruct (IH a1 (map (parent a) vs) rs) as (a' & Hc' & Hpost & Hrun); [done| | | |].
      { eapply Forall_impl; [by apply Forall_map_in_range|]. intros x Hx.
        apply (in_range_length a); [apply Hc|done]. }
      { pose proof (Forall_map_in_range a vs Hwf Hr) as Hr2.
        pose proof (Forall_reach_parent a vs d Hd) as Hd2.
        rewrite Forall_forall in Hr2, Hd2. apply Forall_forall. intros x Hx.
        apply (compresses_reach a); [done|done|by apply Hr2|by apply Hd2]. }
      { apply Forall2_fmap_l. rewrite Forall_forall in Hr.
        apply Forall2_same_length_lookup. split; [by eapply Forall2_length|].
        intros k x r Hk1 Hk2.
        assert (Hx : x ∈ vs) by (apply list_elem_of_lookup; eauto).
        apply (compresses_root_of a); [done|done|by apply parent_in_range, Hr|].
        apply is_root_of_parent. exact (Forall2_lookup_lr _ _ _ _ _ _ H2 Hk1 Hk2). }
      exists a'. split; [by apply (compresses_trans a a1)|]. split.
      * intros x r Hx Hxr. apply list_elem_of_lookup in Hx as [k Hk].
        destruct (Hw k x Hk) as (j & Hj1 & Hj2).
        pose proof (Forall2_lookup_lr _ _ _ _ _ _ H2 Hj1 Hj2) as Hxr'.
        pose proof (is_root_of_unique a x _ _ Hxr Hxr') as Er.
        assert (Hxin : in_range a x).
        { rewrite Forall_forall in Hr. apply Hr, list_elem_of_lookup. eauto. }
        assert (Hrr : is_root a1 r).
        { destruct Hxr as (m & <- & Hm). apply (compresses_root a); [done| |done].
          by apply iter_in_range. }
        destruct Hc' as [_ Hc']. destruct (Hc' x) as (m & Hm & E).
        { apply (in_range_length a); [apply Hc|done]. }
        rewrite E. destruct m as [|m]; [lia|]. rewrite iter_succ_r, <- Er.
        by apply iter_root.
      * intros fuel Hfuel. destruct fuel as [|fuel]; [lia|].
        rewrite full_pc_unfold, Ene, getitem_set by done. simpl.
        rewrite setitem_set by (symmetry; by eapply Forall2_length).
        rewrite Hput. simpl. apply Hrun. lia.
    + apply np_any_ne_false in Ene; [|by eapply Forall2_length]. subst rs.
      exists a. split; [apply compresses_refl|]. split.
      * intros x r Hx Hxr. apply list_elem_of_lookup in Hx as [k Hk].
        pose proof (Forall2_lookup_lr _ _ _ _ _ _ H2 Hk Hk) as (m & Em & Hroot).
        rewrite (is_root_of_self a x r); done.
      * intros fuel _. by rewrite full_pc_unfold, np_any_ne_refl.
Qed.

(** Both lookups on a valid forest: with enough fuel the plain lookup and the
    compressing one return the roots of the batch; the compressing one leaves
    a compressed array, in which full compression has made every vertex of
    the batch a child of its root. *)
Lemma lookup_spec (s : state) (vs : list Z) (pc_type : string) :
  valid_forest (id_updated s) ->
  Forall (in_range (id_updated s)) vs ->
  compression_mode pc_type ->
  exists (n : nat) (rs a' : list Z),
    Forall2 (is_root_of (id_updated s)) vs rs /\
    compresses (id_updated s) a' /\
    (pc_type = "full_pc"%string ->
       forall x r, x ∈ vs -> is_root_of (id_updated s) x r -> parent a' x = r) /\
    forall fuel, (n <= fuel)%nat ->
      _root fuel s vs = Ret rs s /\
      _root_path_compression fuel s vs pc_type = Ret rs (set_id_updated s a').
Proof.
  intros Hf Hr Hmode. pose proof Hf as [Hwf _].
  destruct (forest_depth_bound _ vs Hf Hr) as [d Hd].
  pose proof (Forall2_root_of_iter _ vs d Hd) as H2.
  set (a := id_updated s) in *.
  set (rs := map (Nat.iter d (parent a)) vs) in *.
  destruct Hmode as [-> | ->].
  - destruct (halving_spec s d a vs Hf Hr Hd) as (a' & Hc & Hrun).
    exists d, rs, a'. split; [done|]. split; [done|]. split; [discriminate|].
    intros fuel Hfuel. split; [by apply root_spec|].
    unfold _root_path_compression. simpl.
    rewrite <- (set_id_updated_same s) at 1. by apply Hrun.
  - destruct (full_pc_spec s d a vs rs Hf Hr Hd H2) as (a' & Hc & Hpost & Hrun).
    exists d, rs, a'. split; [done|]. split; [done|]. split; [done|].
    intros fuel Hfuel. split; [by apply root_spec|].
    unfold _root_path_compression. simpl.
    rewrite (root_spec s d vs fuel) by done. simpl.
    rewrite <- (set_id_updated_same s) at 1. fold a. fold rs. by rewrite Hrun.
Qed.

Lemma Forall_in_range_length (a a' : list Z) (vs : list Z) :
  length a' = length a -> Forall (in_range a) vs -> Forall (in_range a') vs.
Proof.
  intros Hl H. eapply Forall_impl; [exact H|]. intros x Hx. by apply (in_range_length a).
Qed.

Lemma Forall2_root_of_compresses (a a' : list Z) (vs rs : list Z) :
  valid_forest a -> compresses a a' -> Forall (in_range a) vs ->
  Forall2 (is_root_of a') vs rs -> Forall2 (is_root_of a) vs rs.
Proof.
  intros Hf Hc Hr H2. rewrite Forall_forall in Hr.
  apply Forall2_same_length_lookup. split; [by eapply Forall2_length|].
  intros k x r Hk1 Hk2. apply (compresses_root_of_inv a a'); [done|done| |].
  - apply Hr, list_elem_of_lookup. eauto.
  - exact (Forall2_lookup_lr _ _ _ _ _ _ H2 Hk1 Hk2).
Qed.

(** The lookup that opens a union. *)
Lemma both_roots_spec (s : state) (minor main : list Z) (pc : bool) (pc_type : string) :
  valid_forest (id_updated s) ->
  Forall (in_range (id_updated s)) minor ->
  Forall (in_range (id_updated s)) main ->
  compression_mode pc_type ->
  exists (n : nat) (ri rj a' : list Z),
    Forall2 (is_root_of (id_updated s)) minor ri /\
    Forall2 (is_root_of (id_updated s)) main rj /\
    compresses (id_updated s) a' /\
    (pc = false -> a' = id_updated s) /\
    forall fuel, (n <= fuel)%nat ->
      both_roots fuel s minor main pc pc_type = Ret (ri, rj) (set_id_updated s a').
Proof.
  intros Hf Hmi Hma Hmode. pose proof Hf as [Hwf _].
  destruct (lookup_spec s minor pc_type Hf Hmi Hmode) as (n1 & ri & a1 & Hri & Hc1 & _ & Hrun1).
  destruct pc.
  - pose proof (compresses_forest _ _ Hf Hc1) as Hf1.
    destruct (lookup_spec (set_id_updated s a1) main pc_type) as (n2 & rj & a2 & Hrj & Hc2 & _ & Hrun2);
      [done| |done|].
    { apply (Forall_in_range_length (id_updated s)); [apply Hc1|done]. }
    simpl in Hrj, Hc2.
    exists (n1 `max` n2)%nat, ri, rj, a2. split; [done|]. split.
    { by apply (Forall2_root_of_compresses _ a1). }
    split; [by apply (compresses_trans _ a1)|]. split; [done|].
    intros fuel Hfuel. unfold both_roots.
    destruct (Hrun1 fuel) as [_ ->]; [lia|]. simpl.
    destruct (Hrun2 fuel) as [_ ->]; [lia|]. done.
  - destruct (lookup_spec s main pc_type Hf Hma Hmode) as (n2 & rj & a2 & Hrj & _ & _ & Hrun2).
    exists (n1 `max` n2)%nat, ri, rj, (id_updated s). split; [done|]. split; [done|].
    split; [apply compresses_refl|]. split; [done|].
    intros fuel Hfuel. unfold both_roots.
    destruct (Hrun1 fuel) as [-> _]; [lia|]. simpl.
    destruct (Hrun2 fuel) as [-> _]; [lia|]. simpl.
    by rewrite set_id_updated_same.
Qed.

(** *** Attaching roots under other roots *)

Lemma links_root (a a' : list Z) (is_ : list Z) (r : Z) :
  links a a' is_ -> in_range a r -> is_root a r -> r ∉ is_ -> is_root a' r.
Proof. intros (_ & Hout & _) Hr H Hn. unfold is_root. by rewrite Hout. Qed.

Lemma links_root_of (a a' : list Z) (is_ : list Z) (v r : Z) :
  wf_parents a -> links a a' is_ -> in_range a v -> is_root_of a v r ->
  is_root_of a' v (if decide (r ∈ is_) then parent a' r else r).
Proof.
  intros Hwf Hl Hv (k & <- & Hk). revert v Hv Hk.
  induction k as [|k IH]; intros v Hv Hk; simpl in *.
  - pose proof Hl as (_ & Hout & Hin). destruct (decide (v ∈ is_)) as [Hi|Hi].
    + destruct (Hin v Hv Hi) as (_ & Hp1 & Hp2 & Hp3).
      exists 1%nat. split; [done|]. by apply (links_root a a' is_).
    + exists O. split; [done|]. by apply (links_root a a' is_).
  - destruct (decide (parent a v = v)) as [Hroot|Hroot].
    + change (parent a (Nat.iter k (parent a) v)) with (Nat.iter (S k) (parent a) v).
      rewrite (iter_root a v (S k) Hroot).
      specialize (IH v Hv). rewrite (iter_root a v k Hroot) in IH. by apply IH.
    + assert (Hni : v ∉ is_).
      { intros Hi. destruct Hl as (_ & _ & Hin). by destruct (Hin v Hv Hi). }
      change (parent a (Nat.iter k (parent a) v)) with (Nat.iter (S k) (parent a) v).
      rewrite iter_succ_r.
      assert (Hk' : is_root a (Nat.iter k (parent a) (parent a v))).
      { rewrite <- iter_succ_r. exact Hk. }
      destruct (IH (parent a v) (parent_in_range a v Hwf Hv) Hk') as (m & Em & Hm).
      exists (S m). rewrite iter_succ_r.
      destruct Hl as (_ & Hout & _). rewrite (Hout v Hv Hni). by split.
Qed.

Lemma links_forest (a a' : list Z) (is_ : list Z) :
  valid_forest a -> links a a' is_ -> valid_forest a'.
Proof.
  intros Hf Hl. pose proof Hf as [Hwf Hreach]. pose proof Hl as (Hlen & Hout & Hin). split.
  - apply Forall_forall. intros p Hp.
    apply list_elem_of_lookup in Hp as [i Hi].
    pose proof (lookup_lt_Some _ _ _ Hi) as Hlt.
    assert (Hr : in_range a (Z.of_nat i)) by (unfold in_range; lia).
    assert (Hr' : in_range a' (Z.of_nat i)) by (by apply (in_range_length a)).
    pose proof (parent_lookup a' _ Hr') as E. rewrite Nat2Z.id in E.
    assert (p = parent a' (Z.of_nat i)) as -> by congruence.
    apply (in_range_length a); [done|].
    destruct (decide (Z.of_nat i ∈ is_)) as [Hi'|Hi'].
    + by destruct (Hin _ Hr Hi') as (_ & ? & _).
    + rewrite Hout by done. by apply parent_in_range.
  - intros v Hv. apply (in_range_length a' a) in Hv; [|done].
    destruct (forest_root_of a v Hf Hv) as [r Hr].
    destruct (links_root_of a a' is_ v r Hwf Hl Hv Hr) as (k & E & Hk).
    exists k. unfold reach. by rewrite E.
Qed.

Lemma np_put_frame (a : list Z) (idx vals : list Z) (a' : list Z) :
  Forall (in_range a) idx -> length vals = length idx ->
  np_put a idx vals = Some a' ->
  forall x, in_range a x -> x ∉ idx -> parent a' x = parent a x.
Proof.
  intros Hidx Hlen Hput x Hx Hni.
  destruct (np_put_spec a idx vals Hidx Hlen) as (a'' & Hput' & _ & Hspec).
  assert (a'' = a') as -> by congruence.
  destruct (Hspec x Hx) as [[_ E]|(k & Hk & _)]; [done|].
  exfalso. apply Hni, list_elem_of_lookup. eauto.
Qed.

Lemma np_all_eq_same_length (i j : list Z) :
  length i = length j -> np_all_eq i j = negb (np_any_ne i j).
Proof.
  intros H. unfold np_all_eq, np_broadcastable.
  rewrite H, Nat.eqb_refl, Nat.max_id. simpl.
  rewrite (np_stretch_id (length j) i), (np_stretch_id (length j) j); done.
Qed.

Lemma links_nil (a : list Z) : links a a [].
Proof.
  split; [done|]. split; [done|]. intros v _ Hv. by apply elem_of_nil in Hv.
Qed.

Lemma Forall2_root_of_in_range (a : list Z) (vs rs : list Z) :
  wf_parents a -> Forall (in_range a) vs -> Forall2 (is_root_of a) vs rs ->
  Forall (in_range a) rs.
Proof.
  intros Hwf Hr H2. induction H2 as [|v r vs rs Hvr _ IH]; [constructor|].
  apply Forall_cons in Hr as [Hv Hr]. constructor; [|by apply IH].
  by apply (is_root_of_in_range a v).
Qed.

Lemma is_root_of_is_root (a : list Z) (v r : Z) : is_root_of a v r -> is_root a r.
Proof. by intros (k & _ & H). Qed.

Lemma is_root_of_refl (a : list Z) (r : Z) : is_root a r -> is_root_of a r r.
Proof. intros H. by exists O. Qed.

(** [find_root]: every tested vertex becomes a child of its root; the array
    is a compressed one, and without compression nothing else is written. *)
Lemma find_root_spec (s : state) (vs : list Z) (pc : bool) (pc_type : string) :
  valid_forest (id_updated s) ->
  Forall (in_range (id_updated s)) vs ->
  compression_mode pc_type ->
  exists (n : nat) (a' : list Z),
    compresses (id_updated s) a' /\
    (forall x r, x ∈ vs -> is_root_of (id_updated s) x r -> parent a' x = r) /\
    (pc = false -> forall x, in_range (id_updated s) x -> x ∉ vs ->
       parent a' x = parent (id_updated s) x) /\
    forall fuel, (n <= fuel)%nat ->
      find_root fuel s vs pc pc_type = Ret tt (set_id_updated s a').
Proof.
  intros Hf Hr Hmode. pose proof Hf as [Hwf _]. set (a := id_updated s) in *.
  destruct (lookup_spec s vs pc_type Hf Hr Hmode) as (n & rs & a1 & H2 & Hc1 & _ & Hrun).
  fold a in H2, Hc1.
  assert (Hstep : forall a0, compresses a a0 ->
            exists a', np_put a0 vs rs = Some a' /\ compresses a a' /\
              (forall x r, x ∈ vs -> is_root_of a x r -> parent a' x = r) /\
              (forall x, in_range a x -> x ∉ vs -> parent a' x = parent a0 x)).
  { intros a0 Hc0. pose proof (compresses_forest a a0 Hf Hc0) as Hf0.
    assert (Hr0 : Forall (in_range a0) vs)
      by (apply (Forall_in_range_length a); [apply Hc0|done]).
    destruct (np_put_compresses a0 vs rs) as (a' & Hput & Hc & Hw); [done| |].
    { rewrite Forall_forall in Hr.
      apply Forall2_same_length_lookup. split; [by eapply Forall2_length|].
      intros k x r Hk1 Hk2. apply root_of_ancestor.
      apply (compresses_root_of a a0); [done|done| |].
      - apply Hr, list_elem_of_lookup. eauto.
      - exact (Forall2_lookup_lr _ _ _ _ _ _ H2 Hk1 Hk2). }
    exists a'. split; [done|]. split; [by apply (compresses_trans a a0)|]. split.
    - intros x r Hx Hxr. apply list_elem_of_lookup in Hx as [k Hk].
      destruct (Hw k x Hk) as (j & Hj1 & Hj2).
      apply (is_root_of_unique a x); [|done].
      exact (Forall2_lookup_lr _ _ _ _ _ _ H2 Hj1 Hj2).
    - intros x Hx Hni. apply (np_put_frame a0 vs rs); [done| |done| |done].
      + symmetry. by eapply Forall2_length.
      + apply (in_range_length a); [apply Hc0|done]. }
  destruct pc.
  - destruct (Hstep a1 Hc1) as (a' & Hput & Hc & Hpost & _).
    exists n, a'. split; [done|]. split; [done|]. split; [done|].
    intros fuel Hfuel. unfold find_root. destruct (Hrun fuel Hfuel) as [_ ->]. simpl.
    rewrite setitem_set by (symmetry; by eapply Forall2_length). by rewrite Hput.
  - destruct (Hstep a (compresses_refl a)) as (a' & Hput & Hc & Hpost & Hframe).
    exists n, a'. split; [done|]. split; [done|]. split; [done|].
    intros fuel Hfuel. unfold find_root. destruct (Hrun fuel Hfuel) as [-> _]. simpl.
    rewrite setitem_same_shape by (symmetry; by eapply Forall2_length).
    fold a. by rewrite Hput.
Qed.

(** [build_quick_union] on a batch that is connected or separate: after the
    lookups (array [a2]) either nothing is written, or the roots [ri] of the
    minor vertices are attached under roots of main vertices. *)
Lemma union_spec (s : state) (minor main : list Z) (pc : bool) (pc_type : string) :
  valid_forest (id_updated s) ->
  Forall (in_range (id_updated s)) minor ->
  Forall (in_range (id_updated s)) main ->
  length minor = length main ->
  compression_mode pc_type ->
  batch_connected (id_updated s) minor main \/ batch_separate (id_updated s) minor main ->
  exists (n : nat) (ri rj a2 a' ws : list Z),
    Forall2 (is_root_of (id_updated s)) minor ri /\
    Forall2 (is_root_of (id_updated s)) main rj /\
    compresses (id_updated s) a2 /\
    (pc = false -> a2 = id_updated s) /\
    (batch_connected (id_updated s) minor main -> a' = a2) /\
    links a2 a' ws /\
    ((ri = rj /\ ws = [])
     \/ (ws = ri /\ forall x, x ∈ ri ->
           exists l, ri !! l = Some x /\ rj !! l = Some (parent a' x))) /\
    (forall fuel, (n <= fuel)%nat ->
       both_roots fuel s minor main pc pc_type = Ret (ri, rj) (set_id_updated s a2)) /\
    forall fuel, (n <= fuel)%nat ->
      build_quick_union fuel s minor main pc pc_type = Ret tt (set_id_updated s a').
Proof.
  intros Hf Hmi Hma Hlen Hmode Hbatch. pose proof Hf as [Hwf _].
  set (a := id_updated s) in *.
  destruct (both_roots_spec s minor main pc pc_type Hf Hmi Hma Hmode)
    as (n & ri & rj & a2 & Hri & Hrj & Hc & Hpc & Hrun).
  fold a in Hri, Hrj, Hc, Hpc.
  pose proof (compresses_forest a a2 Hf Hc) as Hf2.
  assert (Hlr : length ri = length rj).
  { rewrite <- (Forall2_length _ _ _ Hri), <- (Forall2_length _ _ _ Hrj). done. }
  assert (Hconn : batch_connected a minor main -> ri = rj).
  { intros Hb. apply (Forall2_root_of_unique a minor); [done|].
    apply Forall2_same_length_lookup. split; [by rewrite (Forall2_length _ _ _ Hri)|].
    intros k x r Hk1 Hk2.
    destruct (Forall2_lookup_l _ _ _ _ _ Hb Hk1) as (y & Hy & (r0 & Hx0 & Hy0)).
    pose proof (Forall2_lookup_lr _ _ _ _ _ _ Hrj Hy Hk2) as Hyr.
    by rewrite <- (is_root_of_unique a y _ _ Hy0 Hyr). }
  destruct (np_any_ne ri rj) eqn:Ene.
  - (* some pair differs: the roots of minor are written *)
    assert (Hsep : batch_separate a minor main).
    { destruct Hbatch as [Hb|Hb]; [|done]. apply Hconn in Hb. subst rj.
      by rewrite np_any_ne_refl in Ene. }
    assert (Hri_r : Forall (in_range a) ri) by (by apply (Forall2_root_of_in_range a minor)).
    assert (Hrj_r : Forall (in_range a) rj) by (by apply (Forall2_root_of_in_range a main)).
    destruct (np_put_spec a2 ri rj) as (a' & Hput & Hl & Hspec).
    { apply (Forall_in_range_length a); [apply Hc|done]. }
    { done. }
    exists n, ri, rj, a2, a', ri.
    split; [done|]. split; [done|]. split; [done|]. split; [done|].
    split. { intros Hb. apply Hconn in Hb. subst rj. by rewrite np_any_ne_refl in Ene. }
    assert (Hwritten : forall x, x ∈ ri ->
              exists l, ri !! l = Some x /\ rj !! l = Some (parent a' x)).
    { intros x Hx. rewrite Forall_forall in Hri_r.
      destruct (Hspec x) as [[Hni _]|H]; [|done|done].
      apply (in_range_length a); [apply Hc|]. by apply Hri_r. }
    split; [|split; [by right|split; [done|]]].
    + split; [done|]. split.
      * intros v Hv Hni. destruct (Hspec v Hv) as [[_ E]|(k & Hk & _)]; [done|].
        exfalso. apply Hni, list_elem_of_lookup. eauto.
      * intros v Hv Hin. destruct (Hwritten v Hin) as (l & Hl1 & Hl2).
        apply list_elem_of_lookup in Hin as [k Hk].
        destruct (Forall2_lookup_r _ _ _ _ _ Hri Hk) as (x & Hx & Hxv).
        destruct (Forall2_lookup_r _ _ _ _ _ Hrj Hl2) as (y & Hy & Hyr).
        rewrite Forall_forall in Hri_r, Hrj_r, Hmi, Hma.
        assert (Hpr : in_range a (parent a' v)).
        { apply Hrj_r, list_elem_of_lookup. eauto. }
        split.
        { apply (compresses_root a); [done| |by apply (is_root_of_is_root a x)].
          apply Hri_r, list_elem_of_lookup. eauto. }
        split. { apply (in_range_length a); [apply Hc|done]. }
        split. { apply (compresses_root a); [done|done|by apply (is_root_of_is_root a y)]. }
        intros Hin'. apply list_elem_of_lookup in Hin' as [k' Hk'].
        destruct (Forall2_lookup_r _ _ _ _ _ Hri Hk') as (x' & Hx' & Hx'r).
        apply (Hsep x' y); [apply list_elem_of_lookup; eauto..|].
        by exists (parent a' v).
    + intros fuel Hfuel. unfold build_quick_union. rewrite Hrun by done. simpl.
      rewrite np_all_eq_same_length, Ene by done. simpl.
      rewrite setitem_set by done. by rewrite Hput.
  - (* all pairs share their roots: nothing is written *)
    apply np_any_ne_false in Ene; [|done]. subst rj.
    exists n, ri, ri, a2, a2, [].
    split; [done|]. split; [done|]. split; [done|]. split; [done|].
    split; [done|]. split; [apply links_nil|]. split; [by left|]. split; [done|].
    intros fuel Hfuel. unfold build_quick_union. rewrite Hrun by done. simpl.
    by rewrite np_all_eq_same_length, np_any_ne_refl.
Qed.

(** ** The weighted union *)

(** With the keyword of the source, the table construction never gets past
    the call of [find_root]. *)
Lemma ensure_size_src (fuel : nat) (s : state) (pc : bool) (pc_type : string) :
  ensure_size "pc_type" fuel s pc pc_type =
  match size s with
  | Some tbl => Ret tbl s
  | None =>
      if roots_usable s
      then Ret (np_unique_counts (roots_value s))
             (mkState (id_updated s) (roots s) (Some (np_unique_counts (roots_value s))))
      else Raise (TypeError "find_root() got an unexpected keyword argument") s
  end.
Proof. unfold ensure_size. destruct (size s); [done|]. by destruct (roots_usable s). Qed.

Lemma size_index_cases (s : state) (tbl : list (Z * Z)) (r : Z) :
  (exists k, size_index s tbl r = Ret k s) \/ (exists e, size_index s tbl r = Raise e s).
Proof.
  unfold size_index. destruct (np_where_eq (map fst tbl) r 0) as [|k [|k' l]]; eauto.
Qed.

Lemma parent_relabel (a : list Z) (lo hi v : Z) :
  in_range a v ->
  parent (relabel lo hi a) v = if parent a v =? lo then hi else parent a v.
Proof.
  intros Hv.
  assert (Hv' : in_range (relabel lo hi a) v).
  { apply (in_range_length a); [apply length_map|done]. }
  pose proof (parent_lookup _ _ Hv') as E. unfold relabel in E at 1.
  change (map ?f a) with (f <$> a) in E.
  rewrite list_lookup_fmap, (parent_lookup a v Hv) in E. simpl in E. congruence.
Qed.

Lemma relabel_compresses (a : list Z) (lo hi : Z) :
  wf_parents a -> in_range a lo -> parent a lo = hi -> compresses a (relabel lo hi a).
Proof.
  intros Hwf Hlo Hp. split; [apply length_map|]. intros v Hv.
  rewrite parent_relabel by done. destruct (parent a v =? lo) eqn:E.
  - apply Z.eqb_eq in E. exists 2%nat. split; [lia|]. simpl. by rewrite E.
  - by exists 1%nat.
Qed.

Lemma setitem_single (s : state) (lo hi : Z) :
  in_range (id_updated s) lo ->
  setitem s [lo] [hi] = Ret tt (set_id_updated s (<[Z.to_nat lo := hi]> (id_updated s))).
Proof. intros H. unfold setitem. simpl. by rewrite np_index_in_range. Qed.

Lemma links_single (a : list Z) (lo hi : Z) :
  in_range a lo -> in_range a hi -> is_root a lo -> is_root a hi -> lo ≠ hi ->
  links a (<[Z.to_nat lo := hi]> a) [lo].
Proof.
  intros Hlo Hhi Hrl Hrh Hne. split; [apply length_insert|]. split.
  - intros v Hv Hni. rewrite parent_insert by done.
    destruct (decide (v = lo)) as [->|]; [|done]. exfalso. apply Hni. by left.
  - intros v Hv Hin. apply list_elem_of_singleton in Hin as ->.
    rewrite parent_insert by done. rewrite decide_True by done.
    split; [done|]. split; [done|]. split; [done|].
    intros H. apply list_elem_of_singleton in H. congruence.
Qed.

(** Attaching root [lo] under root [hi]: whatever the outcome, the array is a
    forest in which the vertices of [lo]'s tree have root [hi] and all others
    keep theirs. *)
Lemma attach_spec (s : state) (tbl : list (Z * Z)) (lo hi : Z) (lo_index hi_index : nat) :
  valid_forest (id_updated s) ->
  in_range (id_updated s) lo -> in_range (id_updated s) hi ->
  is_root (id_updated s) lo -> is_root (id_updated s) hi -> lo ≠ hi ->
  exists s', final_state (attach s tbl lo hi lo_index hi_index) = Some s' /\
    valid_forest (id_updated s') /\
    length (id_updated s') = length (id_updated s) /\
    forall v r, in_range (id_updated s) v -> is_root_of (id_updated s) v r ->
      is_root_of (id_updated s') v (if decide (r = lo) then hi else r).
Proof.
  destruct s as [a rt sz]. simpl. intros Hf Hlo Hhi Hrl Hrh Hne.
  pose proof Hf as [Hwf _].
  set (a3 := <[Z.to_nat lo := hi]> a).
  pose proof (links_single a lo hi Hlo Hhi Hrl Hrh Hne) as Hl. fold a3 in Hl.
  pose proof (links_forest a a3 [lo] Hf Hl) as Hf3.
  assert (Hp3 : parent a3 lo = hi).
  { unfold a3. rewrite parent_insert by done. by rewrite decide_True. }
  assert (Hroot3 : forall v r, in_range a v -> is_root_of a v r ->
            is_root_of a3 v (if decide (r = lo) then hi else r)).
  { intros v r Hv Hvr. pose proof (links_root_of a a3 [lo] v r Hwf Hl Hv Hvr) as H.
    destruct (decide (r = lo)) as [->|Hr].
    - rewrite decide_True in H by (by left). by rewrite Hp3 in H.
    - rewrite decide_False in H; [done|]. intros Hin.
      by apply list_elem_of_singleton in Hin. }
  unfold attach. rewrite setitem_single by done. simpl. fold a3.
  unfold roots_relabel. simpl. destruct rt as [[|r0]|]; simpl.
  - (* [self.roots] is the parent array itself *)
    assert (Hlo3 : in_range a3 lo) by (apply (in_range_length a); [apply Hl|done]).
    pose proof (relabel_compresses a3 lo hi (proj1 Hf3) Hlo3 Hp3) as Hc.
    eexists. split; [reflexivity|]. simpl. split; [by apply (compresses_forest a3)|].
    split; [unfold relabel, a3; by rewrite length_map, length_insert|].
    intros v r Hv Hvr. apply (compresses_root_of a3); [apply Hf3|done| |by apply Hroot3].
    apply (in_range_length a); [apply Hl|done].
  - eexists. split; [reflexivity|]. simpl. split; [done|]. split; [apply length_insert|done].
  - eexists. split; [reflexivity|]. simpl. split; [done|]. split; [apply length_insert|done].
Qed.

Lemma Forall2_singleton_l {A B} (R : A -> B -> Prop) (x : A) (l : list B) :
  Forall2 R [x] l -> exists y, l = [y] /\ R x y.
Proof.
  intros H. apply Forall2_cons_inv_l in H as (y & l' & Hxy & H' & ->).
  apply Forall2_nil_inv_l in H' as ->. by exists y.
Qed.

(** [build_weighted_quick_union] on int ids: with enough fuel the outcome is
    settled; whatever it is, the parent array it leaves is a valid forest, and
    when the call returns, the two vertices are in one tree. *)
Lemma weighted_spec (s : state) (x y : Z) (pc : bool) (pc_type : string) :
  valid_forest (id_updated s) ->
  in_range (id_updated s) x -> in_range (id_updated s) y ->
  compression_mode pc_type ->
  exists (n : nat) (o : outcome unit),
    (forall fuel, (n <= fuel)%nat ->
       build_weighted_quick_union fuel s (PyInt x) (PyInt y) pc pc_type = o) /\
    (exists s', final_state o = Some s' /\ valid_forest (id_updated s') /\
                length (id_updated s') = length (id_updated s)) /\
    (forall u s', o = Ret u s' -> same_tree (id_updated s') x y).
Proof.
  intros Hf Hx Hy Hmode. pose proof Hf as [Hwf _]. set (a := id_updated s) in *.
  destruct (both_roots_spec s [x] [y] pc pc_type) as (n & ri & rj & a2 & Hri & Hrj & Hc & _ & Hrun);
    [done|by constructor|by constructor|done|].
  fold a in Hri, Hrj, Hc.
  apply Forall2_singleton_l in Hri as (i & -> & Hi).
  apply Forall2_singleton_l in Hrj as (j & -> & Hj).
  pose proof (compresses_forest a a2 Hf Hc) as Hf2.
  assert (Hx2 : in_range a2 x) by (apply (in_range_length a); [apply Hc|done]).
  assert (Hy2 : in_range a2 y) by (apply (in_range_length a); [apply Hc|done]).
  assert (Hi2 : is_root_of a2 x i) by (by apply (compresses_root_of a)).
  assert (Hj2 : is_root_of a2 y j) by (by apply (compresses_root_of a)).
  assert (Hir : in_range a2 i) by (by apply (is_root_of_in_range a2 x); [apply Hf2|..]).
  assert (Hjr : in_range a2 j) by (by apply (is_root_of_in_range a2 y); [apply Hf2|..]).
  pose proof (is_root_of_is_root _ _ _ Hi2) as Hiroot.
  pose proof (is_root_of_is_root _ _ _ Hj2) as Hjroot.
  set (s2 := set_id_updated s a2) in *.
  set (K := fun (s : state) =>
     if i =? j then Ret tt s
     else
       bind (ensure_size "pc_type" n s pc pc_type) (fun tbl s =>
       bind (size_index s tbl i) (fun i_index s =>
       let i_size := snd (tbl !!! i_index) in
       bind (size_index s tbl j) (fun j_index s =>
       let j_size := snd (tbl !!! j_index) in
       if i_size <=? j_size
       then attach s tbl i j i_index j_index
       else attach s tbl j i j_index i_index)))).
  exists n, (K s2). split.
  { intros fuel Hfuel. unfold build_weighted_quick_union, weighted_union_with_keyword.
    rewrite Hrun by done. unfold K. simpl.
    destruct (i =? j); [done|]. by rewrite !ensure_size_src. }
  unfold K. destruct (i =? j) eqn:Eij.
  - apply Z.eqb_eq in Eij. subst j. split; [exists s2; split; [done|split; [exact Hf2|apply Hc]]|].
    intros u s' Ho. injection Ho as _ Hs. rewrite <- Hs. exists i. split; [exact Hi2|exact Hj2].
  - apply Z.eqb_neq in Eij. rewrite ensure_size_src.
    assert (Hgo : forall (s3 : state) (tbl : list (Z * Z)),
              id_updated s3 = a2 ->
              let o := bind (size_index s3 tbl i) (fun i_index s =>
                       let i_size := snd (tbl !!! i_index) in
                       bind (size_index s tbl j) (fun j_index s =>
                       let j_size := snd (tbl !!! j_index) in
                       if i_size <=? j_size
                       then attach s tbl i j i_index j_index
                       else attach s tbl j i j_index i_index)) in
              (exists s', final_state o = Some s' /\ valid_forest (id_updated s') /\
                          length (id_updated s') = length a) /\
              (forall u s', o = Ret u s' -> same_tree (id_updated s') x y)).
    { intros s3 tbl E3. simpl.
      destruct (size_index_cases s3 tbl i) as [[ki ->]|[e ->]]; simpl;
        [|split; [exists s3; split; [done|rewrite E3; split; [done|apply Hc]]|done]].
      destruct (size_index_cases s3 tbl j) as [[kj ->]|[e ->]]; simpl;
        [|split; [exists s3; split; [done|rewrite E3; split; [done|apply Hc]]|done]].
      destruct (snd (tbl !!! ki) <=? snd (tbl !!! kj)).
      - destruct (attach_spec s3 tbl i j ki kj) as (s' & Hfin & Hf' & Hlen' & Hroots);
          [by rewrite E3..|done|].
        split; [exists s'; split; [done|split; [done|rewrite Hlen', E3; apply Hc]]|]. intros u s'' Ho. rewrite Ho in Hfin. simpl in Hfin.
        injection Hfin as ->. exists j. rewrite E3 in Hroots. split.
        + pose proof (Hroots x i Hx2 Hi2) as H. by rewrite decide_True in H.
        + pose proof (Hroots y j Hy2 Hj2) as H. by rewrite decide_False in H.
      - destruct (attach_spec s3 tbl j i kj ki) as (s' & Hfin & Hf' & Hlen' & Hroots);
          [by rewrite E3..|done|].
        split; [exists s'; split; [done|split; [done|rewrite Hlen', E3; apply Hc]]|]. intros u s'' Ho. rewrite Ho in Hfin. simpl in Hfin.
        injection Hfin as ->. exists i. rewrite E3 in Hroots. split.
        + pose proof (Hroots x i Hx2 Hi2) as H. by rewrite decide_False in H.
        + pose proof (Hroots y j Hy2 Hj2) as H. by rewrite decide_True in H. }
    destruct (size s2) as [tbl|] eqn:Esz; simpl.
    + by apply Hgo.
    + destruct (roots_usable s2); simpl.
      * by apply Hgo.
      * split; [exists s2; split; [done|split; [exact Hf2|apply Hc]]|done].
Qed.

Lemma root_fn_root_of (a : list Z) (v : Z) :
  valid_forestb a = true -> (0 <=? v) && (v <? Z.of_nat (length a)) = true ->
  is_root_of a v (root_fn a v).
Proof.
  intros H Hv. apply andb_true_iff in Hv as [Hv1 Hv2].
  unfold valid_forestb in H. apply andb_true_iff in H as [_ H].
  rewrite forallb_forall in H. exists (length a). split; [done|].
  unfold is_root. apply Z.eqb_eq, H, list_elem_of_In, arange_elem. lia.
Qed.

Lemma same_tree_root_fn (a : list Z) (x y : Z) :
  valid_forestb a = true ->
  (0 <=? x) && (x <? Z.of_nat (length a)) = true ->
  (0 <=? y) && (y <? Z.of_nat (length a)) = true ->
  same_tree a x y <-> root_fn a x = root_fn a y.
Proof.
  intros H Hx Hy. pose proof (root_fn_root_of a x H Hx) as Rx.
  pose proof (root_fn_root_of a y H Hy) as Ry. split.
  - intros (r & Hxr & Hyr).
    by rewrite <- (is_root_of_unique a x _ _ Hxr Rx), <- (is_root_of_unique a y _ _ Hyr Ry).
  - intros E. exists (root_fn a x). split; [done|]. by rewrite E.
Qed.

Ltac in_range_batch :=
  repeat (apply List.Forall_cons; [unfold in_range; simpl; lia|]); apply List.Forall_nil.

Lemma scenario_forest : valid_forest scenario.
Proof. apply valid_forestb_sound. vm_compute. reflexivity. Qed.

(** C1 (the code at the documented input).  On the engine built from
    [0,0,0,3,3,3,9,7,9,4,8], [build_weighted_quick_union(2,7)] with the
    default compression settings does not complete: building the size table
    calls [find_root] with the keyword [pc_type], which [find_root] does not
    have, so TypeError is raised, with the parent array as it was and no size
    table. *)
Theorem C1_weighted_union_scenario_raises (fuel : nat) :
  build_weighted_quick_union (S fuel) (init scenario) (PyInt 2) (PyInt 7) true "path_halving"
  = Raise (TypeError "find_root() got an unexpected keyword argument") (init scenario).
Proof. destruct fuel; reflexivity. Qed.

(** The documented result of scenario 3 is what the method computes once the
    compression type is passed under the keyword [find_root] declares. *)
Lemma weighted_union_scenario_declared_keyword :
  weighted_union_with_keyword "path_compression_type" 20 (init scenario)
    (PyInt 2) (PyInt 7) true "path_halving"
  = Ret tt (mkState [0; 0; 0; 3; 3; 3; 3; 0; 3; 3; 3] (Some RootsAlias)
              (Some [(0, 4); (3, 7)])).
Proof. vm_compute. reflexivity. Qed.

(** C3, as stated, fails: the public [find_root] with
    [path_compression=False] rewrites the entry of vertex 10 (from 8 to its
    root 3) and returns nothing. *)
Lemma C3_counterexample :
  valid_forest scenario /\ in_range scenario 10 /\
  find_root 20 (init scenario) [10] false "path_halving"
  = Ret tt (init [0; 0; 0; 3; 3; 3; 9; 7; 9; 4; 3]) /\
  id_updated (init [0; 0; 0; 3; 3; 3; 9; 7; 9; 4; 3]) <> scenario.
Proof.
  split; [exact scenario_forest|]. split; [unfold in_range; simpl; lia|].
  split; [vm_compute; reflexivity|discriminate].
Qed.

(** C3 (amended).  On a valid forest and a batch of in-range ids, the plain
    lookup [_root] returns the roots of the batch and leaves the state as it
    was; the public [find_root] with [path_compression=False] returns nothing
    and stores in the entry of each tested id its root, leaving every other
    entry unchanged. *)
Theorem C3_plain_lookup (s : state) (vs : list Z) (pc_type : string) :
  valid_forest (id_updated s) ->
  Forall (in_range (id_updated s)) vs ->
  exists (n : nat) (rs a' : list Z),
    Forall2 (is_root_of (id_updated s)) vs rs /\
    length a' = length (id_updated s) /\
    (forall x r, x ∈ vs -> is_root_of (id_updated s) x r -> parent a' x = r) /\
    (forall x, in_range (id_updated s) x -> x ∉ vs -> parent a' x = parent (id_updated s) x) /\
    forall fuel, (n <= fuel)%nat ->
      _root fuel s vs = Ret rs s /\
      find_root fuel s vs false pc_type = Ret tt (set_id_updated s a').
Proof.
  intros Hf Hr.
  destruct (lookup_spec s vs "path_halving" Hf Hr) as (n1 & rs & a1 & H2 & _ & _ & Hrun1);
    [by left|].
  destruct (find_root_spec s vs false "path_halving" Hf Hr) as (n2 & a' & Hc & Hpost & Hframe & Hrun2);
    [by left|].
  exists (n1 `max` n2)%nat, rs, a'. split; [done|]. split; [apply Hc|].
  split; [done|]. split; [by apply Hframe|].
  intros fuel Hfuel. split.
  - apply Hrun1. lia.
  - change (find_root fuel s vs false pc_type) with (find_root fuel s vs false "path_halving").
    apply Hrun2. lia.
Qed.

Lemma C3_plain_lookup_witness :
  exists (n : nat) (rs a' : list Z),
    Forall2 (is_root_of scenario) [2; 10; 7] rs /\
    length a' = length scenario /\
    (forall x r, x ∈ [2; 10; 7] -> is_root_of scenario x r -> parent a' x = r) /\
    (forall x, in_range scenario x -> x ∉ [2; 10; 7] -> parent a' x = parent scenario x) /\
    forall fuel, (n <= fuel)%nat ->
      _root fuel (init scenario) [2; 10; 7] = Ret rs (init scenario) /\
      find_root fuel (init scenario) [2; 10; 7] false "path_halving"
      = Ret tt (set_id_updated (init scenario) a').
Proof.
  apply (C3_plain_lookup (init scenario) [2; 10; 7] "path_halving").
  - apply valid_forestb_sound. vm_compute. reflexivity.
  - simpl. in_range_batch.
Defined.

(** C5.  On a valid forest and a batch of in-range ids, the plain lookup,
    the path-halving lookup and the full-compression lookup return the same
    array, the roots of the batch; only the state they leave differs. *)
Theorem C5_root_identity (s : state) (vs : list Z) :
  valid_forest (id_updated s) ->
  Forall (in_range (id_updated s)) vs ->
  exists (n : nat) (rs : list Z) (s1 s2 : state),
    Forall2 (is_root_of (id_updated s)) vs rs /\
    forall fuel, (n <= fuel)%nat ->
      _root fuel s vs = Ret rs s /\
      _root_path_compression fuel s vs "path_halving" = Ret rs s1 /\
      _root_path_compression fuel s vs "full_pc" = Ret rs s2.
Proof.
  intros Hf Hr.
  destruct (lookup_spec s vs "path_halving" Hf Hr) as (n1 & rs & a1 & H2 & _ & _ & Hrun1);
    [by left|].
  destruct (lookup_spec s vs "full_pc" Hf Hr) as (n2 & rs' & a2 & H2' & _ & _ & Hrun2);
    [by right|].
  pose proof (Forall2_root_of_unique _ _ _ _ H2 H2') as <-.
  exists (n1 `max` n2)%nat, rs, (set_id_updated s a1), (set_id_updated s a2).
  split; [done|]. intros fuel Hfuel.
  destruct (Hrun1 fuel) as [E1 E2]; [lia|]. destruct (Hrun2 fuel) as [_ E3]; [lia|]. done.
Qed.

Lemma C5_root_identity_witness :
  exists (n : nat) (rs : list Z) (s1 s2 : state),
    Forall2 (is_root_of scenario) [2; 10; 7] rs /\
    forall fuel, (n <= fuel)%nat ->
      _root fuel (init scenario) [2; 10; 7] = Ret rs (init scenario) /\
      _root_path_compression fuel (init scenario) [2; 10; 7] "path_halving" = Ret rs s1 /\
      _root_path_compression fuel (init scenario) [2; 10; 7] "full_pc" = Ret rs s2.
Proof.
  apply (C5_root_identity (init scenario) [2; 10; 7]).
  - apply valid_forestb_sound. vm_compute. reflexivity.
  - simpl. in_range_batch.
Defined.

Lemma full_pc_fixed (s : state) (a : list Z) (vs rs : list Z) (fuel : nat) :
  Forall (in_range a) vs -> map (parent a) vs = rs -> (1 <= fuel)%nat ->
  full_pc_loop fuel (set_id_updated s a) vs rs = Ret tt (set_id_updated s a).
Proof.
  intros Hr E Hfuel. rewrite full_pc_unfold. destruct (np_any_ne vs rs); [|done].
  destruct fuel as [|fuel]; [lia|].
  rewrite getitem_set by done. simpl.
  rewrite setitem_set by (subst rs; apply length_map).
  rewrite <- E at 1. rewrite np_put_same by done. simpl.
  by rewrite full_pc_unfold, E, np_any_ne_refl.
Qed.

(** C6.  On a valid forest and a batch of in-range ids, two successive
    full-compression lookups of the batch return the same roots, and the
    second leaves the state exactly as the first left it. *)
Theorem C6_full_compression_idempotent (s : state) (vs : list Z) :
  valid_forest (id_updated s) ->
  Forall (in_range (id_updated s)) vs ->
  exists (n : nat) (rs : list Z) (s1 : state),
    forall fuel, (n <= fuel)%nat ->
      _root_path_compression fuel s vs "full_pc" = Ret rs s1 /\
      _root_path_compression fuel s1 vs "full_pc" = Ret rs s1.
Proof.
  intros Hf Hr. set (a := id_updated s) in *.
  destruct (lookup_spec s vs "full_pc" Hf Hr) as (n1 & rs & a1 & H2 & Hc & Hpost & Hrun1);
    [by right|].
  fold a in H2, Hc, Hpost. specialize (Hpost eq_refl).
  pose proof (compresses_forest a a1 Hf Hc) as Hf1.
  assert (Hr1 : Forall (in_range a1) vs)
    by (apply (Forall_in_range_length a); [apply Hc|done]).
  destruct (lookup_spec (set_id_updated s a1) vs "full_pc" Hf1 Hr1)
    as (n2 & rs' & a2 & H2' & _ & _ & Hrun2); [by right|].
  simpl in H2'.
  pose proof (Forall2_root_of_compresses a a1 vs rs' Hf Hc Hr H2') as H2''.
  pose proof (Forall2_root_of_unique _ _ _ _ H2 H2'') as <-.
  assert (E : map (parent a1) vs = rs).
  { apply list_eq_same_length with (length vs);
      [symmetry; by eapply Forall2_length|by rewrite length_map|].
    intros k p r Hk Hp Hrk. change (map ?f vs) with (f <$> vs) in Hp.
    rewrite list_lookup_fmap in Hp. destruct (vs !! k) as [x|] eqn:Ex; [|done].
    simpl in Hp. injection Hp as <-.
    apply Hpost; [apply list_elem_of_lookup; eauto|].
    exact (Forall2_lookup_lr _ _ _ _ _ _ H2 Ex Hrk). }
  exists ((n1 `max` n2) `max` 1)%nat, rs, (set_id_updated s a1).
  intros fuel Hfuel. destruct (Hrun1 fuel) as [_ E1]; [lia|].
  destruct (Hrun2 fuel) as [E2 _]; [lia|]. split; [done|].
  unfold _root_path_compression. simpl. rewrite E2. simpl.
  rewrite full_pc_fixed; [done|done|done|lia].
Qed.

Lemma C6_full_compression_idempotent_witness :
  exists (n : nat) (rs : list Z) (s1 : state),
    forall fuel, (n <= fuel)%nat ->
      _root_path_compression fuel (init scenario) [2; 10; 7] "full_pc" = Ret rs s1 /\
      _root_path_compression fuel s1 [2; 10; 7] "full_pc" = Ret rs s1.
Proof.
  apply (C6_full_compression_idempotent (init scenario) [2; 10; 7]).
  - apply valid_forestb_sound. vm_compute. reflexivity.
  - simpl. in_range_batch.
Defined.

Lemma same_tree_refl (a : list Z) (x : Z) :
  valid_forest a -> in_range a x -> same_tree a x x.
Proof. intros Hf Hx. destruct (forest_root_of a x Hf Hx) as [r Hr]. by exists r. Qed.

(** C7, as stated, fails: with compression (the default), the union of a
    vertex with itself rewrites the entries of vertices 9 and 10. *)
Lemma C7_counterexample :
  valid_forest scenario /\ batch_connected scenario [10] [10] /\
  build_quick_union 20 (init scenario) [10] [10] true "path_halving"
  = Ret tt (init [0; 0; 0; 3; 3; 3; 9; 7; 9; 3; 3]) /\
  id_updated (init [0; 0; 0; 3; 3; 3; 9; 7; 9; 3; 3]) <> scenario.
Proof.
  split; [exact scenario_forest|]. split.
  - constructor; [|constructor]. apply same_tree_refl; [exact scenario_forest|].
    unfold in_range. simpl. lia.
  - split; [vm_compute; reflexivity|discriminate].
Qed.

(** C7 (amended).  On a valid forest, for equal-length batches of in-range
    ids whose corresponding pairs all share a root, [build_quick_union] writes
    nothing of its own: it leaves the state its two root lookups leave.
    With [path_compression=False] that is the state before the call; with
    compression the array is a compressed one (entries on the paths looked up
    point to ancestors, so every vertex keeps its root). *)
Theorem C7_union_of_connected_batch (s : state) (minor main : list Z)
    (pc : bool) (pc_type : string) :
  valid_forest (id_updated s) ->
  Forall (in_range (id_updated s)) minor ->
  Forall (in_range (id_updated s)) main ->
  length minor = length main ->
  compression_mode pc_type ->
  batch_connected (id_updated s) minor main ->
  exists (n : nat) (ri rj a2 : list Z),
    compresses (id_updated s) a2 /\
    (pc = false -> set_id_updated s a2 = s) /\
    (forall v r, in_range (id_updated s) v ->
       is_root_of (id_updated s) v r -> is_root_of a2 v r) /\
    forall fuel, (n <= fuel)%nat ->
      both_roots fuel s minor main pc pc_type = Ret (ri, rj) (set_id_updated s a2) /\
      build_quick_union fuel s minor main pc pc_type = Ret tt (set_id_updated s a2).
Proof.
  intros Hf Hmi Hma Hlen Hmode Hb.
  destruct (union_spec s minor main pc pc_type Hf Hmi Hma Hlen Hmode (or_introl Hb))
    as (n & ri & rj & a2 & a' & ws & _ & _ & Hc & Hpc & Hsame & _ & _ & Hrun1 & Hrun2).
  rewrite (Hsame Hb) in Hrun2.
  exists n, ri, rj, a2. split; [done|]. split.
  { intros E. rewrite (Hpc E). apply set_id_updated_same. }
  split. { intros v r Hv Hr. by apply (compresses_root_of (id_updated s)); [apply Hf|..]. }
  intros fuel Hfuel. split; [by apply Hrun1|by apply Hrun2].
Qed.

Lemma C7_union_of_connected_batch_witness :
  exists (n : nat) (ri rj a2 : list Z),
    compresses scenario a2 /\
    (false = false -> set_id_updated (init scenario) a2 = init scenario) /\
    (forall v r, in_range scenario v -> is_root_of scenario v r -> is_root_of a2 v r) /\
    forall fuel, (n <= fuel)%nat ->
      both_roots fuel (init scenario) [10] [6] false "path_halving"
      = Ret (ri, rj) (set_id_updated (init scenario) a2) /\
      build_quick_union fuel (init scenario) [10] [6] false "path_halving"
      = Ret tt (set_id_updated (init scenario) a2).
Proof.
  apply (C7_union_of_connected_batch (init scenario) [10] [6] false "path_halving").
  - apply valid_forestb_sound. vm_compute. reflexivity.
  - simpl. in_range_batch.
  - simpl. in_range_batch.
  - reflexivity.
  - left. reflexivity.
  - constructor; [|constructor]. simpl.
    apply same_tree_root_fn; vm_compute; reflexivity.
Defined.

(** *** Roots after a union *)

Lemma root_pair (s : state) (u v : Z) (d fuel : nat) :
  wf_parents (id_updated s) ->
  in_range (id_updated s) u -> in_range (id_updated s) v ->
  same_tree (id_updated s) u v ->
  reach (id_updated s) u d -> reach (id_updated s) v d -> (d <= fuel)%nat ->
  exists r, _root fuel s [u] = Ret [r] s /\ _root fuel s [v] = Ret [r] s.
Proof.
  intros Hwf Hu Hv (r & Hur & Hvr) Hdu Hdv Hfuel. exists r.
  rewrite (root_spec s d [u] fuel), (root_spec s d [v] fuel);
    [|done|by constructor|by constructor|done|done|by constructor|by constructor|done].
  simpl. split; do 2 f_equal.
  - apply (is_root_of_unique (id_updated s) u); [by apply reach_root_of|done].
  - apply (is_root_of_unique (id_updated s) v); [by apply reach_root_of|done].
Qed.







(** ** The type check of the weighted union *)

Lemma no_pyexception_bind {A B} (m : outcome A) (k : A -> state -> outcome B) :
  no_pyexception m -> (forall a s, no_pyexception (k a s)) -> no_pyexception (bind m k).
Proof.
  intros Hm Hk. destruct m as [a s|e s|]; simpl; [apply Hk| |done].
  intros msg s' [= -> ->]. by apply (Hm msg s').
Qed.

Lemma no_pyexception_getitem (s : state) (idx : list Z) : no_pyexception (getitem s idx).
Proof. unfold getitem. by destruct (np_take _ _). Qed.

Lemma no_pyexception_setitem (s : state) (idx vals : list Z) :
  no_pyexception (setitem s idx vals).
Proof.
  unfold setitem. destruct (_ || _); [|done]. by destruct (np_put _ _ _).
Qed.

Lemma no_pyexception_root (fuel : nat) (s : state) (v : list Z) :
  no_pyexception (_root fuel s v).
Proof.
  revert s v. induction fuel as [|fuel IH]; intros s v; simpl;
    (apply no_pyexception_bind; [apply no_pyexception_getitem|]);
    intros p s'; by destruct (np_any_ne v p).
Qed.

Lemma no_pyexception_halving (fuel : nat) (s : state) (v : list Z) :
  no_pyexception (halving_loop fuel s v).
Proof.
  revert s v. induction fuel as [|fuel IH]; intros s v; simpl;
    (apply no_pyexception_bind; [apply no_pyexception_getitem|]);
    intros p s'; destruct (np_any_ne v p); try done.
  apply no_pyexception_bind; [apply no_pyexception_getitem|]. intros g s1.
  apply no_pyexception_bind; [apply no_pyexception_setitem|]. intros _ s2.
  apply no_pyexception_bind; [apply no_pyexception_getitem|]. intros v' s3. apply IH.
Qed.

Lemma no_pyexception_full_pc (fuel : nat) (s : state) (v w : list Z) :
  no_pyexception (full_pc_loop fuel s v w).
Proof.
  revert s v. induction fuel as [|fuel IH]; intros s v; simpl;
    destruct (np_any_ne v w); try done.
  apply no_pyexception_bind; [apply no_pyexception_getitem|]. intros g s1.
  apply no_pyexception_bind; [apply no_pyexception_setitem|]. intros _ s2. apply IH.
Qed.

Lemma no_pyexception_rpc (fuel : nat) (s : state) (v : list Z) (pc_type : string) :
  no_pyexception (_root_path_compression fuel s v pc_type).
Proof.
  unfold _root_path_compression. destruct (String.eqb _ _); [apply no_pyexception_halving|].
  destruct (String.eqb _ _); [|done].
  apply no_pyexception_bind; [apply no_pyexception_root|]. intros r s1.
  apply no_pyexception_bind; [apply no_pyexception_full_pc|]. done.
Qed.

Lemma no_pyexception_both_roots (fuel : nat) (s : state) (minor main : list Z)
    (pc : bool) (pc_type : string) :
  no_pyexception (both_roots fuel s minor main pc pc_type).
Proof.
  unfold both_roots. destruct pc.
  - apply no_pyexception_bind; [apply no_pyexception_rpc|]. intros i s1.
    apply no_pyexception_bind; [apply no_pyexception_rpc|]. done.
  - apply no_pyexception_bind; [apply no_pyexception_root|]. intros i s1.
    apply no_pyexception_bind; [apply no_pyexception_root|]. done.
Qed.

Lemma no_pyexception_attach (s : state) (tbl : list (Z * Z)) (lo hi : Z) (li hj : nat) :
  no_pyexception (attach s tbl lo hi li hj).
Proof.
  unfold attach. apply no_pyexception_bind; [apply no_pyexception_setitem|]. intros _ s1.
  apply no_pyexception_bind; [|done].
  unfold roots_relabel. by destruct (roots s1) as [[|r]|].
Qed.

Lemma no_pyexception_size_index (s : state) (tbl : list (Z * Z)) (r : Z) :
  no_pyexception (size_index s tbl r).
Proof.
  unfold size_index. destruct (np_where_eq (map fst tbl) r 0) as [|k [|k' l]];
    intros msg s0 H; discriminate H.
Qed.

Lemma no_pyexception_find_root (fuel : nat) (s : state) (vs : list Z)
    (pc : bool) (pc_type : string) :
  no_pyexception (find_root fuel s vs pc pc_type).
Proof.
  unfold find_root. destruct pc.
  - apply no_pyexception_bind; [apply no_pyexception_rpc|]. intros r s1.
    apply no_pyexception_setitem.
  - apply no_pyexception_bind; [apply no_pyexception_root|]. intros r s1.
    apply no_pyexception_setitem.
Qed.

Lemma no_pyexception_ensure_size (kw : string) (fuel : nat) (s : state)
    (pc : bool) (pc_type : string) :
  no_pyexception (ensure_size kw fuel s pc pc_type).
Proof.
  unfold ensure_size. destruct (size s); [done|].
  apply no_pyexception_bind; [|done].
  destruct (roots_usable s); [done|].
  apply no_pyexception_bind; [|done].
  unfold call_find_root. destruct (forallb _ _); [|done].
  apply no_pyexception_find_root.
Qed.

(** C10, as stated, fails: numpy integer scalars (what indexing the parent
    array, and so every root lookup, returns) are scalar integral ids, and
    [build_weighted_quick_union] rejects them. *)
Lemma C10_counterexample :
  scalar_integral (NpInt 2) = true /\ scalar_integral (NpInt 7) = true /\
  build_weighted_quick_union 20 (init scenario) (NpInt 2) (NpInt 7) true "path_halving"
  = Raise (PyException "Received ids must be of type int") (init scenario).
Proof. repeat split. Qed.

(** C10 (amended).  [build_weighted_quick_union(minor, main)] raises the
    exception 'Received ids must be of type int' if and only if the type of
    minor or of main is not exactly the built-in [int]; it does so before any
    state is modified.  A scalar integral id of another type (a numpy integer,
    a bool) is rejected like a batch or a float. *)
Theorem C10_weighted_union_type_check (fuel : nat) (s : state) (minor main : pyval)
    (pc : bool) (pc_type : string) :
  ((exists msg s', build_weighted_quick_union fuel s minor main pc pc_type
                   = Raise (PyException msg) s')
   <-> (py_type minor <> t_int \/ py_type main <> t_int))
  /\ (py_type minor <> t_int \/ py_type main <> t_int ->
      build_weighted_quick_union fuel s minor main pc pc_type
      = Raise (PyException "Received ids must be of type int") s).
Proof.
  assert (Hint : forall x y, no_pyexception
            (build_weighted_quick_union fuel s (PyInt x) (PyInt y) pc pc_type)).
  { intros x y. unfold build_weighted_quick_union, weighted_union_with_keyword.
    apply no_pyexception_bind; [apply no_pyexception_both_roots|]. intros ij s1.
    destruct (_ =? _); [done|].
    apply no_pyexception_bind; [apply no_pyexception_ensure_size|]. intros tbl s2.
    apply no_pyexception_bind; [apply no_pyexception_size_index|]. intros ki s3.
    apply no_pyexception_bind; [apply no_pyexception_size_index|]. intros kj s4.
    destruct (_ <=? _); apply no_pyexception_attach. }
  assert (Hrej : py_type minor <> t_int \/ py_type main <> t_int ->
            build_weighted_quick_union fuel s minor main pc pc_type
            = Raise (PyException "Received ids must be of type int") s).
  { intros [H|H]; destruct minor, main; try reflexivity; by destruct H. }
  split; [|exact Hrej]. split.
  - intros (msg & s' & E). destruct minor, main; simpl;
      try (left; discriminate); try (right; discriminate).
    exfalso. by apply (Hint z z0 msg s').
  - intros H. rewrite (Hrej H). eauto.
Qed.

(** ** Ids outside the array, and negative indices *)

Lemma np_index_None (a : list Z) (v : Z) :
  out_of_bounds a v <-> np_index (length a) v = None.
Proof.
  unfold out_of_bounds, np_index.
  destruct (0 <=? v) eqn:E1, (v <? Z.of_nat (length a)) eqn:E2,
    (- Z.of_nat (length a) <=? v) eqn:E3, (v <? 0) eqn:E4; simpl;
    split; intros H; try done; lia.
Qed.

Lemma np_index_norm (n : nat) (v : Z) :
  np_index n (norm n v) = np_index n v.
Proof.
  unfold norm. destruct (np_index n v) as [k|] eqn:E; [|done].
  pose proof (np_index_lt n v k E). rewrite np_index_in_range by lia. by rewrite Nat2Z.id.
Qed.

Lemma norm_in_range (a : list Z) (v : Z) :
  ~ out_of_bounds a v -> in_range a (norm (length a) v).
Proof.
  intros H. rewrite np_index_None in H. unfold norm.
  destruct (np_index (length a) v) as [k|] eqn:E; [|done].
  pose proof (np_index_lt _ v k E). unfold in_range. lia.
Qed.

Lemma norm_id (a : list Z) (v : Z) : in_range a v -> norm (length a) v = v.
Proof. intros H. unfold norm. rewrite np_index_in_range by done. unfold in_range in H. lia. Qed.

Lemma np_get_norm (a : list Z) (v : Z) : np_get a (norm (length a) v) = np_get a v.
Proof. unfold np_get. by rewrite np_index_norm. Qed.

Lemma np_take_norm (a : list Z) (vs : list Z) :
  np_take a (map (norm (length a)) vs) = np_take a vs.
Proof. induction vs as [|v vs IH]; simpl; [done|]. by rewrite np_get_norm, IH. Qed.

Lemma np_put_norm (n : nat) (a : list Z) (vs vals : list Z) :
  length a = n -> np_put a (map (norm n) vs) vals = np_put a vs vals.
Proof.
  revert a vals. induction vs as [|v vs IH]; intros a [|x vals] Hn; simpl; try done.
  rewrite Hn, np_index_norm. destruct (np_index n v); [|done].
  apply IH. by rewrite length_insert.
Qed.

Lemma np_put_length (a : list Z) (idx vals : list Z) (a' : list Z) :
  np_put a idx vals = Some a' -> length a' = length a.
Proof.
  revert a vals. induction idx as [|i idx IH]; intros a [|x vals]; simpl; try done.
  - by intros [= ->].
  - destruct (np_index (length a) i); [|done]. intros H. apply IH in H.
    by rewrite length_insert in H.
Qed.

Lemma getitem_norm (s : state) (vs : list Z) :
  getitem s (map (norm (length (id_updated s))) vs) = getitem s vs.
Proof. unfold getitem. by rewrite np_take_norm. Qed.

Lemma setitem_norm (s : state) (vs vals : list Z) :
  setitem s (map (norm (length (id_updated s))) vs) vals = setitem s vs vals.
Proof.
  unfold setitem. rewrite length_map.
  by rewrite (np_put_norm (length (id_updated s)) (id_updated s) vs _ eq_refl).
Qed.

Lemma setitem_length (s : state) (idx vals : list Z) (u : unit) (s' : state) :
  setitem s idx vals = Ret u s' -> length (id_updated s') = length (id_updated s).
Proof.
  unfold setitem. destruct (_ || _); [|done].
  destruct (np_put _ _ _) as [a'|] eqn:E; [|done].
  intros H. injection H as _ <-. simpl. by apply np_put_length in E.
Qed.

Lemma Forall_norm_in_range (a : list Z) (vs : list Z) :
  Forall (fun v => ~ out_of_bounds a v) vs -> Forall (in_range a) (map (norm (length a)) vs).
Proof.
  intros H. apply Forall_map. eapply Forall_impl; [exact H|].
  intros v Hv. by apply norm_in_range.
Qed.

Lemma is_root_of_child (a : list Z) (v r : Z) :
  is_root_of a (parent a v) r -> is_root_of a v r.
Proof. intros (k & E & H). exists (S k). by rewrite iter_succ_r. Qed.

(** A lookup whose first test sees unnormalised indices: the plain loop. *)
Lemma root_indexable (s : state) (vs : list Z) :
  valid_forest (id_updated s) ->
  Forall (fun v => ~ out_of_bounds (id_updated s) v) vs ->
  exists (n : nat) (rs : list Z),
    Forall2 (is_root_of (id_updated s)) (map (norm (length (id_updated s))) vs) rs /\
    forall fuel, (n <= fuel)%nat -> _root fuel s vs = Ret rs s.
Proof.
  intros Hf Hvs. pose proof Hf as [Hwf _]. set (a := id_updated s) in *.
  set (vs' := map (norm (length a)) vs).
  assert (Hr' : Forall (in_range a) vs') by (by apply Forall_norm_in_range).
  set (p := map (parent a) vs').
  assert (Hp : Forall (in_range a) p) by (by apply Forall_map_in_range).
  destruct (lookup_spec s p "path_halving" Hf Hp) as (n1 & rs1 & a1 & H2 & _ & _ & Hrun1);
    [by left|].
  assert (Hget : getitem s vs = Ret p s).
  { rewrite <- getitem_norm. fold a. fold vs'. by rewrite getitem_in_range. }
  destruct (np_any_ne vs p) eqn:Ene.
  - exists (S n1), rs1. split.
    + apply Forall2_same_length_lookup. split.
      { rewrite <- (Forall2_length _ _ _ H2). unfold p. by rewrite length_map. }
      intros k x r Hk Hkr. apply is_root_of_child.
      apply (Forall2_lookup_lr _ _ _ k _ _ H2); [|done].
      unfold p. change (map ?f vs') with (f <$> vs'). by rewrite list_lookup_fmap, Hk.
    + intros fuel Hfuel. destruct fuel as [|fuel]; [lia|].
      rewrite root_unfold, Hget. simpl. rewrite Ene. apply Hrun1. lia.
  - apply np_any_ne_false in Ene; [|unfold p, vs'; by rewrite !length_map].
    assert (Evs : vs' = vs).
    { unfold vs'. rewrite <- (map_id vs) at 2. apply map_ext_in. intros x Hx.
      apply norm_id. rewrite Ene in Hx. rewrite Forall_forall in Hp.
      by apply Hp, list_elem_of_In. }
    exists O, vs. split.
    + fold vs'. rewrite Evs. apply Forall_Forall2_diag.
      assert (Hroots : Forall (is_root a) vs).
      { apply map_parent_fixed. rewrite <- Evs at 1. fold p. by rewrite <- Ene. }
      eapply Forall_impl; [exact Hroots|]. intros x Hx. by apply is_root_of_refl.
    + intros fuel _. rewrite root_unfold, Hget. simpl. by rewrite <- Ene, np_any_ne_refl.
Qed.

(** The same for the compressing lookups: they return, leaving a compressed
    array. *)
Lemma rpc_indexable (s : state) (vs : list Z) (pc_type : string) :
  valid_forest (id_updated s) ->
  Forall (fun v => ~ out_of_bounds (id_updated s) v) vs ->
  compression_mode pc_type ->
  exists (n : nat) (rs a' : list Z),
    compresses (id_updated s) a' /\
    forall fuel, (n <= fuel)%nat ->
      _root_path_compression fuel s vs pc_type = Ret rs (set_id_updated s a').
Proof.
  intros Hf Hvs Hmode. pose proof Hf as [Hwf _]. set (a := id_updated s) in *.
  set (vs' := map (norm (length a)) vs).
  assert (Hr' : Forall (in_range a) vs') by (by apply Forall_norm_in_range).
  set (p := map (parent a) vs').
  assert (Hp : Forall (in_range a) p) by (by apply Forall_map_in_range).
  assert (Hget : getitem s vs = Ret p s).
  { rewrite <- getitem_norm. fold a. fold vs'. by rewrite getitem_in_range. }
  destruct Hmode as [-> | ->].
  - (* path halving *)
    destruct (lookup_spec s vs' "path_halving" Hf Hr') as (n0 & rs0 & a0 & _ & Hc0 & _ & Hrun0);
      [by left|].
    unfold _root_path_compression. simpl.
    destruct (np_any_ne vs p) eqn:Ene.
    + destruct (np_any_ne vs' p) eqn:Ene'.
      * exists (S n0), rs0, a0. split; [done|]. intros fuel Hfuel.
        destruct (Hrun0 fuel) as [_ E]; [lia|]. unfold _root_path_compression in E.
        simpl in E. rewrite <- E. destruct fuel as [|fuel]; [lia|].
        rewrite (halving_unfold (S fuel) s vs), (halving_unfold (S fuel) s vs').
        rewrite Hget, getitem_in_range by done. fold a. fold p. simpl.
        rewrite Ene, Ene'. rewrite getitem_in_range by done. simpl.
        rewrite <- (setitem_norm s vs). fold a. fold vs'.
        destruct (setitem s vs' (map (parent a) p)) as [u s1|e s1|] eqn:Eset; simpl; try done.
        rewrite <- (getitem_norm s1 vs), (setitem_length _ _ _ _ _ Eset). done.
      * apply np_any_ne_false in Ene'; [|unfold p; by rewrite length_map].
        exists 1%nat, vs', a. split; [apply compresses_refl|]. intros fuel Hfuel.
        destruct fuel as [|fuel]; [lia|].
        rewrite halving_unfold, Hget. simpl. rewrite Ene.
        rewrite getitem_in_range by done. fold a. simpl.
        rewrite <- (setitem_norm s vs). fold a. fold vs'.
        rewrite setitem_same_shape by (unfold p; by rewrite !length_map).
        fold a.
        assert (Epp : map (parent a) p = p) by (unfold p at 2; by rewrite <- Ene').
        rewrite Epp. unfold p at 1. rewrite np_put_same by done. simpl.
        rewrite set_id_updated_same, Hget. simpl.
        rewrite halving_unfold, getitem_in_range by done. simpl. fold a.
        by rewrite Epp, np_any_ne_refl, Ene'.
    + exists O, vs, a. split; [apply compresses_refl|]. intros fuel _.
      rewrite halving_unfold, Hget. simpl. by rewrite Ene, set_id_updated_same.
  - (* full compression *)
    destruct (root_indexable s vs Hf Hvs) as (n0 & rs & H2 & Hrun0).
    fold a in H2. fold vs' in H2.
    unfold _root_path_compression. simpl.
    destruct (np_any_ne vs rs) eqn:Ene.
    + destruct (np_put_compresses a vs' rs) as (a1 & Hput & Hc & _); [done| |].
      { eapply Forall2_impl; [exact H2|]. intros x r Hxr. by apply root_of_ancestor. }
      pose proof (compresses_forest a a1 Hf Hc) as Hf1.
      assert (Hp1 : Forall (in_range a1) p)
        by (apply (Forall_in_range_length a); [apply Hc|done]).
      destruct (forest_depth_bound a1 p Hf1 Hp1) as [d Hd].
      destruct (full_pc_spec s d a1 p rs Hf1 Hp1 Hd) as (a' & Hc' & _ & Hrun).
      { apply Forall2_fmap_l. rewrite Forall_forall in Hr'.
        apply Forall2_same_length_lookup. split; [by eapply Forall2_length|].
        intros k x r Hk1 Hk2.
        apply (compresses_root_of a); [done|done| |].
        - apply parent_in_range; [done|]. apply Hr', list_elem_of_lookup. eauto.
        - apply is_root_of_parent. exact (Forall2_lookup_lr _ _ _ _ _ _ H2 Hk1 Hk2). }
      exists (n0 `max` S d)%nat, rs, a'. split; [by apply (compresses_trans a a1)|].
      intros fuel Hfuel. rewrite Hrun0 by lia. simpl.
      destruct fuel as [|fuel]; [lia|].
      rewrite full_pc_unfold, Ene, Hget. simpl.
      rewrite <- (setitem_norm s vs). fold a. fold vs'.
      rewrite setitem_same_shape by (symmetry; by eapply Forall2_length).
      fold a. rewrite Hput. simpl. rewrite Hrun by lia. done.
    + exists n0, rs, a. split; [apply compresses_refl|]. intros fuel Hfuel.
      rewrite Hrun0 by done. simpl. rewrite full_pc_unfold, Ene. simpl.
      by rewrite set_id_updated_same.
Qed.

#[local] Instance out_of_bounds_dec (a : list Z) (v : Z) : Decision (out_of_bounds a v).
Proof. unfold out_of_bounds. apply _. Defined.

Lemma getitem_out_of_bounds (s : state) (vs : list Z) :
  Exists (out_of_bounds (id_updated s)) vs -> getitem s vs = Raise IndexError s.
Proof.
  intros H. apply Exists_exists in H as (v & Hv & Hoob).
  unfold getitem. rewrite (np_take_None _ vs v); [done|done|]. by apply np_index_None.
Qed.

Lemma root_out_of_bounds (fuel : nat) (s : state) (vs : list Z) :
  Exists (out_of_bounds (id_updated s)) vs -> _root fuel s vs = Raise IndexError s.
Proof. intros H. by rewrite root_unfold, getitem_out_of_bounds. Qed.

Lemma rpc_out_of_bounds (fuel : nat) (s : state) (vs : list Z) (pc_type : string) :
  compression_mode pc_type ->
  Exists (out_of_bounds (id_updated s)) vs ->
  _root_path_compression fuel s vs pc_type = Raise IndexError s.
Proof.
  intros [-> | ->] H; unfold _root_path_compression; simpl.
  - by rewrite halving_unfold, getitem_out_of_bounds.
  - by rewrite root_out_of_bounds.
Qed.

Lemma Exists_out_of_bounds_length (a a' : list Z) (vs : list Z) :
  length a' = length a -> Exists (out_of_bounds a) vs -> Exists (out_of_bounds a') vs.
Proof.
  intros Hl H. eapply Exists_impl; [exact H|]. intros v Hv.
  unfold out_of_bounds in *. by rewrite Hl.
Qed.

(** The lookup that opens a union fails when a batch holds an id out of
    bounds: at once if it is in minor, after the lookup of minor otherwise. *)
Lemma both_roots_out_of_bounds (s : state) (minor main : list Z) (pc : bool) (pc_type : string) :
  valid_forest (id_updated s) ->
  compression_mode pc_type ->
  Exists (out_of_bounds (id_updated s)) (minor ++ main) ->
  exists (n : nat) (s' : state), forall fuel, (n <= fuel)%nat ->
    both_roots fuel s minor main pc pc_type = Raise IndexError s'.
Proof.
  intros Hf Hmode H. apply Exists_app in H.
  destruct (decide (Exists (out_of_bounds (id_updated s)) minor)) as [Hmi|Hmi].
  - exists O, s. intros fuel _. unfold both_roots. destruct pc.
    + by rewrite rpc_out_of_bounds.
    + by rewrite root_out_of_bounds.
  - destruct H as [H|Hma]; [done|]. apply not_Exists_Forall in Hmi; [|apply _].
    destruct pc.
    + destruct (rpc_indexable s minor pc_type Hf Hmi Hmode) as (n & rs & a' & Hc & Hrun).
      exists n, (set_id_updated s a'). intros fuel Hfuel. unfold both_roots.
      rewrite Hrun by done. simpl. rewrite rpc_out_of_bounds; [done|done|].
      simpl. apply (Exists_out_of_bounds_length (id_updated s)); [apply Hc|done].
    + destruct (root_indexable s minor Hf Hmi) as (n & rs & _ & Hrun).
      exists n, s. intros fuel Hfuel. unfold both_roots.
      rewrite Hrun by done. simpl. by rewrite root_out_of_bounds.
Qed.




(** ** Graphs given by adjacency lists *)

Lemma adj_in_rangeb_sound (adj_list : list (list Z)) :
  adj_in_rangeb adj_list = true -> adj_in_range adj_list.
Proof.
  unfold adj_in_rangeb. rewrite forallb_forall. intros H u v (Hu & nbrs & Hn & Hv).
  assert (Hin : In nbrs adj_list) by (apply list_elem_of_In, list_elem_of_lookup; eauto).
  specialize (H nbrs Hin). rewrite forallb_forall in H.
  apply list_elem_of_In, H in Hv. apply andb_true_iff in Hv. unfold vertex. lia.
Qed.

Lemma adj_symmetricb_sound (adj_list : list (list Z)) :
  adj_in_range adj_list -> adj_symmetricb adj_list = true -> adj_symmetric adj_list.
Proof.
  unfold adj_symmetricb. rewrite forallb_forall. intros Hr H u v Huv.
  pose proof (Hr u v Huv) as Hv. destruct Huv as (Hu & nbrs & Hn & Hvn).
  specialize (H u). rewrite forallb_forall in H.
  assert (Hua : In u (arange (length adj_list))) by (by apply list_elem_of_In, arange_elem).
  specialize (H Hua v). rewrite Hn in H. simpl in H.
  apply list_elem_of_In in Hvn. specialize (H Hvn).
  apply existsb_exists in H as (u' & Hu' & E). apply Z.eqb_eq in E. subst u'.
  split; [done|]. destruct (adj_list !! Z.to_nat v) as [nv|] eqn:Ev; [|done].
  exists nv. split; [done|]. by apply list_elem_of_In.
Qed.

(** *** Label arrays *)

Lemma np_get_label (roots : list Z) (v : Z) :
  vertex (length roots) v -> np_get roots v = Some (label roots v).
Proof.
  intros Hv. unfold label. rewrite np_get_in_range by exact Hv.
  destruct (roots !! Z.to_nat v) eqn:E; [done|].
  apply lookup_ge_None in E. unfold vertex in Hv. lia.
Qed.

Lemma label_lookup (roots : list Z) (i : nat) (l : Z) :
  roots !! i = Some l -> label roots (Z.of_nat i) = l.
Proof.
  intros H. pose proof (lookup_lt_Some _ _ _ H).
  unfold label. rewrite np_get_in_range by (unfold in_range; lia).
  by rewrite Nat2Z.id, H.
Qed.

Lemma label_insert (roots : list Z) (k v x : Z) :
  vertex (length roots) k -> vertex (length roots) v ->
  label (<[Z.to_nat k := x]> roots) v = if decide (v = k) then x else label roots v.
Proof.
  intros Hk Hv. unfold label, vertex in *.
  rewrite !np_get_in_range by (unfold in_range; rewrite ?length_insert; lia).
  destruct (decide (v = k)) as [->|Hne].
  - by rewrite list_lookup_insert_eq by lia.
  - by rewrite list_lookup_insert_ne by lia.
Qed.

Lemma label_replicate (n : nat) (v : Z) : label (replicate n (-1)) v = -1.
Proof.
  unfold label, np_get. destruct (np_index _ v) as [k|] eqn:E; [|done].
  apply np_index_lt in E. rewrite length_replicate in E.
  by rewrite lookup_replicate_2.
Qed.

Lemma unvisited_le_length (roots : list Z) : (unvisited roots <= length roots)%nat.
Proof. induction roots as [|l roots IH]; simpl; [done|]. destruct (l =? -1); lia. Qed.

Lemma unvisited_insert (roots : list Z) (i : nat) (x : Z) :
  roots !! i = Some (-1) -> x <> -1 ->
  (unvisited (<[i:=x]> roots) + 1 = unvisited roots)%nat.
Proof.
  revert i. induction roots as [|l roots IH]; intros [|i] H Hx; simpl in *; try done.
  - injection H as ->. simpl. apply Z.eqb_neq in Hx. rewrite Hx. lia.
  - specialize (IH i H Hx). destruct (l =? -1); lia.
Qed.

Lemma unvisited_mono (roots roots' : list Z) :
  Forall2 (fun l l' => l <> -1 -> l' <> -1) roots roots' ->
  (unvisited roots' <= unvisited roots)%nat.
Proof.
  induction 1 as [|l l' roots roots' Hl _ IH]; simpl; [done|].
  destruct (Z.eqb_spec l (-1)) as [E|E], (Z.eqb_spec l' (-1)) as [E'|E']; lia.
Qed.

Lemma unvisited_keep (roots roots' : list Z) :
  length roots' = length roots ->
  (forall v, vertex (length roots) v -> label roots v <> -1 -> label roots' v = label roots v) ->
  (unvisited roots' <= unvisited roots)%nat.
Proof.
  intros Hl Hk. apply unvisited_mono, Forall2_same_length_lookup. split; [done|].
  intros i l l' Hi Hi' Hne. pose proof (lookup_lt_Some _ _ _ Hi).
  rewrite <- (label_lookup _ _ _ Hi'), Hk; rewrite ?(label_lookup _ _ _ Hi); try done.
  unfold vertex. lia.
Qed.

(** *** The recursive visit *)

Section labeler.

Variable adj_list : list (list Z).
Hypothesis adj_ok : adj_in_range adj_list.

#[local] Abbreviation N := (length adj_list).

Lemma for_x_spec (visit : list Z -> Z -> result) (now : Z) (d : nat) :
  now <> -1 ->
  (forall roots x, length roots = N -> vertex N x -> label roots x = -1 ->
     (unvisited roots <= d)%nat ->
     exists roots', visit roots x = Labels roots' /\ visit_post adj_list roots roots' now x) ->
  forall xs roots, length roots = N -> Forall (vertex N) xs ->
    (unvisited roots <= d)%nat ->
    exists roots', for_x visit xs roots = Labels roots' /\ loop_post adj_list roots roots' now xs.
Proof.
  intros Hnow Hvisit. induction xs as [|x xs IH]; intros roots Hlen Hxs Hd.
  - exists roots. split; [done|]. split; [done|]. split; [done|]. split; [by right + left|].
    split; [intros x Hx; by apply elem_of_nil in Hx|]. split.
    + intros v _ E1 E2. congruence.
    + intros v w _ E1 E2. congruence.
  - apply Forall_cons in Hxs as [Hx Hxs]. simpl.
    rewrite np_get_label by (by rewrite Hlen).
    destruct (label roots x =? -1) eqn:El.
    + apply Z.eqb_eq in El.
      destruct (Hvisit roots x Hlen Hx El Hd)
        as (r1 & -> & Hl1 & Hk1 & Hn1 & Hx1 & Hr1 & Hc1).
      destruct (IH r1) as (r2 & Hrun & Hl2 & Hk2 & Hn2 & Hv2 & Hr2 & Hc2);
        [congruence|done| |].
      { etrans; [|exact Hd]. apply unvisited_keep; [done|]. by rewrite Hlen. }
      exists r2. split; [done|]. split; [congruence|].
      assert (Hkeep1 : forall v, vertex N v -> label r1 v = now -> label r2 v = now).
      { intros v Hv E. rewrite Hk2; [done|done|congruence]. }
      split. { intros v Hv Hne. rewrite Hk2; [by apply Hk1|done|]. by rewrite Hk1. }
      split. { intros v Hv E. destruct (Hn1 v Hv E) as [E1|E1].
               - by apply Hn2.
               - right. by apply Hkeep1. }
      split. { intros y Hy. apply elem_of_cons in Hy as [->|Hy]; [|by apply Hv2].
               rewrite Hkeep1; done. }
      split.
      * intros v Hv E E'. destruct (Hn1 v Hv E) as [E1|E1].
        -- destruct (Hr2 v Hv E1 E') as (y & Hy & Hyv). exists y. split; [by right|done].
        -- exists x. split; [by left|]. by apply Hr1.
      * intros v w Hv E E' Hvw. destruct (Hn1 v Hv E) as [E1|E1].
        -- by apply (Hc2 v w).
        -- pose proof (Hc1 v w Hv E E1 Hvw) as Hw.
           rewrite Hk2; [done|by apply (adj_ok v w)|done].
    + apply Z.eqb_neq in El.
      destruct (IH roots Hlen Hxs Hd) as (r2 & Hrun & Hl2 & Hk2 & Hn2 & Hv2 & Hr2 & Hc2).
      exists r2. split; [done|]. split; [done|]. split; [done|]. split; [done|].
      split. { intros y Hy. apply elem_of_cons in Hy as [->|Hy]; [|by apply Hv2].
               by rewrite Hk2. }
      split; [|done].
      intros v Hv E E'. destruct (Hr2 v Hv E E') as (y & Hy & Hyv).
      exists y. split; [by right|done].
Qed.

Lemma adj_get_vertex (k : Z) :
  vertex N k -> exists nbrs, adj_get adj_list k = Some nbrs /\
                             adj_list !! Z.to_nat k = Some nbrs.
Proof.
  intros Hk. unfold adj_get. rewrite np_index_in_range by exact Hk.
  destruct (adj_list !! Z.to_nat k) as [nbrs|] eqn:E; [by exists nbrs|].
  apply lookup_ge_None in E. unfold vertex in Hk. lia.
Qed.

Lemma visit_spec (d : nat) :
  forall roots now k,
    length roots = N -> vertex N k -> label roots k = -1 -> now <> -1 ->
    (unvisited roots <= d)%nat ->
    exists roots', _visit_for_depth_first_search d adj_list roots now k = Labels roots'
                   /\ visit_post adj_list roots roots' now k.
Proof.
  induction d as [|d IH]; intros roots now k Hlen Hk El Hnow Hd.
  - exfalso. pose proof (np_get_label roots k) as E. rewrite Hlen in E. specialize (E Hk).
    rewrite np_get_in_range in E by (unfold in_range; by rewrite Hlen).
    rewrite El in E. pose proof (unvisited_insert roots (Z.to_nat k) 0 E). lia.
  - simpl. rewrite np_index_in_range by (by rewrite Hlen).
    set (r1 := <[Z.to_nat k := now]> roots).
    destruct (adj_get_vertex k Hk) as (nbrs & -> & Hnbrs).
    assert (Hlen1 : length r1 = N) by (unfold r1; by rewrite length_insert).
    assert (Hlab1 : forall v, vertex N v -> label r1 v = if decide (v = k) then now else label roots v).
    { intros v Hv. apply label_insert; by rewrite Hlen. }
    assert (Hd1 : (unvisited r1 <= d)%nat).
    { pose proof (np_get_label roots k) as E. rewrite Hlen in E. specialize (E Hk).
      rewrite np_get_in_range in E by (unfold in_range; by rewrite Hlen).
      rewrite El in E. pose proof (unvisited_insert roots (Z.to_nat k) now E Hnow).
      fold r1 in H. lia. }
    destruct (for_x_spec
                (fun roots x => _visit_for_depth_first_search d adj_list roots now x)
                now d Hnow) with (xs := nbrs) (roots := r1)
      as (r2 & Hrun & Hl2 & Hk2 & Hn2 & Hv2 & Hr2 & Hc2); [|done| |done|].
    { intros r x Hr Hx Ex Hdx. by apply IH. }
    { apply Forall_forall. intros x Hx. apply (adj_ok k x). split; [done|]. by exists nbrs. }
    exists r2. split; [done|]. split; [congruence|].
    assert (Hk' : label r2 k = now).
    { rewrite Hk2; [|done|]; rewrite Hlab1 by done; by rewrite decide_True. }
    split. { intros v Hv Hne. assert (v <> k) by congruence.
             rewrite Hk2; [|done|]; rewrite Hlab1 by done; by rewrite decide_False. }
    split. { intros v Hv E. destruct (decide (v = k)) as [->|Hne]; [by right|].
             apply Hn2; [done|]. rewrite Hlab1 by done. by rewrite decide_False. }
    split; [done|]. split.
    + intros v Hv E E'. destruct (decide (v = k)) as [->|Hne]; [apply rtc_refl|].
      destruct (Hr2 v Hv) as (x & Hx & Hxv); [|done|].
      { rewrite Hlab1 by done. by rewrite decide_False. }
      eapply rtc_l; [|exact Hxv]. split; [done|]. by exists nbrs.
    + intros v w Hv E E' Hvw. destruct (decide (v = k)) as [->|Hne].
      * destruct Hvw as (_ & nb & Hnb & Hw). apply Hv2. congruence.
      * apply (Hc2 v w); [done| |done|done]. rewrite Hlab1 by done. by rewrite decide_False.
Qed.

End labeler.

Section scan.

Variable adj_list : list (list Z).
Hypothesis adj_ok : adj_in_range adj_list.
Hypothesis adj_sym : adj_symmetric adj_list.

#[local] Abbreviation N := (length adj_list).

Lemma reachable_sym (u v : Z) : reachable adj_list u v -> reachable adj_list v u.
Proof.
  induction 1 as [|u w v Huw _ IH]; [apply rtc_refl|].
  eapply rtc_r; [exact IH|]. by apply adj_sym.
Qed.

Lemma reachable_vertex (u v : Z) :
  vertex N u -> reachable adj_list u v -> vertex N v.
Proof. intros Hu H. induction H as [|u w v Huw _ IH]; [done|]. apply IH. by apply (adj_ok u). Qed.

Lemma scan_inv_visit (roots roots' : list Z) (now i : Z) :
  scan_inv adj_list roots now -> vertex N i -> label roots i = -1 ->
  visit_post adj_list roots roots' (now + 1) i ->
  scan_inv adj_list roots' (now + 1).
Proof.
  intros (Hlen & Hnow & Hrange & Hused & Hclosed & Hconn) Hi Ei
         (Hl' & Hkeep & Hnew & Hi' & Hreach & Hcl).
  split; [congruence|]. split; [lia|].
  assert (Hold : forall v, vertex N v -> label roots' v <> -1 -> label roots' v <> now + 1 ->
            label roots v <> -1 /\ label roots' v = label roots v).
  { intros v Hv H1 H2. destruct (decide (label roots v = -1)) as [E|E].
    - destruct (Hnew v Hv E); congruence.
    - split; [done|]. by apply Hkeep. }
  assert (Hfresh : forall v, vertex N v -> label roots' v = now + 1 -> label roots v = -1).
  { intros v Hv E. destruct (decide (label roots v = -1)) as [|Hne]; [done|].
    rewrite (Hkeep v Hv Hne) in E. destruct (Hrange v Hv); lia. }
  split.
  { intros v Hv. destruct (decide (label roots v = -1)) as [E|E].
    - destruct (Hnew v Hv E) as [->| ->]; [by left|right; lia].
    - rewrite (Hkeep v Hv E). destruct (Hrange v Hv); [done|right; lia]. }
  split.
  { intros c Hc. destruct (decide (c = now + 1)) as [->|Hne].
    - by exists i.
    - destruct (Hused c) as (v & Hv & E); [lia|]. exists v. split; [done|].
      rewrite Hkeep; [done|done|lia]. }
  split.
  { intros v w Hv Hne Hvw. pose proof (adj_ok v w Hvw) as Hw.
    destruct (decide (label roots v = -1)) as [E|E].
    - assert (E' : label roots' v = now + 1) by (destruct (Hnew v Hv E); congruence).
      pose proof (Hcl v w Hv E E' Hvw) as Hw'.
      destruct (decide (label roots w = -1)) as [Ew|Ew].
      + destruct (Hnew w Hw Ew); congruence.
      + exfalso. pose proof (Hclosed w v Hw Ew (adj_sym v w Hvw)). congruence.
    - rewrite (Hkeep v Hv E). pose proof (Hclosed v w Hv E Hvw) as Ew.
      rewrite Hkeep; [done|done|congruence]. }
  intros u v Hu Hv Hne Euv.
  destruct (decide (label roots' u = now + 1)) as [E|E].
  - unfold reachable. etrans; [|].
    + apply reachable_sym, (Hreach u); [done|by apply Hfresh|done].
    + apply (Hreach v); [done|apply Hfresh; [done|congruence]|congruence].
  - destruct (Hold u Hu Hne E) as [Hu1 Hu2].
    destruct (Hold v Hv) as [Hv1 Hv2]; [congruence..|].
    apply Hconn; [done|done|done|congruence].
Qed.

Lemma for_i_spec (depth : nat) :
  (N <= depth)%nat ->
  forall ids roots now,
    scan_inv adj_list roots now -> Forall (vertex N) ids ->
    exists roots' now',
      for_i depth adj_list ids now roots = Labels roots' /\
      scan_inv adj_list roots' now' /\
      (forall v, vertex N v -> label roots v <> -1 -> label roots' v <> -1) /\
      (forall i, i ∈ ids -> label roots' i <> -1).
Proof.
  intros Hdepth. induction ids as [|i ids IH]; intros roots now Hinv Hids.
  - exists roots, now. split; [done|]. split; [done|]. split; [done|].
    intros i Hi. by apply elem_of_nil in Hi.
  - apply Forall_cons in Hids as [Hi Hids]. simpl.
    pose proof Hinv as (Hlen & Hnow & _).
    rewrite np_get_label by (by rewrite Hlen).
    destruct (label roots i =? -1) eqn:El.
    + apply Z.eqb_eq in El.
      destruct (visit_spec adj_list adj_ok depth roots (now + 1) i)
        as (r1 & -> & Hpost); [done|done|done|lia| |].
      { etrans; [apply unvisited_le_length|]. by rewrite Hlen. }
      pose proof (scan_inv_visit roots r1 now i Hinv Hi El Hpost) as Hinv1.
      destruct Hpost as (Hl1 & Hk1 & _ & Hi1 & _).
      destruct (IH r1 (now + 1) Hinv1 Hids) as (r2 & now2 & Hrun & Hinv2 & Hk2 & Hv2).
      exists r2, now2. split; [done|]. split; [done|]. split.
      * intros v Hv Hne. apply Hk2; [done|]. by rewrite Hk1.
      * intros j Hj. apply elem_of_cons in Hj as [->|Hj]; [|by apply Hv2].
        apply Hk2; [done|]. rewrite Hi1. lia.
    + apply Z.eqb_neq in El.
      destruct (IH roots now Hinv Hids) as (r2 & now2 & Hrun & Hinv2 & Hk2 & Hv2).
      exists r2, now2. split; [done|]. split; [done|]. split; [done|].
      intros j Hj. apply elem_of_cons in Hj as [->|Hj]; [|by apply Hv2].
      by apply Hk2.
Qed.

End scan.

Lemma scan_inv_init (adj_list : list (list Z)) :
  scan_inv adj_list (replicate (length adj_list) (-1)) (-1).
Proof.
  split; [apply length_replicate|]. split; [done|].
  split; [intros v _; left; apply label_replicate|].
  split; [intros c Hc; lia|].
  split; intros ? ? ?; rewrite label_replicate; done.
Qed.

Lemma Forall_vertex_arange (n : nat) : Forall (vertex n) (arange n).
Proof.
  apply Forall_forall. intros v Hv. apply list_elem_of_In, in_map_iff in Hv as (k & <- & Hk).
  apply in_seq in Hk. unfold vertex. lia.
Qed.

(** C9, as stated, fails on an adjacency list that lists an edge in one
    direction only: with lists [[], [0]] vertex 0 is reachable from vertex 1,
    and the two get different labels. *)
Lemma C9_counterexample :
  depth_first_search 5 [[]; [0]] = Labels [0; 1] /\
  reachable [[]; [0]] 1 0 /\
  label [0; 1] 1 <> label [0; 1] 0.
Proof.
  split; [vm_compute; reflexivity|]. split; [|vm_compute; discriminate].
  apply rtc_once. split; [unfold vertex; simpl; lia|].
  exists [0]. split; [done|]. by left.
Qed.

(** C9 (amended).  For an adjacency list over N vertices whose listed
    neighbours are all vertices and which lists every edge in both
    directions, the labeler (given room for N nested calls) returns an array
    of N labels; with K the number of labels used, every vertex has a label in
    [0, K), every label in [0, K) is the label of some vertex, and two
    vertices have the same label if and only if one is reachable from the
    other along the listed edges. *)
Theorem C9_labeler_partition (adj_list : list (list Z)) (depth : nat) :
  adj_in_range adj_list ->
  adj_symmetric adj_list ->
  (length adj_list <= depth)%nat ->
  exists (roots : list Z) (K : Z),
    depth_first_search depth adj_list = Labels roots /\
    length roots = length adj_list /\
    (forall v, vertex (length adj_list) v -> 0 <= label roots v < K) /\
    (forall c, 0 <= c < K -> exists v, vertex (length adj_list) v /\ label roots v = c) /\
    (forall u v, vertex (length adj_list) u -> vertex (length adj_list) v ->
       (label roots u = label roots v
        <-> reachable adj_list u v \/ reachable adj_list v u)).
Proof.
  intros Hok Hsym Hdepth.
  destruct (for_i_spec adj_list Hok Hsym depth Hdepth (arange (length adj_list))
              (replicate (length adj_list) (-1)) (-1))
    as (roots & now & Hrun & (Hlen & Hnow & Hrange & Hused & Hclosed & Hconn) & _ & Hall).
  { apply scan_inv_init. }
  { apply Forall_vertex_arange. }
  assert (Hlab : forall v, vertex (length adj_list) v -> label roots v <> -1).
  { intros v Hv. by apply Hall, arange_elem. }
  assert (Hpath : forall u v, vertex (length adj_list) u -> reachable adj_list u v ->
            label roots v = label roots u).
  { intros u v Hu H. induction H as [|u w v Huw _ IH]; [done|].
    rewrite IH by (by apply (Hok u)). apply Hclosed; [done|by apply Hlab|done]. }
  exists roots, (now + 1). split; [exact Hrun|]. split; [done|]. split.
  { intros v Hv. destruct (Hrange v Hv) as [E|E]; [by apply Hlab in E|lia]. }
  split. { intros c Hc. apply Hused. lia. }
  intros u v Hu Hv. split.
  - intros E. left. apply Hconn; [done|done|by apply Hlab|done].
  - intros [H|H]; [symmetry|]; by apply Hpath.
Qed.

Lemma C9_labeler_partition_witness :
  exists (roots : list Z) (K : Z),
    depth_first_search 11
      [[1; 2]; [0]; [0]; [4; 5]; [3; 9]; [3]; [9]; []; [9; 10]; [4; 6; 8]; [8]]
    = Labels roots /\
    length roots = 11%nat /\
    (forall v, vertex 11 v -> 0 <= label roots v < K) /\
    (forall c, 0 <= c < K -> exists v, vertex 11 v /\ label roots v = c) /\
    (forall u v, vertex 11 u -> vertex 11 v ->
       (label roots u = label roots v
        <-> reachable [[1; 2]; [0]; [0]; [4; 5]; [3; 9]; [3]; [9]; []; [9; 10]; [4; 6; 8]; [8]] u v
            \/ reachable [[1; 2]; [0]; [0]; [4; 5]; [3; 9]; [3]; [9]; []; [9; 10]; [4; 6; 8]; [8]] v u)).
Proof.
  apply (C9_labeler_partition
           [[1; 2]; [0]; [0]; [4; 5]; [3; 9]; [3]; [9]; []; [9; 10]; [4; 6; 8]; [8]] 11).
  - apply adj_in_rangeb_sound. vm_compute. reflexivity.
  - apply adj_symmetricb_sound; [apply adj_in_rangeb_sound|]; vm_compute; reflexivity.
  - simpl. lia.
Defined.

(** * Further properties of the engine *)

Lemma Forall_reach_succ (a : list Z) (vs : list Z) (d : nat) :
  Forall (fun v => reach a v (S d)) vs <-> Forall (fun v => reach a v d) (map (parent a) vs).
Proof.
  rewrite Forall_map. apply Forall_iff. intros v. unfold reach. simpl.
  by rewrite <- iter_succ_r.
Qed.

(** X1.  The plain lookup and its loop count.  On an array whose entries are
    vertices and a batch of in-range ids, [_root] run for at most [fuel]
    iterations returns exactly when every id of the batch is within [fuel]
    parent links of a self-parented vertex, and then it returns the vertices
    [fuel] links up; otherwise the loop is still running.  In particular it
    never finishes on a vertex that leads into a cycle. *)
Theorem X1_root_iterations (fuel : nat) (s : state) (vs : list Z) :
  wf_parents (id_updated s) ->
  Forall (in_range (id_updated s)) vs ->
  (Forall (fun v => reach (id_updated s) v fuel) vs ->
   _root fuel s vs = Ret (map (Nat.iter fuel (parent (id_updated s))) vs) s)
  /\ (~ Forall (fun v => reach (id_updated s) v fuel) vs ->
      _root fuel s vs = OutOfFuel).
Proof.
  intros Hwf Hr. split; [intros Hd; by apply root_spec|].
  revert vs Hr. induction fuel as [|fuel IH]; intros vs Hr Hn;
    rewrite root_unfold, getitem_in_range by done; simpl;
    destruct (np_any_ne vs (map (parent (id_updated s)) vs)) eqn:Ene; try done.
  - exfalso. apply Hn. apply np_any_ne_false in Ene; [|by rewrite length_map].
    symmetry in Ene. by apply map_parent_fixed in Ene.
  - apply IH; [by apply Forall_map_in_range|]. by rewrite <- Forall_reach_succ.
  - exfalso. apply Hn. apply np_any_ne_false in Ene; [|by rewrite length_map].
    symmetry in Ene. apply map_parent_fixed in Ene.
    eapply Forall_impl; [exact Ene|]. intros v Hv. apply (reach_mono _ v O); [done|lia].
Qed.

Lemma X1_root_iterations_witness :
  (Forall (fun v => reach [1; 0; 1] v 5) [2] ->
   _root 5 (init [1; 0; 1]) [2] = Ret (map (Nat.iter 5 (parent [1; 0; 1])) [2]) (init [1; 0; 1]))
  /\ (~ Forall (fun v => reach [1; 0; 1] v 5) [2] ->
      _root 5 (init [1; 0; 1]) [2] = OutOfFuel).
Proof.
  apply (X1_root_iterations 5 (init [1; 0; 1]) [2]).
  - simpl. unfold wf_parents. in_range_batch.
  - simpl. in_range_batch.
Defined.

(** X2.  Path compression never changes connectivity.  On a valid forest and
    in-range ids, the compressing lookup in either mode returns the roots of
    the batch and leaves an array of the same length that is again a valid
    forest in which every vertex, looked up or not, has the root it had;
    after full compression every id of the batch is a child of its root. *)
Theorem X2_compression_keeps_roots (s : state) (vs : list Z) (pc_type : string) :
  valid_forest (id_updated s) ->
  Forall (in_range (id_updated s)) vs ->
  compression_mode pc_type ->
  exists (n : nat) (rs a' : list Z),
    (forall fuel, (n <= fuel)%nat ->
       _root_path_compression fuel s vs pc_type = Ret rs (set_id_updated s a')) /\
    Forall2 (is_root_of (id_updated s)) vs rs /\
    length a' = length (id_updated s) /\
    valid_forest a' /\
    (forall v r, in_range (id_updated s) v ->
       (is_root_of a' v r <-> is_root_of (id_updated s) v r)) /\
    (pc_type = "full_pc"%string -> map (parent a') vs = rs).
Proof.
  intros Hf Hr Hmode.
  destruct (lookup_spec s vs pc_type Hf Hr Hmode) as (n & rs & a' & H2 & Hc & Hpost & Hrun).
  exists n, rs, a'. split; [intros fuel Hfuel; by apply Hrun|].
  split; [done|]. split; [apply Hc|]. split; [by apply (compresses_forest (id_updated s))|].
  split.
  - intros v r Hv. split.
    + by apply compresses_root_of_inv.
    + apply compresses_root_of; [apply Hf|done|done].
  - intros E. specialize (Hpost E).
    apply list_eq_same_length with (length vs);
      [symmetry; by eapply Forall2_length|by rewrite length_map|].
    intros k p r Hk Hp Hrk. change (map ?f vs) with (f <$> vs) in Hp.
    rewrite list_lookup_fmap in Hp. destruct (vs !! k) as [x|] eqn:Ex; [|done].
    simpl in Hp. injection Hp as <-.
    apply Hpost; [apply list_elem_of_lookup; eauto|].
    exact (Forall2_lookup_lr _ _ _ _ _ _ H2 Ex Hrk).
Qed.

Lemma X2_compression_keeps_roots_witness :
  exists (n : nat) (rs a' : list Z),
    (forall fuel, (n <= fuel)%nat ->
       _root_path_compression fuel (init scenario) [10; 6] "path_halving"
       = Ret rs (set_id_updated (init scenario) a')) /\
    Forall2 (is_root_of scenario) [10; 6] rs /\
    length a' = length scenario /\
    valid_forest a' /\
    (forall v r, in_range scenario v -> (is_root_of a' v r <-> is_root_of scenario v r)) /\
    ("path_halving"%string = "full_pc"%string -> map (parent a') [10; 6] = rs).
Proof.
  apply (X2_compression_keeps_roots (init scenario) [10; 6] "path_halving").
  - apply valid_forestb_sound. vm_compute. reflexivity.
  - simpl. in_range_batch.
  - left. reflexivity.
Defined.

(** X3.  [find_root] flattens what it tests.  On a valid forest and in-range
    ids, with either flag and mode, after [find_root(ids)] reading
    [id_updated[ids]] gives the roots of the ids, and every vertex of the
    graph still has the root it had. *)
Theorem X3_find_root_flattens (s : state) (vs : list Z) (pc : bool) (pc_type : string) :
  valid_forest (id_updated s) ->
  Forall (in_range (id_updated s)) vs ->
  compression_mode pc_type ->
  exists (n : nat) (rs : list Z) (s' : state),
    (forall fuel, (n <= fuel)%nat -> find_root fuel s vs pc pc_type = Ret tt s') /\
    getitem s' vs = Ret rs s' /\
    Forall2 (is_root_of (id_updated s)) vs rs /\
    (forall v r, in_range (id_updated s) v ->
       (is_root_of (id_updated s') v r <-> is_root_of (id_updated s) v r)).
Proof.
  intros Hf Hr Hmode.
  destruct (find_root_spec s vs pc pc_type Hf Hr Hmode) as (n & a' & Hc & Hpost & _ & Hrun).
  destruct (lookup_spec s vs pc_type Hf Hr Hmode) as (_ & rs & _ & H2 & _).
  exists n, rs, (set_id_updated s a'). split; [done|]. split.
  - rewrite getitem_set by (apply (Forall_in_range_length (id_updated s)); [apply Hc|done]).
    f_equal. apply list_eq_same_length with (length vs);
      [symmetry; by eapply Forall2_length|by rewrite length_map|].
    intros k p r Hk Hp Hrk. change (map ?f vs) with (f <$> vs) in Hp.
    rewrite list_lookup_fmap in Hp. destruct (vs !! k) as [x|] eqn:Ex; [|done].
    simpl in Hp. injection Hp as <-.
    apply Hpost; [apply list_elem_of_lookup; eauto|].
    exact (Forall2_lookup_lr _ _ _ _ _ _ H2 Ex Hrk).
  - split; [done|]. intros v r Hv. simpl. split.
    + by apply compresses_root_of_inv.
    + apply compresses_root_of; [apply Hf|done|done].
Qed.

Lemma X3_find_root_flattens_witness :
  exists (n : nat) (rs : list Z) (s' : state),
    (forall fuel, (n <= fuel)%nat ->
       find_root fuel (init scenario) [2; 10; 7] true "path_halving" = Ret tt s') /\
    getitem s' [2; 10; 7] = Ret rs s' /\
    Forall2 (is_root_of scenario) [2; 10; 7] rs /\
    (forall v r, in_range scenario v ->
       (is_root_of (id_updated s') v r <-> is_root_of scenario v r)).
Proof.
  apply (X3_find_root_flattens (init scenario) [2; 10; 7] true "path_halving").
  - apply valid_forestb_sound. vm_compute. reflexivity.
  - simpl. in_range_batch.
  - left. reflexivity.
Defined.

(** X4.  An unrecognised compression type is not rejected.  With
    [path_compression=True] and a type that is neither 'path_halving' nor
    'full_pc', the lookup inside [find_root] returns the tested ids
    themselves, so [find_root(ids)] makes every tested id its own parent (a
    root, cut off from its tree) and leaves the other entries as they were. *)
Theorem X4_find_root_unknown_type (fuel : nat) (s : state) (vs : list Z) (pc_type : string) :
  pc_type <> "path_halving"%string -> pc_type <> "full_pc"%string ->
  Forall (in_range (id_updated s)) vs ->
  exists a',
    find_root fuel s vs true pc_type = Ret tt (set_id_updated s a') /\
    length a' = length (id_updated s) /\
    (forall x, x ∈ vs -> is_root a' x) /\
    (forall x, in_range (id_updated s) x -> x ∉ vs -> parent a' x = parent (id_updated s) x).
Proof.
  intros H1 H2 Hr. apply String.eqb_neq in H1, H2.
  destruct (np_put_spec (id_updated s) vs vs Hr eq_refl) as (a' & Hput & Hl & Hspec).
  exists a'. split.
  { unfold find_root, _root_path_compression. rewrite H1, H2. simpl.
    rewrite setitem_same_shape by done. by rewrite Hput. }
  split; [done|]. split.
  - intros x Hx. rewrite Forall_forall in Hr.
    destruct (Hspec x (Hr x Hx)) as [[Hni _]|(k & Hk1 & Hk2)]; [done|].
    unfold is_root. congruence.
  - intros x Hx Hni. destruct (Hspec x Hx) as [[_ E]|(k & Hk1 & _)]; [done|].
    exfalso. apply Hni, list_elem_of_lookup. eauto.
Qed.

Lemma X4_find_root_unknown_type_witness :
  exists a',
    find_root 0 (init scenario) [10; 9] true "halving" = Ret tt (set_id_updated (init scenario) a') /\
    length a' = length scenario /\
    (forall x, x ∈ [10; 9] -> is_root a' x) /\
    (forall x, in_range scenario x -> x ∉ [10; 9] -> parent a' x = parent scenario x).
Proof.
  apply (X4_find_root_unknown_type 0 (init scenario) [10; 9] "halving").
  - discriminate.
  - discriminate.
  - simpl. in_range_batch.
Defined.

(** X5.  A union of one pair merges exactly two trees.  On a valid forest,
    for in-range ids [x] and [y] with roots [rx] and [ry],
    [build_quick_union([x],[y])] with either flag and mode returns and leaves
    a valid forest in which every vertex whose root was [rx] has root [ry],
    and every other vertex has the root it had: the root of main is kept. *)
Theorem X5_union_merges_two_trees (s : state) (x y rx ry : Z) (pc : bool) (pc_type : string) :
  valid_forest (id_updated s) ->
  in_range (id_updated s) x -> in_range (id_updated s) y ->
  is_root_of (id_updated s) x rx -> is_root_of (id_updated s) y ry ->
  compression_mode pc_type ->
  exists (n : nat) (a' : list Z),
    (forall fuel, (n <= fuel)%nat ->
       build_quick_union fuel s [x] [y] pc pc_type = Ret tt (set_id_updated s a')) /\
    valid_forest a' /\
    (forall v r, in_range (id_updated s) v -> is_root_of (id_updated s) v r ->
       is_root_of a' v (if decide (r = rx) then ry else r)).
Proof.
  intros Hf Hx Hy Hrx Hry Hmode. pose proof Hf as [Hwf _]. set (a := id_updated s) in *.
  assert (Hbatch : batch_connected a [x] [y] \/ batch_separate a [x] [y]).
  { destruct (decide (rx = ry)) as [->|Hne].
    - left. constructor; [by exists ry|constructor].
    - right. intros u v Hu Hv (r & Hur & Hvr).
      apply list_elem_of_singleton in Hu, Hv. subst u v.
      apply Hne. by rewrite (is_root_of_unique a x _ _ Hrx Hur), (is_root_of_unique a y _ _ Hry Hvr). }
  destruct (union_spec s [x] [y] pc pc_type Hf) as
    (n & ri & rj & a2 & a' & ws & Hri & Hrj & Hc & _ & _ & Hl & Hcase & _ & Hrun);
    [by constructor|by constructor|done|done|done|].
  fold a in Hri, Hrj, Hc.
  apply Forall2_singleton_l in Hri as (i & -> & Hi).
  apply Forall2_singleton_l in Hrj as (j & -> & Hj).
  pose proof (is_root_of_unique a x _ _ Hi Hrx) as ->.
  pose proof (is_root_of_unique a y _ _ Hj Hry) as ->.
  pose proof (compresses_forest a a2 Hf Hc) as Hf2.
  exists n, a'. split; [done|]. split; [by apply (links_forest a2 a' ws)|].
  intros v r Hv Hvr.
  assert (Hv2 : in_range a2 v) by (apply (in_range_length a); [apply Hc|done]).
  pose proof (compresses_root_of a a2 v r Hwf Hc Hv Hvr) as Hvr2.
  pose proof (links_root_of a2 a' ws v r (proj1 Hf2) Hl Hv2 Hvr2) as H.
  destruct Hcase as [[E ->]|[-> Hwritten]].
  - injection E as ->. rewrite decide_False in H by apply not_elem_of_nil.
    by destruct (decide (r = ry)) as [->|].
  - destruct (decide (r = rx)) as [->|Hne].
    + rewrite decide_True in H by (by left).
      destruct (Hwritten rx) as (l & Hl1 & Hl2); [by left|].
      apply list_lookup_singleton_Some in Hl1 as [-> _]. simpl in Hl2. congruence.
    + rewrite decide_False in H; [done|]. intros Hin.
      by apply list_elem_of_singleton in Hin.
Qed.

Lemma X5_union_merges_two_trees_witness :
  exists (n : nat) (a' : list Z),
    (forall fuel, (n <= fuel)%nat ->
       build_quick_union fuel (init scenario) [2] [10] true "path_halving"
       = Ret tt (set_id_updated (init scenario) a')) /\
    valid_forest a' /\
    (forall v r, in_range scenario v -> is_root_of scenario v r ->
       is_root_of a' v (if decide (r = 0) then 3 else r)).
Proof.
  apply (X5_union_merges_two_trees (init scenario) 2 10 0 3 true "path_halving").
  - apply valid_forestb_sound. vm_compute. reflexivity.
  - unfold in_range. simpl. lia.
  - unfold in_range. simpl. lia.
  - apply (root_fn_root_of scenario 2); vm_compute; reflexivity.
  - apply (root_fn_root_of scenario 10); vm_compute; reflexivity.
  - left. reflexivity.
Defined.

(** X6.  On an engine that has no [size] and no [roots] attribute (every
    engine that only its own methods have touched), the weighted union never
    attaches anything.  On a valid forest and in-range int ids with roots
    [rx] and [ry]: if the roots are equal the call returns, otherwise it
    raises TypeError from the [find_root] call that passes [pc_type]; either
    way the only writes are those of the two lookups (a compressed array),
    and the engine still has no [size] and no [roots]. *)
Theorem X6_weighted_union_fresh_engine (s : state) (x y rx ry : Z)
    (pc : bool) (pc_type : string) :
  valid_forest (id_updated s) ->
  in_range (id_updated s) x -> in_range (id_updated s) y ->
  is_root_of (id_updated s) x rx -> is_root_of (id_updated s) y ry ->
  compression_mode pc_type ->
  roots s = None -> size s = None ->
  exists (n : nat) (a2 : list Z),
    compresses (id_updated s) a2 /\
    (pc = false -> a2 = id_updated s) /\
    forall fuel, (n <= fuel)%nat ->
      build_weighted_quick_union fuel s (PyInt x) (PyInt y) pc pc_type
      = if rx =? ry then Ret tt (mkState a2 None None)
        else Raise (TypeError "find_root() got an unexpected keyword argument")
               (mkState a2 None None).
Proof.
  intros Hf Hx Hy Hrx Hry Hmode Hroots Hsize.
  destruct (both_roots_spec s [x] [y] pc pc_type) as (n & ri & rj & a2 & Hri & Hrj & Hc & Hpc & Hrun);
    [done|by constructor|by constructor|done|].
  apply Forall2_singleton_l in Hri as (i & -> & Hi).
  apply Forall2_singleton_l in Hrj as (j & -> & Hj).
  pose proof (is_root_of_unique _ x _ _ Hi Hrx) as ->.
  pose proof (is_root_of_unique _ y _ _ Hj Hry) as ->.
  exists n, a2. split; [done|]. split; [done|]. intros fuel Hfuel.
  unfold build_weighted_quick_union, weighted_union_with_keyword.
  rewrite Hrun by done. simpl. unfold set_id_updated. rewrite Hroots, Hsize.
  destruct (rx =? ry); [done|]. rewrite ensure_size_src. done.
Qed.

Lemma X6_weighted_union_fresh_engine_witness :
  exists (n : nat) (a2 : list Z),
    compresses scenario a2 /\
    (true = false -> a2 = scenario) /\
    forall fuel, (n <= fuel)%nat ->
      build_weighted_quick_union fuel (init scenario) (PyInt 10) (PyInt 1) true "full_pc"
      = if 3 =? 0 then Ret tt (mkState a2 None None)
        else Raise (TypeError "find_root() got an unexpected keyword argument")
               (mkState a2 None None).
Proof.
  apply (X6_weighted_union_fresh_engine (init scenario) 10 1 3 0 true "full_pc").
  - apply valid_forestb_sound. vm_compute. reflexivity.
  - unfold in_range. simpl. lia.
  - unfold in_range. simpl. lia.
  - apply (root_fn_root_of scenario 10); vm_compute; reflexivity.
  - apply (root_fn_root_of scenario 1); vm_compute; reflexivity.
  - right. reflexivity.
  - reflexivity.
  - reflexivity.
Defined.

(** ** The size table *)

Lemma elem_of_np_where_eq (row : list Z) (x : Z) (k0 i : nat) :
  i ∈ np_where_eq row x k0 <-> exists q, i = (k0 + q)%nat /\ row !! q = Some x.
Proof.
  revert k0. induction row as [|y row IH]; intros k0; simpl.
  - split; [intros H; by apply elem_of_nil in H|by intros (q & _ & ?)].
  - destruct (Z.eqb_spec y x) as [->|Hne].
    + rewrite elem_of_cons, IH. split.
      * intros [->|(q & -> & Hq)]; [exists O; split; [lia|done]|exists (S q); split; [lia|done]].
      * intros ([|q] & -> & Hq); [left; lia|right; exists q; split; [lia|done]].
    + rewrite IH. split.
      * intros (q & -> & Hq). exists (S q). split; [lia|done].
      * intros ([|q] & -> & Hq); [simpl in Hq; congruence|exists q; split; [lia|done]].
Qed.

Lemma np_where_eq_single (tbl : list (Z * Z)) (r : Z) (k : nat) :
  np_where_eq (map fst tbl) r 0 = [k] ->
  (exists c, tbl !! k = Some (r, c)) /\
  (forall q c, tbl !! q = Some (r, c) -> q = k).
Proof.
  intros H.
  assert (Hk : forall i, i ∈ [k] <-> map fst tbl !! i = Some r).
  { intros i. rewrite <- H, elem_of_np_where_eq. split.
    - by intros (q & -> & Hq).
    - intros Hq. by exists i. }
  split.
  - assert (Hin : map fst tbl !! k = Some r) by (apply Hk; by left).
    change (map fst tbl) with (fst <$> tbl) in Hin. rewrite list_lookup_fmap in Hin.
    destruct (tbl !! k) as [[r' c]|] eqn:E; [|done]. simpl in Hin. injection Hin as ->.
    by exists c.
  - intros q c Hq. assert (Hin : q ∈ [k]).
    { apply Hk. change (map fst tbl) with (fst <$> tbl). by rewrite list_lookup_fmap, Hq. }
    by apply list_elem_of_singleton in Hin.
Qed.

Lemma table_total_alter (tbl : list (Z * Z)) (k : nat) (c : Z * Z) (d : Z) :
  tbl !! k = Some c ->
  table_total (alter (fun c => (fst c, snd c + d)) k tbl) = table_total tbl + d.
Proof.
  revert k. induction tbl as [|c0 tbl IH]; intros [|k] H; try done.
  - simpl. lia.
  - specialize (IH k H). unfold table_total in *. cbn in *. lia.
Qed.

Lemma table_total_delete (tbl : list (Z * Z)) (k : nat) (c : Z * Z) :
  tbl !! k = Some c -> table_total (delete k tbl) = table_total tbl - snd c.
Proof.
  revert k. induction tbl as [|c0 tbl IH]; intros [|k] H; try done.
  - injection H as ->. change (delete 0%nat (c :: tbl)) with tbl.
    unfold table_total. simpl. lia.
  - specialize (IH k H). change (delete (S k) (c0 :: tbl)) with (c0 :: delete k tbl).
    unfold table_total in *. simpl in *. lia.
Qed.

Lemma size_index_single (s : state) (tbl : list (Z * Z)) (r : Z) (k : nat) :
  np_where_eq (map fst tbl) r 0 = [k] -> size_index s tbl r = Ret k s.
Proof. intros H. unfold size_index. by rewrite H. Qed.

(** The bookkeeping of one attachment on a table that has one column for
    each of the two roots. *)
Lemma attach_table (tbl : list (Z * Z)) (lo hi clo chi : Z) (klo khi : nat) :
  tbl !! klo = Some (lo, clo) -> tbl !! khi = Some (hi, chi) ->
  (forall q c, tbl !! q = Some (lo, c) -> q = klo) ->
  lo <> hi ->
  let tbl' := delete klo (alter (fun c => (fst c, snd c + clo)) khi tbl) in
  table_total tbl' = table_total tbl /\
  (length tbl' + 1 = length tbl)%nat /\
  (lo ∉ map fst tbl') /\
  (hi, chi + clo) ∈ tbl'.
Proof.
  intros Hlo Hhi Huniq Hne tbl'.
  assert (Hk : klo <> khi) by (intros ->; congruence).
  set (t1 := alter (fun c => (fst c, snd c + clo)) khi tbl).
  assert (Hlo1 : t1 !! klo = Some (lo, clo)).
  { unfold t1. by rewrite list_lookup_alter_ne by done. }
  assert (Hhi1 : t1 !! khi = Some (hi, chi + clo)).
  { unfold t1. by rewrite list_lookup_alter_eq, Hhi. }
  assert (Hfst : forall q c, t1 !! q = Some (lo, c) -> q = klo).
  { intros q c Hq. unfold t1 in Hq. destruct (decide (q = khi)) as [->|Hq'].
    - rewrite list_lookup_alter_eq, Hhi in Hq. simpl in Hq. congruence.
    - rewrite list_lookup_alter_ne in Hq by done. by apply (Huniq q c). }
  split; [|split; [|split]].
  - unfold tbl'. fold t1. rewrite (table_total_delete t1 klo _ Hlo1). unfold t1.
    rewrite (table_total_alter tbl khi _ clo Hhi). simpl. lia.
  - unfold tbl'. fold t1. pose proof (lookup_lt_Some _ _ _ Hlo1) as Hlt.
    rewrite length_delete by eauto. unfold t1 in *. rewrite length_alter in *. lia.
  - intros Hin. apply list_elem_of_fmap in Hin as ([r c] & E & Hin). simpl in E. subst r.
    apply list_elem_of_lookup in Hin as [q Hq]. unfold tbl' in Hq. fold t1 in Hq.
    destruct (decide (q < klo)%nat) as [Hlt|Hge].
    + rewrite list_lookup_delete_lt in Hq by done. apply Hfst in Hq. lia.
    + rewrite list_lookup_delete_ge in Hq by lia. apply Hfst in Hq. lia.
  - apply list_elem_of_lookup. unfold tbl'. fold t1.
    destruct (decide (khi < klo)%nat) as [Hlt|Hge].
    + exists khi. by rewrite list_lookup_delete_lt.
    + exists (khi - 1)%nat. rewrite list_lookup_delete_ge by lia.
      replace (S (khi - 1)) with khi by lia. done.
Qed.

Lemma attach_ret (s : state) (tbl : list (Z * Z)) (lo hi : Z) (klo khi : nat) :
  in_range (id_updated s) lo -> roots s <> None ->
  exists s', attach s tbl lo hi klo khi = Ret tt s' /\
    size s' = Some (delete klo (alter (fun c => (fst c, snd c + snd (tbl !!! klo))) khi tbl)).
Proof.
  intros Hlo Hroots. unfold attach. rewrite setitem_single by done. simpl.
  unfold roots_relabel. simpl. destruct (roots s) as [[|r]|]; [| |done]; simpl; eauto.
Qed.



(** ** What the lookups and the plain union leave alone *)

Lemma same_frame_refl (s : state) : same_frame s s.
Proof. by repeat split. Qed.

Lemma same_frame_trans (s1 s2 s3 : state) :
  same_frame s1 s2 -> same_frame s2 s3 -> same_frame s1 s3.
Proof. intros (? & ? & ?) (? & ? & ?). repeat split; congruence. Qed.

Lemma keeps_frame_bind {A B} (s0 : state) (m : outcome A) (k : A -> state -> outcome B) :
  keeps_frame s0 m ->
  (forall a s, same_frame s0 s -> keeps_frame s0 (k a s)) ->
  keeps_frame s0 (bind m k).
Proof.
  intros Hm Hk. destruct m as [a s|e s|]; simpl; [|done|done].
  apply Hk. by apply Hm.
Qed.

Lemma keeps_frame_getitem (s0 s : state) (idx : list Z) :
  same_frame s0 s -> keeps_frame s0 (getitem s idx).
Proof. intros H s'. unfold getitem. destruct (np_take _ _); simpl; congruence. Qed.

Lemma keeps_frame_setitem (s0 s : state) (idx vals : list Z) :
  same_frame s0 s -> keeps_frame s0 (setitem s idx vals).
Proof.
  intros H s'. unfold setitem. destruct (_ || _); [|simpl; congruence].
  destruct (np_put _ _ _) as [a'|] eqn:E; simpl; [|congruence].
  intros [= <-]. apply (same_frame_trans s0 s); [done|].
  split; [by apply np_put_length in E|done].
Qed.

Lemma root_state (fuel : nat) (s : state) (vs : list Z) (s' : state) :
  final_state (_root fuel s vs) = Some s' -> s' = s.
Proof.
  revert vs. induction fuel as [|fuel IH]; intros vs; simpl; unfold getitem;
    destruct (np_take _ _) as [p|]; simpl; try congruence;
    destruct (np_any_ne vs p); simpl; try congruence.
  apply IH.
Qed.

Lemma keeps_frame_root (fuel : nat) (s0 s : state) (vs : list Z) :
  same_frame s0 s -> keeps_frame s0 (_root fuel s vs).
Proof. intros H s' Hs'. apply root_state in Hs'. by subst. Qed.

Lemma keeps_frame_halving (fuel : nat) (s0 : state) :
  forall s vs, same_frame s0 s -> keeps_frame s0 (halving_loop fuel s vs).
Proof.
  induction fuel as [|fuel IH]; intros s vs H; simpl;
    (apply keeps_frame_bind; [by apply keeps_frame_getitem|]);
    intros p s1 H1; destruct (np_any_ne vs p); try (intros s'; simpl; congruence).
  apply keeps_frame_bind; [by apply keeps_frame_getitem|]. intros g s2 H2.
  apply keeps_frame_bind; [by apply keeps_frame_setitem|]. intros _ s3 H3.
  apply keeps_frame_bind; [by apply keeps_frame_getitem|]. intros v' s4 H4. by apply IH.
Qed.

Lemma keeps_frame_full_pc (fuel : nat) (s0 : state) (w : list Z) :
  forall s vs, same_frame s0 s -> keeps_frame s0 (full_pc_loop fuel s vs w).
Proof.
  induction fuel as [|fuel IH]; intros s vs H; simpl;
    destruct (np_any_ne vs w); try (intros s'; simpl; congruence).
  apply keeps_frame_bind; [by apply keeps_frame_getitem|]. intros g s2 H2.
  apply keeps_frame_bind; [by apply keeps_frame_setitem|]. intros _ s3 H3. by apply IH.
Qed.

Lemma keeps_frame_rpc (fuel : nat) (s0 s : state) (vs : list Z) (pc_type : string) :
  same_frame s0 s -> keeps_frame s0 (_root_path_compression fuel s vs pc_type).
Proof.
  intros H. unfold _root_path_compression.
  destruct (String.eqb _ _); [by apply keeps_frame_halving|].
  destruct (String.eqb _ _); [|intros s'; simpl; congruence].
  apply keeps_frame_bind; [by apply keeps_frame_root|]. intros r s1 H1.
  apply keeps_frame_bind; [by apply keeps_frame_full_pc|]. intros _ s2 H2.
  intros s'; simpl; congruence.
Qed.

(** X8.  Whatever the state and the arguments (valid forest or not, ids in
    range or not, any mode string), and whether they return or raise: the
    plain lookup leaves the whole state as it was; the compressing lookup,
    [find_root] and [build_quick_union] leave a parent array of the same
    length and do not touch [self.roots] and [self.size].  As the docstring of
    [build_quick_union] notes, a size table is not updated by that method. *)
Theorem X8_size_table_untouched (fuel : nat) (s : state) (vs minor main : list Z)
    (pc : bool) (pc_type : string) :
  (forall s', final_state (_root fuel s vs) = Some s' -> s' = s) /\
  keeps_frame s (_root_path_compression fuel s vs pc_type) /\
  keeps_frame s (find_root fuel s vs pc pc_type) /\
  keeps_frame s (build_quick_union fuel s minor main pc pc_type).
Proof.
  pose proof (same_frame_refl s) as H0.
  split; [intros s'; apply root_state|]. split; [by apply keeps_frame_rpc|]. split.
  - unfold find_root. destruct pc.
    + apply keeps_frame_bind; [by apply keeps_frame_rpc|]. intros r s1 H1.
      by apply keeps_frame_setitem.
    + apply keeps_frame_bind; [by apply keeps_frame_root|]. intros r s1 H1.
      by apply keeps_frame_setitem.
  - unfold build_quick_union. apply keeps_frame_bind.
    + unfold both_roots. destruct pc.
      * apply keeps_frame_bind; [by apply keeps_frame_rpc|]. intros i s1 H1.
        apply keeps_frame_bind; [by apply keeps_frame_rpc|]. intros j s2 H2.
        intros s'; simpl; congruence.
      * apply keeps_frame_bind; [by apply keeps_frame_root|]. intros i s1 H1.
        apply keeps_frame_bind; [by apply keeps_frame_root|]. intros j s2 H2.
        intros s'; simpl; congruence.
    + intros ij s1 H1. destruct (np_all_eq _ _); [intros s'; simpl; congruence|].
      by apply keeps_frame_setitem.
Qed.

(** X9.  Negative ids are aliases.  On a valid forest of N vertices, for a
    batch of ids in [-N, N) the plain lookup returns the roots of the
    vertices the ids denote (id + N for a negative id) and keeps the state;
    the compressing lookup in either mode returns too and leaves a compressed
    array. *)
Theorem X9_negative_ids_alias (s : state) (vs : list Z) (pc_type : string) :
  valid_forest (id_updated s) ->
  Forall (fun v => - Z.of_nat (length (id_updated s)) <= v < Z.of_nat (length (id_updated s))) vs ->
  compression_mode pc_type ->
  exists (n : nat) (rs rs' a' : list Z),
    Forall2 (is_root_of (id_updated s))
      (map (fun v => if v <? 0 then v + Z.of_nat (length (id_updated s)) else v) vs) rs /\
    compresses (id_updated s) a' /\
    forall fuel, (n <= fuel)%nat ->
      _root fuel s vs = Ret rs s /\
      _root_path_compression fuel s vs pc_type = Ret rs' (set_id_updated s a').
Proof.
  intros Hf Hvs Hmode.
  assert (Hvs' : Forall (fun v => ~ out_of_bounds (id_updated s) v) vs).
  { eapply Forall_impl; [exact Hvs|]. intros v Hv. unfold out_of_bounds. cbv beta in Hv. lia. }
  destruct (root_indexable s vs Hf Hvs') as (n1 & rs & H2 & Hrun1).
  destruct (rpc_indexable s vs pc_type Hf Hvs' Hmode) as (n2 & rs' & a' & Hc & Hrun2).
  exists (n1 `max` n2)%nat, rs, rs', a'. split.
  - replace (map (fun v => if v <? 0 then v + Z.of_nat (length (id_updated s)) else v) vs)
      with (map (norm (length (id_updated s))) vs); [done|].
    apply map_ext_in. intros v Hv. rewrite Forall_forall in Hvs.
    apply list_elem_of_In, Hvs in Hv. cbv beta in Hv. unfold norm, np_index.
    destruct (Z.ltb_spec v 0).
    + destruct (Z.leb_spec 0 v); [lia|]. simpl.
      destruct (Z.leb_spec (- Z.of_nat (length (id_updated s))) v); [|lia]. simpl. lia.
    + destruct (Z.leb_spec 0 v); [|lia].
      destruct (Z.ltb_spec v (Z.of_nat (length (id_updated s)))); [|lia]. simpl. lia.
  - split; [done|]. intros fuel Hfuel. split; [apply Hrun1; lia|apply Hrun2; lia].
Qed.

Lemma X9_negative_ids_alias_witness :
  exists (n : nat) (rs rs' a' : list Z),
    Forall2 (is_root_of scenario)
      (map (fun v => if v <? 0 then v + Z.of_nat (length scenario) else v) [-1; 2; -11]) rs /\
    compresses scenario a' /\
    forall fuel, (n <= fuel)%nat ->
      _root fuel (init scenario) [-1; 2; -11] = Ret rs (init scenario) /\
      _root_path_compression fuel (init scenario) [-1; 2; -11] "full_pc"
      = Ret rs' (set_id_updated (init scenario) a').
Proof.
  apply (X9_negative_ids_alias (init scenario) [-1; 2; -11] "full_pc").
  - apply valid_forestb_sound. vm_compute. reflexivity.
  - simpl. repeat (apply List.Forall_cons; [lia|]). apply List.Forall_nil.
  - right. reflexivity.
Defined.

(** * Further properties of the labeler *)

Section directed_scan.

Variable adj_list : list (list Z).
Hypothesis adj_ok : adj_in_range adj_list.

#[local] Abbreviation N := (length adj_list).

Lemma directed_scan_visit (roots roots' : list Z) (now i : Z) :
  directed_scan_inv adj_list roots now i -> vertex N i -> label roots i = -1 ->
  visit_post adj_list roots roots' (now + 1) i ->
  directed_scan_inv adj_list roots' (now + 1) (i + 1).
Proof.
  intros (Hlen & Hnow & Hrange & Hfirst & Hedge & Hdone) Hi Ei
         (Hl' & Hkeep & Hnew & Hi' & Hreach & Hcl).
  assert (Hfresh : forall v, vertex N v -> label roots' v = now + 1 -> label roots v = -1).
  { intros v Hv E. destruct (decide (label roots v = -1)) as [|Hne]; [done|].
    rewrite (Hkeep v Hv Hne) in E. destruct (Hrange v Hv); lia. }
  assert (Hold : forall v, vertex N v -> label roots' v <> now + 1 -> label roots' v <> -1 ->
            label roots v <> -1 /\ label roots' v = label roots v).
  { intros v Hv H1 H2. destruct (decide (label roots v = -1)) as [E|E].
    - destruct (Hnew v Hv E); congruence.
    - split; [done|]. by apply Hkeep. }
  assert (Hrange' : forall v, vertex N v ->
            label roots' v = -1 \/ 0 <= label roots' v <= now + 1).
  { intros v Hv. destruct (decide (label roots v = -1)) as [E|E].
    - destruct (Hnew v Hv E) as [->| ->]; [by left|right; lia].
    - rewrite (Hkeep v Hv E). destruct (Hrange v Hv); [done|right; lia]. }
  assert (Hbefore : forall u, 0 <= u < i -> vertex N u).
  { intros u Hu. unfold vertex in *. lia. }
  split; [congruence|]. split; [lia|]. split; [done|]. split.
  { intros c Hc. destruct (decide (c = now + 1)) as [->|Hne].
    - exists i. split; [done|]. split; [done|]. split.
      + intros v Hv E. apply Hreach; [done|by apply Hfresh|done].
      + intros u Hu. pose proof (Hdone u Hu) as Hne.
        rewrite (Hkeep u (Hbefore u Hu) Hne). split; [done|].
        destruct (Hrange u (Hbefore u Hu)); lia.
    - destruct (Hfirst c) as (s & Hs & Es & Hsr & Hsb); [lia|].
      exists s. split; [done|]. split; [rewrite Hkeep; [done|done|lia]|]. split.
      + intros v Hv E. destruct (Hold v Hv) as [_ E']; [lia|lia|]. apply Hsr; [done|congruence].
      + intros u Hu. destruct (Hsb u Hu) as [Hu1 Hu2].
        assert (Hvu : vertex N u) by (unfold vertex in *; lia).
        rewrite (Hkeep u Hvu Hu1). done. }
  split.
  { intros v w Hv Hne Hvw. pose proof (adj_ok v w Hvw) as Hw.
    destruct (decide (label roots v = -1)) as [E|E].
    - assert (E' : label roots' v = now + 1) by (destruct (Hnew v Hv E); congruence).
      pose proof (Hcl v w Hv E E' Hvw) as Hw'. split; [done|].
      destruct (Hrange' w Hw); lia.
    - destruct (Hedge v w Hv E Hvw) as [Hw1 Hw2].
      rewrite (Hkeep v Hv E), (Hkeep w Hw Hw1). done. }
  intros u Hu. destruct (decide (u = i)) as [->|Hne]; [lia|].
  rewrite Hkeep; [apply Hdone; lia|apply Hbefore; lia|apply Hdone; lia].
Qed.

Lemma directed_scan_skip (roots : list Z) (now i : Z) :
  directed_scan_inv adj_list roots now i -> label roots i <> -1 ->
  directed_scan_inv adj_list roots now (i + 1).
Proof.
  intros (Hlen & Hnow & Hrange & Hfirst & Hedge & Hdone) Hi.
  repeat (split; [done|]). intros u Hu.
  destruct (decide (u = i)) as [->|Hne]; [done|]. apply Hdone. lia.
Qed.

Lemma directed_for_i_spec (depth : nat) :
  (N <= depth)%nat ->
  forall (m i : nat) roots now,
    (i + m = N)%nat ->
    directed_scan_inv adj_list roots now (Z.of_nat i) ->
    exists roots' now',
      for_i depth adj_list (map Z.of_nat (seq i m)) now roots = Labels roots' /\
      directed_scan_inv adj_list roots' now' (Z.of_nat N).
Proof.
  intros Hdepth. induction m as [|m IH]; intros i roots now Him Hinv.
  - exists roots, now. split; [done|]. by replace N with i by lia.
  - simpl. pose proof Hinv as (Hlen & Hnow & _).
    assert (Hi : vertex N (Z.of_nat i)) by (unfold vertex; lia).
    rewrite np_get_label by (by rewrite Hlen).
    destruct (label roots (Z.of_nat i) =? -1) eqn:El.
    + apply Z.eqb_eq in El.
      destruct (visit_spec adj_list adj_ok depth roots (now + 1) (Z.of_nat i))
        as (r1 & -> & Hpost); [done|done|done|lia| |].
      { etrans; [apply unvisited_le_length|]. by rewrite Hlen. }
      pose proof (directed_scan_visit roots r1 now _ Hinv Hi El Hpost) as Hinv1.
      replace (Z.of_nat i + 1) with (Z.of_nat (S i)) in Hinv1 by lia.
      apply (IH (S i) r1 (now + 1)); [lia|done].
    + apply Z.eqb_neq in El.
      pose proof (directed_scan_skip roots now _ Hinv El) as Hinv1.
      replace (Z.of_nat i + 1) with (Z.of_nat (S i)) in Hinv1 by lia.
      apply (IH (S i) roots now); [lia|done].
Qed.

End directed_scan.

Lemma directed_scan_init (adj_list : list (list Z)) :
  directed_scan_inv adj_list (replicate (length adj_list) (-1)) (-1) 0.
Proof.
  split; [apply length_replicate|]. split; [done|].
  split; [intros v _; left; apply label_replicate|].
  split; [intros c Hc; lia|].
  split; [intros ? ? ?; rewrite label_replicate; done|]. intros u Hu. lia.
Qed.

(** X10.  The labeler on adjacency lists that may list an edge in one
    direction only.  When every listed neighbour is a vertex, the labeler
    (given room for N nested calls) returns N labels in [0, K), K being the
    number of labels used; each label c has a first vertex: the lowest vertex
    that carries c, from which every vertex that carries c is reachable, and
    below which all vertices carry smaller labels (so labels are numbered in
    the order of their first vertices, vertex 0 getting label 0); and along a
    listed edge the label never increases. *)
Theorem X10_labeler_directed (adj_list : list (list Z)) (depth : nat) :
  adj_in_range adj_list ->
  (length adj_list <= depth)%nat ->
  exists (roots : list Z) (K : Z),
    depth_first_search depth adj_list = Labels roots /\
    length roots = length adj_list /\
    (forall v, vertex (length adj_list) v -> 0 <= label roots v < K) /\
    (forall c, 0 <= c < K -> exists s, first_of_label adj_list roots c s) /\
    (forall v w, vertex (length adj_list) v -> edge adj_list v w ->
       label roots w <= label roots v).
Proof.
  intros Hok Hdepth.
  destruct (directed_for_i_spec adj_list Hok depth Hdepth (length adj_list) O
              (replicate (length adj_list) (-1)) (-1))
    as (roots & now & Hrun & Hlen & Hnow & Hrange & Hfirst & Hedge & Hdone);
    [done|apply directed_scan_init|].
  exists roots, (now + 1). split; [exact Hrun|]. split; [done|].
  assert (Hlab : forall v, vertex (length adj_list) v -> label roots v <> -1).
  { intros v Hv. apply Hdone. exact Hv. }
  split. { intros v Hv. destruct (Hrange v Hv) as [E|E]; [by apply Hlab in E|lia]. }
  split. { intros c Hc. apply Hfirst. lia. }
  intros v w Hv Hvw. by apply Hedge; [|apply Hlab|].
Qed.

Lemma X10_labeler_directed_witness :
  exists (roots : list Z) (K : Z),
    depth_first_search 3 [[]; [0]; [1]] = Labels roots /\
    length roots = 3%nat /\
    (forall v, vertex 3 v -> 0 <= label roots v < K) /\
    (forall c, 0 <= c < K -> exists s, first_of_label [[]; [0]; [1]] roots c s) /\
    (forall v w, vertex 3 v -> edge [[]; [0]; [1]] v w -> label roots w <= label roots v).
Proof.
  apply (X10_labeler_directed [[]; [0]; [1]] 3).
  - apply adj_in_rangeb_sound. vm_compute. reflexivity.
  - simpl. lia.
Defined.

Section unindexable_neighbour.

Variable adj_list : list (list Z).
Hypothesis adj_plain : adj_no_negative adj_list.

#[local] Abbreviation N := (length adj_list).

Lemma np_get_outside (roots : list Z) (x : Z) :
  length roots = N -> outside N x -> np_get roots x = None.
Proof.
  intros Hlen Hx. unfold np_get.
  assert (E : np_index (length roots) x = None).
  { apply np_index_None. unfold out_of_bounds. rewrite Hlen. exact Hx. }
  by rewrite E.
Qed.

Lemma scanned_post_trans (r0 r1 r2 : list Z) :
  scanned_post adj_list r0 r1 -> scanned_post adj_list r1 r2 -> scanned_post adj_list r0 r2.
Proof.
  intros (Hl1 & Hk1 & Hs1) (Hl2 & Hk2 & Hs2). split; [congruence|]. split.
  - intros v Hv Hne. rewrite Hk2; [by apply Hk1|done|]. by rewrite Hk1.
  - intros v w Hv E Hne Hvw. destruct (decide (label r1 v = -1)) as [E1|E1].
    + by apply (Hs2 v w).
    + by apply (Hs1 v w).
Qed.

Lemma for_x_error_spec (visit : list Z -> Z -> result) (d : nat) :
  (forall roots x, length roots = N -> vertex N x -> label roots x = -1 ->
     (unvisited roots <= d)%nat ->
     (exists roots', visit roots x = Labels roots' /\ scanned_post adj_list roots roots'
                     /\ label roots' x <> -1)
     \/ visit roots x = Error IndexError) ->
  forall xs roots, length roots = N ->
    Forall (fun x => vertex N x \/ outside N x) xs ->
    (unvisited roots <= d)%nat ->
    (exists roots', for_x visit xs roots = Labels roots' /\ scanned_post adj_list roots roots'
                    /\ Forall (vertex N) xs)
    \/ for_x visit xs roots = Error IndexError.
Proof.
  intros Hvisit. induction xs as [|x xs IH]; intros roots Hlen Hxs Hd.
  - left. exists roots. split; [done|]. split; [|constructor].
    split; [done|]. split; [done|]. intros v w _ E Hne. congruence.
  - apply Forall_cons in Hxs as [Hx Hxs]. simpl. destruct Hx as [Hx|Hx].
    + rewrite np_get_label by (by rewrite Hlen).
      destruct (label roots x =? -1) eqn:El.
      * apply Z.eqb_eq in El.
        destruct (Hvisit roots x Hlen Hx El Hd) as [(r1 & -> & Hp1 & _)| ->]; [|by right].
        destruct (IH r1) as [(r2 & -> & Hp2 & Hv2)| ->]; [|done| |left|by right].
        { destruct Hp1 as [Hl1 _]. congruence. }
        { etrans; [|exact Hd]. destruct Hp1 as (Hl1 & Hk1 & _).
          apply unvisited_keep; [done|]. by rewrite Hlen. }
        exists r2. split; [done|]. split; [by apply (scanned_post_trans roots r1)|].
        by constructor.
      * destruct (IH roots Hlen Hxs Hd) as [(r2 & -> & Hp2 & Hv2)| ->]; [left|by right].
        exists r2. split; [done|]. split; [done|]. by constructor.
    + right. by rewrite np_get_outside.
Qed.

Lemma visit_error_spec (d : nat) :
  forall roots now k,
    length roots = N -> vertex N k -> label roots k = -1 -> now <> -1 ->
    (unvisited roots <= d)%nat ->
    (exists roots', _visit_for_depth_first_search d adj_list roots now k = Labels roots'
                    /\ scanned_post adj_list roots roots' /\ label roots' k <> -1)
    \/ _visit_for_depth_first_search d adj_list roots now k = Error IndexError.
Proof.
  induction d as [|d IH]; intros roots now k Hlen Hk El Hnow Hd.
  - exfalso. pose proof (np_get_label roots k) as E. rewrite Hlen in E. specialize (E Hk).
    rewrite np_get_in_range in E by (unfold in_range; by rewrite Hlen).
    rewrite El in E. pose proof (unvisited_insert roots (Z.to_nat k) 0 E). lia.
  - simpl. rewrite np_index_in_range by (by rewrite Hlen).
    set (r1 := <[Z.to_nat k := now]> roots).
    destruct (adj_get_vertex adj_list k Hk) as (nbrs & -> & Hnbrs).
    assert (Hlen1 : length r1 = N) by (unfold r1; by rewrite length_insert).
    assert (Hlab1 : forall v, vertex N v -> label r1 v = if decide (v = k) then now else label roots v).
    { intros v Hv. apply label_insert; by rewrite Hlen. }
    assert (Hd1 : (unvisited r1 <= d)%nat).
    { pose proof (np_get_label roots k) as E. rewrite Hlen in E. specialize (E Hk).
      rewrite np_get_in_range in E by (unfold in_range; by rewrite Hlen).
      rewrite El in E. pose proof (unvisited_insert roots (Z.to_nat k) now E Hnow).
      fold r1 in H. lia. }
    destruct (for_x_error_spec
                (fun roots x => _visit_for_depth_first_search d adj_list roots now x) d)
      with (xs := nbrs) (roots := r1) as [(r2 & -> & (Hl2 & Hk2 & Hs2) & Hv2)| ->];
      [|done| |done|left|by right].
    { intros r x Hr Hx Ex Hdx. by apply IH. }
    { apply Forall_forall. intros x Hx. apply (adj_plain k x). split; [done|]. by exists nbrs. }
    exists r2. split; [done|].
    assert (Hk' : label r2 k <> -1).
    { rewrite Hk2; [|done|]; rewrite Hlab1 by done; by rewrite decide_True. }
    split; [|done]. split; [congruence|]. split.
    + intros v Hv Hne. assert (v <> k) by congruence.
      rewrite Hk2; [|done|]; rewrite Hlab1 by done; by rewrite decide_False.
    + intros v w Hv E Hne Hvw. destruct (decide (v = k)) as [->|Hvk].
      * destruct Hvw as (_ & nb & Hnb & Hw). rewrite Forall_forall in Hv2.
        apply Hv2. congruence.
      * apply (Hs2 v w); [done| |done|done]. rewrite Hlab1 by done. by rewrite decide_False.
Qed.

Lemma for_i_error_spec (depth : nat) :
  (N <= depth)%nat ->
  forall ids roots now,
    length roots = N -> -1 <= now -> Forall (vertex N) ids ->
    (forall v w, vertex N v -> label roots v <> -1 -> edge adj_list v w -> vertex N w) ->
    (exists roots', for_i depth adj_list ids now roots = Labels roots' /\
       (forall v w, vertex N v -> label roots' v <> -1 -> edge adj_list v w -> vertex N w) /\
       (forall v, vertex N v -> label roots v <> -1 -> label roots' v <> -1) /\
       (forall i, i ∈ ids -> label roots' i <> -1))
    \/ for_i depth adj_list ids now roots = Error IndexError.
Proof.
  intros Hdepth. induction ids as [|i ids IH]; intros roots now Hlen Hnow Hids Hsc.
  - left. exists roots. split; [done|]. split; [done|]. split; [done|].
    intros i Hi. by apply elem_of_nil in Hi.
  - apply Forall_cons in Hids as [Hi Hids]. simpl.
    rewrite np_get_label by (by rewrite Hlen).
    destruct (label roots i =? -1) eqn:El.
    + apply Z.eqb_eq in El.
      destruct (visit_error_spec depth roots (now + 1) i)
        as [(r1 & -> & (Hl1 & Hk1 & Hs1) & Hi1)| ->]; [done|done|done|lia| | |by right].
      { etrans; [apply unvisited_le_length|]. by rewrite Hlen. }
      destruct (IH r1 (now + 1)) as [(r2 & -> & Hs2 & Hk2 & Hv2)| ->];
        [congruence|lia|done| |left|by right].
      { intros v w Hv Hne Hvw. destruct (decide (label roots v = -1)) as [E|E].
        - by apply (Hs1 v w).
        - by apply (Hsc v w). }
      exists r2. split; [done|]. split; [done|]. split.
      * intros v Hv Hne. apply Hk2; [done|]. by rewrite Hk1.
      * intros j Hj. apply elem_of_cons in Hj as [->|Hj]; [|by apply Hv2].
        by apply Hk2.
    + apply Z.eqb_neq in El.
      destruct (IH roots now Hlen Hnow Hids Hsc) as [(r2 & -> & Hs2 & Hk2 & Hv2)| ->];
        [left|by right].
      exists r2. split; [done|]. split; [done|]. split; [done|].
      intros j Hj. apply elem_of_cons in Hj as [->|Hj]; [|by apply Hv2].
      by apply Hk2.
Qed.

End unindexable_neighbour.



Section negative_neighbours.

Variable adj_list : list (list Z).

#[local] Abbreviation N := (length adj_list).

Lemma length_normalised : length (normalised adj_list) = N.
Proof. unfold normalised. by rewrite length_map. Qed.

Lemma adj_get_normalised (k : Z) :
  adj_get (normalised adj_list) (norm N k) = map (norm N) <$> adj_get adj_list k.
Proof.
  unfold adj_get. rewrite length_normalised, np_index_norm.
  destruct (np_index N k) as [p|]; [|done]. unfold normalised. by rewrite list_lookup_fmap.
Qed.

Lemma for_x_normalised (visit visit' : list Z -> Z -> result) :
  (forall roots x, length roots = N ->
     visit' roots (norm N x) = visit roots x /\
     forall roots', visit roots x = Labels roots' -> length roots' = N) ->
  forall xs roots, length roots = N ->
    for_x visit' (map (norm N) xs) roots = for_x visit xs roots /\
    forall roots', for_x visit xs roots = Labels roots' -> length roots' = N.
Proof.
  intros Hvisit. induction xs as [|x xs IH]; intros roots Hlen; simpl.
  - split; [done|]. by intros roots' [= <-].
  - rewrite <- Hlen at 1. rewrite np_get_norm.
    destruct (np_get roots x) as [l|]; [|done].
    destruct (l =? -1); [|by apply IH].
    destruct (Hvisit roots x Hlen) as [-> Hl].
    destruct (visit roots x) as [r1| |]; [|done..].
    apply IH. by apply Hl.
Qed.

Lemma visit_normalised (d : nat) :
  forall roots now k, length roots = N ->
    _visit_for_depth_first_search d (normalised adj_list) roots now (norm N k)
    = _visit_for_depth_first_search d adj_list roots now k /\
    forall roots', _visit_for_depth_first_search d adj_list roots now k = Labels roots' ->
      length roots' = N.
Proof.
  induction d as [|d IH]; intros roots now k Hlen; [done|]. simpl.
  rewrite Hlen, np_index_norm, adj_get_normalised.
  destruct (np_index N k) as [p|]; [|done].
  destruct (adj_get adj_list k) as [nbrs|]; [|done]. simpl.
  apply for_x_normalised.
  - intros r x Hr. by apply IH.
  - by rewrite length_insert.
Qed.

Lemma for_i_normalised (depth : nat) :
  forall ids roots now, length roots = N -> Forall (vertex N) ids ->
    for_i depth (normalised adj_list) ids now roots = for_i depth adj_list ids now roots.
Proof.
  induction ids as [|i ids IH]; intros roots now Hlen Hids; [done|].
  apply Forall_cons in Hids as [Hi Hids]. simpl.
  destruct (np_get roots i) as [l|]; [|done].
  destruct (l =? -1); [|by apply IH].
  destruct (visit_normalised depth roots (now + 1) i Hlen) as [E Hl].
  rewrite <- Hlen in E at 1. rewrite norm_id in E by (unfold in_range; by rewrite Hlen).
  rewrite E.
  destruct (_visit_for_depth_first_search depth adj_list roots (now + 1) i) as [r1| |];
    [|done..].
  apply IH; [by apply Hl|done].
Qed.

End negative_neighbours.

(** X12.  Negative neighbour ids are read from the end.  The labeler gives
    the same result (labels, exception or too deep a recursion) on an
    adjacency list as on the list in which every neighbour id [-j] with
    [1 <= j <= N] is replaced by the vertex [N - j]; ids that cannot be
    indexed stay as they are. *)
Theorem X12_labeler_negative_ids (adj_list : list (list Z)) (depth : nat) :
  depth_first_search depth adj_list = depth_first_search depth (normalised adj_list).
Proof.
  unfold depth_first_search. rewrite length_normalised. symmetry.
  apply for_i_normalised; [apply length_replicate|apply Forall_vertex_arange].
Qed.

Lemma occurrences_nonneg (x : Z) (l : list Z) : 0 <= occurrences x l.
Proof. induction l as [|y l IH]; simpl; [lia|]. destruct (y =? x); lia. Qed.

Lemma occurrences_elem (x : Z) (l : list Z) : x ∈ l -> 0 < occurrences x l.
Proof.
  induction l as [|y l IH]; intros H; [by apply elem_of_nil in H|]. simpl.
  pose proof (occurrences_nonneg x l).
  apply elem_of_cons in H as [->|H]; [rewrite Z.eqb_refl; lia|].
  specialize (IH H). destruct (y =? x); lia.
Qed.

Lemma occurrences_relabel (lo hi x : Z) (l : list Z) :
  lo <> hi ->
  occurrences x (relabel lo hi l) =
    if decide (x = lo) then 0
    else if decide (x = hi) then occurrences hi l + occurrences lo l
    else occurrences x l.
Proof.
  intros Hne. induction l as [|y l IH]; simpl.
  - destruct (decide (x = lo)); [done|]. by destruct (decide (x = hi)).
  - fold (relabel lo hi l). rewrite IH.
    destruct (decide (x = lo)) as [->|Hlo]; [|destruct (decide (x = hi)) as [->|Hhi]].
    + destruct (Z.eqb_spec y lo) as [->|Hy].
      * destruct (Z.eqb_spec hi lo); [done|lia].
      * destruct (Z.eqb_spec y lo); [done|lia].
    + destruct (Z.eqb_spec y lo) as [->|Hy].
      * rewrite Z.eqb_refl. destruct (Z.eqb_spec lo hi); [done|]. lia.
      * destruct (Z.eqb_spec y hi); lia.
    + destruct (Z.eqb_spec y lo) as [->|Hy].
      * destruct (Z.eqb_spec hi x); [done|]. destruct (Z.eqb_spec lo x); [done|]. lia.
      * done.
Qed.

(** ** [sp.unique] with counts *)

Lemma count_insert_keys (x : Z) (t : list (Z * Z)) (k : Z) :
  k ∈ map fst (count_insert x t) -> k = x \/ k ∈ map fst t.
Proof.
  induction t as [|[y c0] t IH]; simpl.
  - intros H. apply list_elem_of_singleton in H. by left.
  - destruct (x <? y); [|destruct (Z.eqb_spec x y) as [->|Hne]]; simpl; intros H.
    + apply elem_of_cons in H as [->|H]; [by left|by right].
    + by right.
    + apply elem_of_cons in H as [->|H]; [right; apply elem_of_cons; by left|].
      apply IH in H as [->|H]; [by left|right; apply elem_of_cons; by right].
Qed.

Lemma count_insert_sorted (x : Z) (t : list (Z * Z)) :
  increasing (map fst t) -> increasing (map fst (count_insert x t)).
Proof.
  induction t as [|[y c0] t IH]; simpl; intros Hs.
  - by split.
  - destruct Hs as [Hy Hs].
    destruct (Z.ltb_spec x y) as [Hlt|Hge]; [|destruct (Z.eqb_spec x y) as [->|Hne]]; simpl.
    + split; [|done].
      constructor; [done|]. eapply Forall_impl; [exact Hy|]. intros k Hk. simpl in Hk. lia.
    + done.
    + split; [|by apply IH].
      apply Forall_forall. intros k Hk. apply count_insert_keys in Hk as [->|Hk]; [lia|].
      rewrite Forall_forall in Hy. by apply Hy.
Qed.

Lemma sorted_key_absent (y : Z) (t : list (Z * Z)) (x c : Z) :
  Forall (Z.lt y) (map fst t) -> x <= y -> (x, c) ∉ t.
Proof.
  intros Hy Hx Hin. rewrite Forall_forall in Hy.
  assert (y < x); [|lia]. apply Hy. apply list_elem_of_fmap. by exists (x, c).
Qed.

Lemma count_insert_elem (x : Z) (t : list (Z * Z)) (r c : Z) :
  increasing (map fst t) ->
  (r, c) ∈ count_insert x t <->
  (r <> x /\ (r, c) ∈ t) \/ (r = x /\ ((x, c - 1) ∈ t \/ (c = 1 /\ forall c', (x, c') ∉ t))).
Proof.
  revert r c. induction t as [|[y c0] t IH]; intros r c Hs; simpl.
  - split.
    + intros H. apply list_elem_of_singleton in H. injection H as -> ->.
      right. split; [done|]. right. split; [done|]. intros c' H.
      by apply elem_of_nil in H.
    + intros [[_ H]|[-> [H|[-> _]]]]; [by apply elem_of_nil in H..|].
      by apply list_elem_of_singleton.
  - simpl in Hs. destruct Hs as [Hy Hs].
    pose proof (sorted_key_absent y t) as Habs.
    destruct (Z.ltb_spec x y) as [Hlt|Hge]; [|destruct (Z.eqb_spec x y) as [->|Hne]].
    + assert (Hx : forall c', (x, c') ∉ (y, c0) :: t).
      { intros c' H. apply elem_of_cons in H as [H|H]; [injection H as ? ?; lia|].
        apply (Habs x c'); [done|lia|done]. }
      split.
      * intros H. apply elem_of_cons in H as [H|H].
        -- injection H as -> ->. right. split; [done|]. right. by split.
        -- left. split; [|done]. intros ->. by apply (Hx c).
      * intros [[_ H]|[-> [H|[-> _]]]].
        -- apply elem_of_cons. by right.
        -- by apply Hx in H.
        -- apply elem_of_cons. by left.
    + assert (Hx : forall c', (y, c') ∉ t).
      { intros c' H. apply (Habs y c'); [done|lia|done]. }
      split.
      * intros H. apply elem_of_cons in H as [H|H].
        -- injection H as -> ->. right. split; [done|]. left. apply elem_of_cons. left.
           f_equal. lia.
        -- left. split; [|apply elem_of_cons; by right]. intros ->. by apply (Hx c).
      * intros [[Hr H]|[-> [H|[-> H]]]].
        -- apply elem_of_cons in H as [H|H]; [injection H as ? ?; congruence|].
           apply elem_of_cons. by right.
        -- apply elem_of_cons in H as [H|H]; [|by apply Hx in H].
           injection H as H. apply elem_of_cons. left. f_equal. lia.
        -- exfalso. apply (H c0). apply elem_of_cons. by left.
    + split.
      * intros H. apply elem_of_cons in H as [H|H].
        -- injection H as -> ->. left. split; [lia|]. apply elem_of_cons. by left.
        -- apply (IH r c Hs) in H as [[Hr H]|[-> [H|[-> H]]]].
           ++ left. split; [done|]. apply elem_of_cons. by right.
           ++ right. split; [done|]. left. apply elem_of_cons. by right.
           ++ right. split; [done|]. right. split; [done|]. intros c' Hc.
              apply elem_of_cons in Hc as [Hc|Hc]; [injection Hc as ? ?; lia|by apply H in Hc].
      * intros H. apply elem_of_cons. destruct H as [[Hr H]|[-> [H|[-> H]]]].
        -- apply elem_of_cons in H as [H|H]; [by left|]. right. apply IH; [done|]. by left.
        -- apply elem_of_cons in H as [H|H]; [injection H as ? ?; lia|].
           right. apply IH; [done|]. right. split; [done|]. by left.
        -- right. apply IH; [done|]. right. split; [done|]. right. split; [done|].
           intros c' Hc. apply (H c'). apply elem_of_cons. by right.
Qed.

Lemma sorted_NoDup (l : list Z) : increasing l -> NoDup l.
Proof.
  induction l as [|x l IH]; intros Hs; [constructor|].
  destruct Hs as [Hx Hs]. apply NoDup_cons. split; [|by apply IH].
  intros Hin. rewrite Forall_forall in Hx. specialize (Hx x Hin). lia.
Qed.

Lemma np_unique_counts_spec (r : list Z) :
  increasing (map fst (np_unique_counts r)) /\
  forall x c, (x, c) ∈ np_unique_counts r <-> c = occurrences x r /\ 0 < c.
Proof.
  induction r as [|y r [IHs IH]]; simpl.
  - split; [done|]. intros x c. split; [intros H; by apply elem_of_nil in H|lia].
  - fold (np_unique_counts r). split; [by apply count_insert_sorted|].
    intros x c. rewrite count_insert_elem by done. rewrite !IH.
    pose proof (occurrences_nonneg x r) as Hnn.
    destruct (Z.eqb_spec y x) as [->|Hne].
    + split.
      * intros [[Hx _]|[_ [H|[-> H]]]]; [done|lia|].
        destruct (decide (0 < occurrences x r)) as [Hpos|Hz]; [|lia].
        exfalso. apply (H (occurrences x r)). by apply IH.
      * intros [-> _]. right. split; [done|].
        destruct (decide (0 < occurrences x r)) as [Hpos|Hz]; [left; lia|].
        right. split; [lia|]. intros c' Hc. apply IH in Hc. lia.
    + split.
      * intros [[_ H]|[-> _]]; [lia|done].
      * intros [-> H]. left. split; [congruence|lia].
Qed.

Lemma np_unique_counts_table (r : list Z) : table_of r (np_unique_counts r).
Proof.
  destruct (np_unique_counts_spec r) as [Hs H]. split; [by apply sorted_NoDup|done].
Qed.

(** ** Columns of a table *)

Lemma np_where_eq_absent (row : list Z) (x : Z) (k0 : nat) :
  x ∉ row -> np_where_eq row x k0 = [].
Proof.
  revert k0. induction row as [|y row IH]; intros k0 H; [done|]. simpl.
  apply not_elem_of_cons in H as [Hne H]. destruct (Z.eqb_spec y x) as [->|_]; [done|].
  by apply IH.
Qed.

Lemma np_where_eq_NoDup (row : list Z) (x : Z) (k k0 : nat) :
  NoDup row -> row !! k = Some x -> np_where_eq row x k0 = [(k0 + k)%nat].
Proof.
  revert k k0. induction row as [|y row IH]; intros k k0 Hnd Hk; [done|].
  apply NoDup_cons in Hnd as [Hy Hnd]. destruct k as [|k]; simpl in *.
  - injection Hk as ->. rewrite Z.eqb_refl, np_where_eq_absent by done. f_equal. lia.
  - destruct (Z.eqb_spec y x) as [->|_].
    + exfalso. apply Hy. by apply list_elem_of_lookup_2 in Hk.
    + rewrite (IH k (S k0)) by done. f_equal. lia.
Qed.

Lemma table_column (r : list Z) (tbl : list (Z * Z)) (x : Z) :
  table_of r tbl -> x ∈ r ->
  exists k, np_where_eq (map fst tbl) x 0 = [k] /\ tbl !! k = Some (x, occurrences x r).
Proof.
  intros [Hnd Ht] Hx.
  assert (Hin : (x, occurrences x r) ∈ tbl) by (apply Ht; split; [done|by apply occurrences_elem]).
  apply list_elem_of_lookup in Hin as [k Hk]. exists k. split; [|done].
  rewrite (np_where_eq_NoDup (map fst tbl) x k 0); [done|done|].
  change (map fst tbl) with (fst <$> tbl). by rewrite list_lookup_fmap, Hk.
Qed.

Lemma map_fst_alter (tbl : list (Z * Z)) (k : nat) (d : Z) :
  map fst (alter (fun c => (fst c, snd c + d)) k tbl) = map fst tbl.
Proof.
  apply list_eq. intros i.
  change (map fst) with (fmap (M := list) (@fst Z Z)). rewrite !list_lookup_fmap.
  destruct (decide (i = k)) as [->|Hne].
  - rewrite list_lookup_alter_eq. by destruct (tbl !! k).
  - by rewrite list_lookup_alter_ne.
Qed.

(** The table after one attachment is the table of the relabelled roots. *)
Lemma table_of_attach (r : list Z) (tbl : list (Z * Z)) (lo hi : Z) (klo khi : nat) :
  table_of r tbl -> lo <> hi ->
  tbl !! klo = Some (lo, occurrences lo r) -> tbl !! khi = Some (hi, occurrences hi r) ->
  table_of (relabel lo hi r)
    (delete klo (alter (fun c => (fst c, snd c + occurrences lo r)) khi tbl)).
Proof.
  intros [Hnd Ht] Hne Hlo Hhi.
  set (clo := occurrences lo r) in *. set (chi := occurrences hi r) in *.
  set (t1 := alter (fun c => (fst c, snd c + clo)) khi tbl).
  assert (Hkey : forall q q' x c c', tbl !! q = Some (x, c) -> tbl !! q' = Some (x, c') -> q = q').
  { intros q q' x c c' Hq Hq'. apply (NoDup_lookup (map fst tbl) q q' x); [done|..];
      change (map fst tbl) with (fst <$> tbl); rewrite list_lookup_fmap.
    - by rewrite Hq.
    - by rewrite Hq'. }
  assert (Hk : klo <> khi) by (intros E; rewrite E in Hlo; congruence).
  assert (Ht1 : forall q, t1 !! q = if decide (q = khi) then Some (hi, chi + clo) else tbl !! q).
  { intros q. unfold t1. case_decide as E.
    - subst q. by rewrite list_lookup_alter_eq, Hhi.
    - by rewrite list_lookup_alter_ne. }
  assert (Hdel : forall p, p ∈ delete klo t1 <-> exists q, q <> klo /\ t1 !! q = Some p).
  { intros p. rewrite list_elem_of_lookup. split.
    - intros [q Hq]. destruct (decide (q < klo)%nat) as [Hlt|Hge].
      + rewrite list_lookup_delete_lt in Hq by done. exists q. split; [lia|done].
      + rewrite list_lookup_delete_ge in Hq by lia. exists (S q). split; [lia|done].
    - intros (q & Hq & Hp). destruct (decide (q < klo)%nat) as [Hlt|Hge].
      + exists q. by rewrite list_lookup_delete_lt.
      + exists (q - 1)%nat. rewrite list_lookup_delete_ge by lia.
        by replace (S (q - 1)) with q by lia. }
  assert (Hclo : 0 < clo).
  { apply (Ht lo clo). by apply list_elem_of_lookup_2 in Hlo. }
  assert (Hchi : 0 < chi).
  { apply (Ht hi chi). by apply list_elem_of_lookup_2 in Hhi. }
  split.
  - rewrite <- (map_fst_alter tbl khi clo) in Hnd. fold t1 in Hnd.
    change (map fst (delete klo t1)) with (fst <$> delete klo t1).
    rewrite list_fmap_delete. eapply sublist_NoDup; [exact Hnd|apply sublist_delete].
  - intros x c. rewrite Hdel, occurrences_relabel by done. split.
    + intros (q & Hq & Hp). rewrite Ht1 in Hp. case_decide as E.
      * injection Hp as <- <-. rewrite decide_False by done. rewrite decide_True by done.
        fold chi clo. lia.
      * assert (Hxlo : x <> lo) by (intros ->; apply Hq; by apply (Hkey q klo lo c clo)).
        assert (Hxhi : x <> hi) by (intros ->; apply E; by apply (Hkey q khi hi c chi)).
        rewrite !decide_False by done. apply Ht. by apply list_elem_of_lookup_2 in Hp.
    + intros [Hc Hpos]. case_decide as E1; [lia|]. case_decide as E2.
      * subst x. exists khi. split; [done|]. rewrite Ht1, decide_True by done.
        fold chi clo in Hc. by rewrite Hc.
      * assert (Hin : (x, c) ∈ tbl) by (by apply Ht).
        apply list_elem_of_lookup in Hin as [q Hq]. exists q. split.
        -- intros ->. congruence.
        -- rewrite Ht1, decide_False; [done|]. intros ->. congruence.
Qed.

Lemma Forall2_map_elem {A B : Type} (R R' : A -> B -> Prop) (f : B -> B)
    (l : list A) (k : list B) :
  Forall2 R l k -> (forall x y, x ∈ l -> R x y -> R' x (f y)) -> Forall2 R' l (map f k).
Proof.
  induction 1 as [|x y l k Hxy Hlk IH]; intros Himp; simpl; constructor.
  - apply Himp; [by left|done].
  - apply IH. intros x' y' Hx'. apply Himp. by right.
Qed.

Lemma arange_length (n : nat) : length (arange n) = n.
Proof. unfold arange. by rewrite length_map, length_seq. Qed.

Lemma arange_lookup (n : nat) (v : Z) :
  0 <= v < Z.of_nat n -> arange n !! Z.to_nat v = Some v.
Proof.
  intros Hv. unfold arange. change (map Z.of_nat) with (fmap (M := list) Z.of_nat).
  rewrite list_lookup_fmap.
  assert (E : seq 0 n !! Z.to_nat v = Some (Z.to_nat v)) by (apply lookup_seq; lia).
  rewrite E. simpl. f_equal. lia.
Qed.

Lemma arange_in_range (a : list Z) (v : Z) : v ∈ arange (length a) -> in_range a v.
Proof.
  intros Hv. pose proof (Forall_vertex_arange (length a)) as H.
  rewrite Forall_forall in H. by apply H.
Qed.

Lemma roots_array_elem (a r : list Z) (v rv : Z) :
  Forall2 (is_root_of a) (arange (length a)) r ->
  in_range a v -> is_root_of a v rv -> rv ∈ r.
Proof.
  intros Hex Hv Hrv.
  destruct (Forall2_lookup_l _ _ _ (Z.to_nat v) v Hex) as (y & Hy & Hvy);
    [by apply arange_lookup|].
  rewrite (is_root_of_unique a v rv y Hrv Hvy). by apply list_elem_of_lookup_2 in Hy.
Qed.

Lemma attach_own (a r : list Z) (sz : option (list (Z * Z))) (tbl : list (Z * Z))
    (lo hi : Z) (klo khi : nat) :
  in_range a lo ->
  attach (mkState a (Some (RootsOwn r)) sz) tbl lo hi klo khi =
  Ret tt (mkState (<[Z.to_nat lo := hi]> a) (Some (RootsOwn (relabel lo hi r)))
            (Some (delete klo (alter (fun c => (fst c, snd c + snd (tbl !!! klo))) khi tbl)))).
Proof. intros Hlo. unfold attach. by rewrite setitem_single. Qed.

(** One attachment on exact bookkeeping. *)
Lemma attach_exact (a r : list Z) (sz : option (list (Z * Z))) (tbl : list (Z * Z))
    (lo hi : Z) (klo khi : nat) :
  valid_forest a ->
  Forall2 (is_root_of a) (arange (length a)) r ->
  table_of r tbl ->
  in_range a lo -> in_range a hi -> is_root a lo -> is_root a hi -> lo <> hi ->
  tbl !! klo = Some (lo, occurrences lo r) -> tbl !! khi = Some (hi, occurrences hi r) ->
  exists s', attach (mkState a (Some (RootsOwn r)) sz) tbl lo hi klo khi = Ret tt s' /\
    bookkeeping_exact s' /\ size s' <> None /\
    forall v rv, in_range a v -> is_root_of a v rv ->
      is_root_of (id_updated s') v (if decide (rv = lo) then hi else rv).
Proof.
  intros Hf Hex Htab Hlo Hhi Hrlo Hrhi Hne Hklo Hkhi.
  destruct (attach_spec (mkState a (Some (RootsOwn r)) sz) tbl lo hi klo khi)
    as (s' & Hfin & Hf' & Hlen & Hroots); [done..|].
  rewrite attach_own in Hfin |- * by done. simpl in Hfin. injection Hfin as <-.
  simpl in *. eexists. split; [done|]. split; [|split; [done|exact Hroots]].
  split; [done|]. exists (relabel lo hi r). simpl. split; [done|]. split.
  - rewrite Hlen. apply (Forall2_map_elem (is_root_of a)); [done|].
    intros v rv Hv Hvr. apply arange_in_range in Hv.
    pose proof (Hroots v rv Hv Hvr) as H.
    destruct (Z.eqb_spec rv lo) as [->|Hrv].
    + by rewrite decide_True in H.
    + by rewrite decide_False in H.
  - intros tbl' [= <-].
    rewrite (@list_lookup_total_correct _ _ tbl klo _ Hklo). simpl.
    by apply table_of_attach.
Qed.

(** X13.  The weighted union keeps exact bookkeeping.  When the parent array
    is a valid forest, [self.roots] is an array of its own holding the root
    of every vertex and [self.size], if it exists, is the table of the values
    of [self.roots] with their numbers of occurrences, a weighted union of
    two in-range int ids returns and leaves bookkeeping that is exact again
    (building the table first when it does not exist).  The two ids end in
    one tree, whose root is the root of the tree with more vertices, or the
    root of [main] on a tie. *)
Theorem X13_weighted_union_keeps_bookkeeping (s : state) (x y rx ry : Z)
    (pc : bool) (pc_type : string) :
  bookkeeping_exact s ->
  in_range (id_updated s) x -> in_range (id_updated s) y ->
  is_root_of (id_updated s) x rx -> is_root_of (id_updated s) y ry ->
  compression_mode pc_type ->
  exists (n : nat) (s' : state),
    (forall fuel, (n <= fuel)%nat ->
       build_weighted_quick_union fuel s (PyInt x) (PyInt y) pc pc_type = Ret tt s') /\
    bookkeeping_exact s' /\
    (let kept := if occurrences rx (roots_value s) <=? occurrences ry (roots_value s)
                 then ry else rx in
     is_root_of (id_updated s') x kept /\ is_root_of (id_updated s') y kept) /\
    (rx <> ry -> size s' <> None).
Proof.
  destruct s as [a rt sz]. intros (Hf & r & Hr & Hex & Htab) Hx Hy Hrx Hry Hmode.
  cbn [id_updated roots size] in *. subst rt. pose proof Hf as [Hwf _].
  destruct (both_roots_spec (mkState a (Some (RootsOwn r)) sz) [x] [y] pc pc_type)
    as (n & ri & rj & a2 & Hri & Hrj & Hc & _ & Hrun);
    [done|by constructor|by constructor|done|].
  simpl in Hri, Hrj, Hc, Hrun. unfold set_id_updated in Hrun. simpl in Hrun.
  apply Forall2_singleton_l in Hri as (i & -> & Hi).
  apply Forall2_singleton_l in Hrj as (j & -> & Hj).
  pose proof (is_root_of_unique a x _ _ Hi Hrx) as ->.
  pose proof (is_root_of_unique a y _ _ Hj Hry) as ->.
  pose proof (compresses_forest a a2 Hf Hc) as Hf2.
  pose proof Hc as [Hlen2 _].
  assert (Hlift : forall v rv, in_range a v -> is_root_of a v rv ->
            in_range a2 v /\ is_root_of a2 v rv).
  { intros v rv Hv Hvr. split; [by apply (in_range_length a)|].
    by apply (compresses_root_of a). }
  assert (Hex2 : Forall2 (is_root_of a2) (arange (length a2)) r).
  { rewrite Hlen2. rewrite <- (map_id r).
    apply (Forall2_map_elem (is_root_of a)); [done|].
    intros v rv Hv Hvr. apply arange_in_range in Hv. by apply Hlift. }
  destruct (decide (rx = ry)) as [<-|Hne].
  - exists n, (mkState a2 (Some (RootsOwn r)) sz). split.
    { intros fuel Hfuel. unfold build_weighted_quick_union, weighted_union_with_keyword.
      rewrite Hrun by done. simpl. by rewrite Z.eqb_refl. }
    split.
    { split; [done|]. exists r. simpl. split; [done|]. split; [exact Hex2|exact Htab]. }
    split; [|done]. unfold roots_value. simpl.
    match goal with |- context [if ?b then _ else _] => destruct b end;
      (split; [exact (proj2 (Hlift x rx Hx Hrx))|exact (proj2 (Hlift y rx Hy Hry))]).
  - set (tbl := match sz with Some t => t | None => np_unique_counts r end).
    assert (Htbl : table_of r tbl).
    { unfold tbl. destruct sz as [t|]; [by apply Htab|apply np_unique_counts_table]. }
    destruct (table_column r tbl rx Htbl) as (kx & Hkx & Hcx);
      [by apply (roots_array_elem a r x)|].
    destruct (table_column r tbl ry Htbl) as (ky & Hky & Hcy);
      [by apply (roots_array_elem a r y)|].
    assert (Hrx2 : in_range a2 rx /\ is_root a2 rx).
    { split.
      - apply (in_range_length a); [done|]. by apply (is_root_of_in_range a x).
      - apply (compresses_root a); [done|by apply (is_root_of_in_range a x)|].
        by apply (is_root_of_is_root a x). }
    assert (Hry2 : in_range a2 ry /\ is_root a2 ry).
    { split.
      - apply (in_range_length a); [done|]. by apply (is_root_of_in_range a y).
      - apply (compresses_root a); [done|by apply (is_root_of_in_range a y)|].
        by apply (is_root_of_is_root a y). }
    assert (Hhead : forall fuel, (n <= fuel)%nat ->
              build_weighted_quick_union fuel (mkState a (Some (RootsOwn r)) sz)
                (PyInt x) (PyInt y) pc pc_type
              = if occurrences rx r <=? occurrences ry r
                then attach (mkState a2 (Some (RootsOwn r)) (Some tbl)) tbl rx ry kx ky
                else attach (mkState a2 (Some (RootsOwn r)) (Some tbl)) tbl ry rx ky kx).
    { intros fuel Hfuel. unfold build_weighted_quick_union, weighted_union_with_keyword.
      rewrite Hrun by done. simpl.
      destruct (Z.eqb_spec rx ry) as [E|_]; [done|].
      rewrite ensure_size_src. simpl.
      assert (Hens : match sz with
                     | Some tbl0 => Ret tbl0 (mkState a2 (Some (RootsOwn r)) sz)
                     | None =>
                         if roots_usable (mkState a2 (Some (RootsOwn r)) sz)
                         then Ret (np_unique_counts r)
                                (mkState a2 (Some (RootsOwn r)) (Some (np_unique_counts r)))
                         else Raise (TypeError "find_root() got an unexpected keyword argument")
                                (mkState a2 (Some (RootsOwn r)) sz)
                     end = Ret tbl (mkState a2 (Some (RootsOwn r)) (Some tbl))).
      { unfold tbl. destruct sz as [t|]; [done|]. unfold roots_usable. simpl.
        apply Forall2_length in Hex2. rewrite arange_length in Hex2.
        by rewrite <- Hex2, Nat.eqb_refl. }
      unfold roots_value in *. simpl in *. rewrite Hens. simpl.
      rewrite (size_index_single _ tbl rx kx Hkx). simpl.
      rewrite (size_index_single _ tbl ry ky Hky). simpl.
      by rewrite (@list_lookup_total_correct _ _ tbl kx _ Hcx),
        (@list_lookup_total_correct _ _ tbl ky _ Hcy). }
    unfold roots_value. cbn [roots].
    destruct (occurrences rx r <=? occurrences ry r) eqn:Ecmp.
    + destruct (attach_exact a2 r (Some tbl) tbl rx ry kx ky)
        as (s' & Hret & Hbk & Hsz & Hroots);
        [done|done|done|apply Hrx2|apply Hry2|apply Hrx2|apply Hry2|done|done|done|].
      exists n, s'. split; [intros fuel Hfuel; by rewrite Hhead, ?Ecmp|].
      split; [done|]. split; [|done]. split.
      * destruct (Hlift x rx Hx Hrx) as [Hx2 Hxr2].
        pose proof (Hroots x rx Hx2 Hxr2) as H. by rewrite decide_True in H.
      * destruct (Hlift y ry Hy Hry) as [Hy2 Hyr2].
        pose proof (Hroots y ry Hy2 Hyr2) as H. by rewrite decide_False in H by congruence.
    + destruct (attach_exact a2 r (Some tbl) tbl ry rx ky kx)
        as (s' & Hret & Hbk & Hsz & Hroots);
        [done|done|done|apply Hry2|apply Hrx2|apply Hry2|apply Hrx2|congruence|done|done|].
      exists n, s'. split; [intros fuel Hfuel; by rewrite Hhead, ?Ecmp|].
      split; [done|]. split; [|done]. split.
      * destruct (Hlift x rx Hx Hrx) as [Hx2 Hxr2].
        pose proof (Hroots x rx Hx2 Hxr2) as H. by rewrite decide_False in H.
      * destruct (Hlift y ry Hy Hry) as [Hy2 Hyr2].
        pose proof (Hroots y ry Hy2 Hyr2) as H. by rewrite decide_True in H.
Qed.

Lemma X13_weighted_union_keeps_bookkeeping_witness :
  exists (n : nat) (s' : state),
    (forall fuel, (n <= fuel)%nat ->
       build_weighted_quick_union fuel
         (mkState scenario (Some (RootsOwn [0; 0; 0; 3; 3; 3; 3; 7; 3; 3; 3])) None)
         (PyInt 2) (PyInt 7) true "full_pc" = Ret tt s') /\
    bookkeeping_exact s' /\
    (let kept :=
       if occurrences 0
            (roots_value (mkState scenario (Some (RootsOwn [0; 0; 0; 3; 3; 3; 3; 7; 3; 3; 3])) None))
          <=? occurrences 7
            (roots_value (mkState scenario (Some (RootsOwn [0; 0; 0; 3; 3; 3; 3; 7; 3; 3; 3])) None))
       then 7 else 0 in
     is_root_of (id_updated s') 2 kept /\ is_root_of (id_updated s') 7 kept) /\
    (0 <> 7 -> size s' <> None).
Proof.
  apply (X13_weighted_union_keeps_bookkeeping
           (mkState scenario (Some (RootsOwn [0; 0; 0; 3; 3; 3; 3; 7; 3; 3; 3])) None)
           2 7 0 7 true "full_pc").
  - split; [apply valid_forestb_sound; vm_compute; reflexivity|].
    exists [0; 0; 0; 3; 3; 3; 3; 7; 3; 3; 3]. split; [reflexivity|]. split.
    + repeat (constructor; [exists 11%nat; split; vm_compute; reflexivity|]). constructor.
    + intros tbl H. simpl in H. discriminate.
  - unfold in_range. simpl. lia.
  - unfold in_range. simpl. lia.
  - apply (root_fn_root_of scenario 2); vm_compute; reflexivity.
  - apply (root_fn_root_of scenario 7); vm_compute; reflexivity.
  - right. reflexivity.
Defined.
